(** * The SeqGAN generator: masking, sampling, reward-weighted loss, training loop

    A shallow embedding of [generator.py].  Tensors are a shape together with
    their row-major contents, as the numeric runtime stores them; scalars are
    real numbers; Python exceptions are the [Raise] outcomes of a result type;
    the mutable model, the random source and the log are threaded as an
    explicit state that survives an exception.  The exponential is the real
    one except that it underflows to zero; the sampler inverts the cumulative
    distribution at a uniform draw; the gradient of the loss is the derivative
    of the loss as a function of the parameter values.  The sample file and
    the pretraining, which the constructor and the two sanity checks call,
    are arbitrary computations on that state; the lines of the test log are
    kept beside it.

    The loss is embedded twice: over the real numbers, which is what the
    forward pass and the training loop are stated over, and in single
    precision, where a value is a number or NaN and every operation rounds
    to the nearest number of 24 significant bits.  What holds of the loss
    over the reals only is said to hold in exact arithmetic. *)

From Stdlib Require Import List ZArith Reals Lra Lia Permutation Bool Arith.
From Stdlib Require Import ClassicalEpsilon.
Import ListNotations.

(** ** Exceptions and fallible results *)

Inductive exn : Type :=
| IndexError
| RuntimeError
| ValueError
| TypeError
| ZeroDivisionError
| UnboundLocalError
| ModelError          (* raised inside the external pretrained model *)
| Diverges.           (* the loop never ends *)

Inductive result (A : Type) : Type :=
| Ok (a : A)
| Raise (e : exn).

Arguments Ok {A} a.
Arguments Raise {A} e.

Definition rbind {A B} (r : result A) (k : A -> result B) : result B :=
  match r with
  | Ok a => k a
  | Raise e => Raise e
  end.

Notation "'let?' x ':=' r 'in' k" := (rbind r (fun x => k))
  (at level 10, x pattern, r at level 100, k at level 200).

Fixpoint sequence {A} (l : list (result A)) : result (list A) :=
  match l with
  | [] => Ok []
  | r :: rest => let? a := r in let? others := sequence rest in Ok (a :: others)
  end.

(** ** List helpers *)

Fixpoint zip_with {A B C} (f : A -> B -> C) (l1 : list A) (l2 : list B) : list C :=
  match l1, l2 with
  | a :: l1', b :: l2' => f a b :: zip_with f l1' l2'
  | _, _ => []
  end.

Fixpoint imap_from {A B} (i : nat) (f : nat -> A -> B) (l : list A) : list B :=
  match l with
  | [] => []
  | a :: l' => f i a :: imap_from (S i) f l'
  end.

Definition imap {A B} (f : nat -> A -> B) (l : list A) : list B := imap_from 0 f l.

Fixpoint set_nth {A} (i : nat) (v : A) (l : list A) : list A :=
  match l, i with
  | [], _ => []
  | _ :: l', O => v :: l'
  | a :: l', S i' => a :: set_nth i' v l'
  end.

Fixpoint rows {A} (n c : nat) (l : list A) : list (list A) :=
  match n with
  | O => []
  | S n' => firstn c l :: rows n' c (skipn c l)
  end.

Definition Rsum (l : list R) : R := fold_right Rplus 0%R l.

Definition Rmaximum (l : list R) : R :=
  match l with
  | [] => 0%R
  | a :: l' => fold_right Rmax a l'
  end.

(** ** The tensor operations the module calls *)

Module Torch.

Record tensor (A : Type) : Type := Tensor { shape : list nat; data : list A }.
Arguments Tensor {A} shape data.
Arguments shape {A} t.
Arguments data {A} t.

Definition prod (s : list nat) : nat := fold_right Nat.mul 1 s.

Definition numel {A} (t : tensor A) : nat := length (data t).

Definition wf {A} (t : tensor A) : Prop := length (data t) = prod (shape t).

(** [t.shape[i]] *)
Definition size {A} (i : nat) (t : tensor A) : result nat :=
  match nth_error (shape t) i with
  | Some n => Ok n
  | None => Raise IndexError
  end.

(** [t.view(-1, c)] *)
Definition view_rows {A} (c : nat) (t : tensor A) : result (tensor A) :=
  if c =? 0 then Raise RuntimeError
  else if numel t mod c =? 0 then Ok (Tensor [numel t / c; c] (data t))
  else Raise RuntimeError.

(** [t.view(-1)] *)
Definition view_flat {A} (t : tensor A) : tensor A := Tensor [numel t] (data t).

(** [t.view(s)] *)
Definition view {A} (s : list nat) (t : tensor A) : result (tensor A) :=
  if prod s =? numel t then Ok (Tensor s (data t)) else Raise RuntimeError.

(** [torch.Tensor(d0, d1).zero_()] *)
Definition zeros (d0 d1 : nat) : tensor R := Tensor [d0; d1] (repeat 0%R (d0 * d1)).

(** [self.scatter_(1, index, v)] on the rows of a two-dimensional [self],
    [index] holding one column: [self[i][index[i][0]] = v].  An index
    outside the row raises. *)
Fixpoint scatter_rows (c : nat) (rs : list (list R)) (index : list Z) (v : R)
  : result (list (list R)) :=
  match index, rs with
  | [], _ => Ok rs
  | i :: index', r :: rs' =>
      if ((0 <=? i)%Z && (i <? Z.of_nat c)%Z)%bool
      then let? rest := scatter_rows c rs' index' v in
           Ok (set_nth (Z.to_nat i) v r :: rest)
      else Raise RuntimeError
  | _ :: _, [] => Raise RuntimeError
  end.

Definition scatter_ (self : tensor R) (index : tensor Z) (v : R) : result (tensor R) :=
  match shape self with
  | [n; c] =>
      let? rs := scatter_rows c (rows n c (data self)) (data index) v in
      Ok (Tensor [n; c] (concat rs))
  | _ => Raise RuntimeError
  end.

(** [torch.clamp(t, min=lo, max=hi)] *)
Definition clamp (lo hi : R) (t : tensor R) : tensor R :=
  Tensor (shape t) (map (fun v => Rmin (Rmax v lo) hi) (data t)).

(** [torch.log(t)] *)
Definition log (t : tensor R) : tensor R := Tensor (shape t) (map ln (data t)).

(** One dimension of an elementwise operation: sizes agree, or the side of
    size one is repeated. *)
Definition broadcast {A B C} (f : A -> B -> C) (l1 : list A) (l2 : list B)
  : result (list C) :=
  match l1, l2 with
  | [a], _ => Ok (map (f a) l2)
  | _, [b] => Ok (map (fun a => f a b) l1)
  | _, _ => if length l1 =? length l2 then Ok (zip_with f l1 l2)
            else Raise RuntimeError
  end.

(** [torch.mul(a, b)] for the ranks [GeneratorLoss.forward] reaches: two
    vectors, or two matrices. *)
Definition mul (a b : tensor R) : result (tensor R) :=
  match shape a, shape b with
  | [_], [_] =>
      let? d := broadcast Rmult (data a) (data b) in
      Ok (Tensor [length d] d)
  | [n1; c1], [n2; c2] =>
      let? rs := broadcast (broadcast Rmult) (rows n1 c1 (data a)) (rows n2 c2 (data b)) in
      let? rs' := sequence rs in
      Ok (Tensor [length rs'; if c1 =? 1 then c2 else c1] (concat rs'))
  | _, _ => Raise RuntimeError
  end.

(** [torch.sum(t, dim=1)] of a matrix. *)
Definition sum_dim1 (t : tensor R) : result (tensor R) :=
  match shape t with
  | [n; c] => Ok (Tensor [n] (map Rsum (rows n c (data t))))
  | _ => Raise IndexError
  end.

(** [torch.sum(t)] *)
Definition sum (t : tensor R) : R := Rsum (data t).

(** [len(t)] *)
Definition len {A} (t : tensor A) : result nat :=
  match shape t with
  | [] => Raise TypeError
  | n :: _ => Ok n
  end.

(** [t[lo:hi]], a slice of the first dimension. *)
Definition slice {A} (lo hi : nat) (t : tensor A) : result (tensor A) :=
  match shape t with
  | [] => Raise IndexError
  | n :: rest =>
      let lo' := Nat.min lo n in
      let hi' := Nat.min hi n in
      Ok (Tensor ((hi' - lo') :: rest)
                 (firstn ((hi' - lo') * prod rest) (skipn (lo' * prod rest) (data t))))
  end.

(** A Python index into a dimension of size [n]: negative indices count
    from the end. *)
Definition py_index (n : nat) (i : Z) : result nat :=
  if ((0 <=? i)%Z && (i <? Z.of_nat n)%Z)%bool then Ok (Z.to_nat i)
  else if ((- Z.of_nat n <=? i)%Z && (i <? 0)%Z)%bool then Ok (Z.to_nat (i + Z.of_nat n))
  else Raise IndexError.

(** The entries of [l], seen as blocks of [n] slabs of [inner] entries,
    whose position along the axis of size [n] is [i], are set to [v]. *)
Definition fill_axis (n inner i : nat) (v : R) (l : list R) : list R :=
  imap (fun j a => if (j / inner) mod n =? i then v else a) l.

(** [t[:, :, token] = v] *)
Definition setitem_dim2 (t : tensor R) (token : Z) (v : R) : result (tensor R) :=
  match shape t with
  | _ :: _ :: c :: rest =>
      let? i := py_index c token in
      Ok (Tensor (shape t) (fill_axis c (prod rest) i v (data t)))
  | _ => Raise IndexError
  end.

(** [t[:, token] = v] *)
Definition setitem_dim1 (t : tensor R) (token : Z) (v : R) : result (tensor R) :=
  match shape t with
  | _ :: b :: rest =>
      let? i := py_index b token in
      Ok (Tensor (shape t) (fill_axis b (prod rest) i v (data t)))
  | _ => Raise IndexError
  end.

(** The entries of [l] that share all coordinates with entry [j] except
    the one along the axis of size [n]. *)
Definition fiber (n inner : nat) (l : list R) (j : nat) : list R :=
  map (fun k => nth ((j / (n * inner)) * (n * inner) + k * inner + j mod inner) l 0%R)
      (seq 0 n).

(** Softmax along an axis, computed the stable way: the maximum of the
    fiber is subtracted before exponentiating with [ex]. *)
Definition softmax_axis (ex : R -> R) (n inner : nat) (l : list R) : list R :=
  imap (fun j a =>
          let f := fiber n inner l j in
          let m := Rmaximum f in
          (ex (a - m) / Rsum (map (fun v => ex (v - m)) f))%R) l.

(** [softmax(t, dim=2)] *)
Definition softmax_dim2 (ex : R -> R) (t : tensor R) : result (tensor R) :=
  match shape t with
  | _ :: _ :: c :: rest => Ok (Tensor (shape t) (softmax_axis ex c (prod rest) (data t)))
  | _ => Raise IndexError
  end.

(** [t.sum(dim=2)] *)
Definition sum_dim2 (t : tensor R) : result (tensor R) :=
  match shape t with
  | a :: b :: c :: rest =>
      let inner := prod rest in
      Ok (Tensor (a :: b :: rest)
            (map (fun j => Rsum (fiber c inner (data t) ((j / inner) * (c * inner) + j mod inner)))
                 (seq 0 (a * b * inner))))
  | _ => Raise IndexError
  end.

(** [torch.cat(ts)], along the first dimension. *)
Definition cat {A} (ts : list (tensor A)) : result (tensor A) :=
  match ts with
  | [] => Raise RuntimeError
  | t :: _ =>
      match shape t with
      | [] => Raise RuntimeError
      | _ :: rest =>
          if forallb (fun t' => if list_eq_dec Nat.eq_dec (tl (shape t')) rest
                                then negb (length (shape t') =? 0) else false) ts
          then Ok (Tensor (list_sum (map (fun t' => hd 0 (shape t')) ts) :: rest)
                          (concat (map data ts)))
          else Raise RuntimeError
      end
  end.

(** [torch.cat([a, b], dim=1)] of two matrices. *)
Definition cat_dim1 {A} (a b : tensor A) : result (tensor A) :=
  match shape a, shape b with
  | [n1; c1], [n2; c2] =>
      if n1 =? n2
      then Ok (Tensor [n1; c1 + c2]
                      (concat (zip_with (@app A) (rows n1 c1 (data a)) (rows n2 c2 (data b)))))
      else Raise RuntimeError
  | _, _ => Raise RuntimeError
  end.

(** The integer nearest to [z] that a single-precision float holds (ties to
    even; the overflow to infinity is left out): what an integer becomes
    when it is stored in a float tensor. *)
Definition float32 (z : Z) : Z :=
  let a := Z.abs z in
  if (a <? 2 ^ 24)%Z then z
  else
    let e := (Z.log2 a - 23)%Z in
    let q := (a / 2 ^ e)%Z in
    let r := (a mod 2 ^ e)%Z in
    let q' := if (2 * r <? 2 ^ e)%Z then q
              else if (2 ^ e <? 2 * r)%Z then (q + 1)%Z
              else if Z.even q then q else (q + 1)%Z in
    (Z.sgn z * (q' * 2 ^ e))%Z.

(** One draw of [multinomial(num_samples=1)] from the weights [row], by
    inversion of the cumulative weights at the uniform draw [u]. *)
Fixpoint inverse_cdf (u : R) (row : list R) : nat :=
  match row with
  | [] => 0
  | p :: rest => if Rlt_dec u p then 0 else S (inverse_cdf (u - p) rest)
  end.

Definition negative (p : R) : bool := if Rlt_dec p 0 then true else false.

Definition multinomial_row (u : R) (row : list R) : result nat :=
  if existsb negative row then Raise RuntimeError
  else if Rle_dec (Rsum row) 0 then Raise RuntimeError
  else Ok (inverse_cdf (u * Rsum row) row).

End Torch.

Import Torch.

(** ** GeneratorLoss *)

Section GeneratorLoss.

Variable VOCAB_SIZE : nat.

Definition createOneHotDummy (dim : nat * nat) : tensor R :=
  zeros (fst dim) (snd dim).

Definition CLAMP_MIN : R := (/ 100000000000000000000)%R.

Definition GeneratorLoss_forward (prediction : tensor R) (x : tensor Z)
           (rewards : tensor R) : result R :=
  let? x1 := view_rows 1 x in
  let? pred1 := view_rows VOCAB_SIZE prediction in
  let? d0 := size 0 x1 in
  let? d1 := size 1 pred1 in
  let? x2 := scatter_ (createOneHotDummy (d0, d1)) x1 1%R in
  let pred2 := log (clamp CLAMP_MIN 1%R pred1) in
  let? prod := mul x2 pred2 in
  let? reduced_prod := sum_dim1 prod in
  let? rewards_prod := mul reduced_prod (view_flat rewards) in
  Ok (sum rewards_prod).

End GeneratorLoss.

(** ** GeneratorLoss in single precision *)

(** The operations of [GeneratorLoss.forward] on the values a float tensor
    holds: a number or NaN, every sum, product and logarithm rounded to the
    nearest number with 24 significant bits, ties to even, and the entries
    of a sum added from the left.  The infinities, the subnormal numbers and
    the bounds of the exponent are left out. *)
Module Single.

Definition f32 : Type := option R.

Definition NaN : f32 := None.

(** [y] lies where the numbers of single precision are [2 ^ e] apart. *)
Definition in_binade (e : Z) (y : R) : Prop :=
  (powerRZ 2 (e + 23) <= Rabs y < powerRZ 2 (e + 24))%R.

(** The exponent of the spacing around [y]; around zero there is none. *)
Definition exponent (y : R) : Z :=
  match excluded_middle_informative (exists e, in_binade e y) with
  | left pr => proj1_sig (constructive_indefinite_description _ pr)
  | right _ => 0%Z
  end.

(** The integer nearest to [z]; of two that are equally near, the even one. *)
Definition nearest_even (z : R) : Z :=
  let f := Int_part z in
  let d := (z - IZR f)%R in
  if Rlt_dec d (/ 2) then f
  else if Rlt_dec (/ 2) d then (f + 1)%Z
  else if Z.even f then f else (f + 1)%Z.

(** The number of single precision nearest to [y]. *)
Definition round (y : R) : R :=
  (IZR (nearest_even (y / powerRZ 2 (exponent y))) * powerRZ 2 (exponent y))%R.

(** [a + b] and [a * b]: NaN as soon as an operand is. *)
Definition add (a b : f32) : f32 :=
  match a, b with
  | Some u, Some v => Some (round (u + v))
  | _, _ => NaN
  end.

Definition mult (a b : f32) : f32 :=
  match a, b with
  | Some u, Some v => Some (round (u * v))
  | _, _ => NaN
  end.

(** The logarithm of one value.  Of a number that is not positive it is
    minus infinity or NaN; it is NaN here. *)
Definition ln32 (a : f32) : f32 :=
  match a with
  | Some v => if Rlt_dec 0 v then Some (round (ln v)) else NaN
  | None => NaN
  end.

(** The sum of a list, added from the left. *)
Definition total (l : list f32) : f32 := fold_left add l (Some 0%R).

(** A tensor of zeros and ones as a float tensor. *)
Definition numbers (t : tensor R) : tensor f32 := Tensor (shape t) (map Some (data t)).

(** [torch.clamp(t, min=lo, max=hi)]: NaN stays NaN. *)
Definition clamp (lo hi : R) (t : tensor f32) : tensor f32 :=
  Tensor (shape t) (map (option_map (fun v => Rmin (Rmax v lo) hi)) (data t)).

(** [torch.log(t)] *)
Definition log (t : tensor f32) : tensor f32 := Tensor (shape t) (map ln32 (data t)).

(** [torch.mul(a, b)] *)
Definition mul (a b : tensor f32) : result (tensor f32) :=
  match shape a, shape b with
  | [_], [_] =>
      let? d := broadcast mult (data a) (data b) in
      Ok (Tensor [length d] d)
  | [n1; c1], [n2; c2] =>
      let? rs := broadcast (broadcast mult) (rows n1 c1 (data a)) (rows n2 c2 (data b)) in
      let? rs' := sequence rs in
      Ok (Tensor [length rs'; if c1 =? 1 then c2 else c1] (concat rs'))
  | _, _ => Raise RuntimeError
  end.

(** [torch.sum(t, dim=1)] of a matrix. *)
Definition sum_dim1 (t : tensor f32) : result (tensor f32) :=
  match shape t with
  | [n; c] => Ok (Tensor [n] (map total (rows n c (data t))))
  | _ => Raise IndexError
  end.

(** [torch.sum(t)] *)
Definition sum (t : tensor f32) : f32 := total (data t).

(** The bounds of the clamp are the floats nearest to [1e-20] and [1.0]. *)
Definition GeneratorLoss_forward (VOCAB_SIZE : nat) (prediction : tensor f32) (x : tensor Z)
           (rewards : tensor f32) : result f32 :=
  let? x1 := view_rows 1 x in
  let? pred1 := view_rows VOCAB_SIZE prediction in
  let? d0 := size 0 x1 in
  let? d1 := size 1 pred1 in
  let? x2 := scatter_ (createOneHotDummy (d0, d1)) x1 1%R in
  let x2 := numbers x2 in
  let pred2 := log (clamp (round CLAMP_MIN) 1%R pred1) in
  let? prod := mul x2 pred2 in
  let? reduced_prod := sum_dim1 prod in
  let? rewards_prod := mul reduced_prod (view_flat rewards) in
  Ok (sum rewards_prod).

End Single.


(** ** The generator, its external collaborators and the mutable world *)

(** What the run leaves behind: calls of the pretrained model with the
    arguments it received, resets of the hidden state, optimizer steps and
    log lines. *)
Inductive event : Type :=
| ModelCall (x : tensor Z) (sentence_lengths : option (list Z))
| InitHidden (n : nat)
| OptimizerStep
| LogHeader
| LogEpoch (epoch : nat) (average : R)
| LogClose.

(** A scalar that remembers how it was computed from the parameters. *)
Record node : Type := Node { item : R; graph : list R -> R }.

Record param : Type := Param { value : R; requires_grad : bool; grad : option R }.

(** [d f / d t] at [a]; zero where [f] has no derivative. *)
Definition derivative (f : R -> R) (a : R) : R :=
  match excluded_middle_informative (exists l, derivable_pt_lim f a l) with
  | left pr => proj1_sig (constructive_indefinite_description _ pr)
  | right _ => 0%R
  end.

Definition from_result (r : result R) : R :=
  match r with
  | Ok v => v
  | Raise _ => 0%R
  end.

(** The generator object, the random source and what the run has left
    behind. *)
Record world (Hidden : Type) : Type := World {
  start_token : Z;
  ignored_tokens : option (list Z);
  parameters : list param;
  hidden : Hidden;
  tag_space : option (tensor R);
  y_prob : option (tensor R);
  y_output : option (tensor Z);
  loss_variable : option node;
  rng : nat -> R;
  trace : list event
}.

Arguments start_token {Hidden} w.
Arguments ignored_tokens {Hidden} w.
Arguments parameters {Hidden} w.
Arguments hidden {Hidden} w.
Arguments tag_space {Hidden} w.
Arguments y_prob {Hidden} w.
Arguments y_output {Hidden} w.
Arguments loss_variable {Hidden} w.
Arguments rng {Hidden} w.
Arguments trace {Hidden} w.

(** ** A small pretrained model, to run the statements on *)

Module Toy.

(** Three vocabulary entries, every score zero, no hidden state. *)
Definition VOCAB_SIZE : nat := 3.
Definition MAXINT : Z := 10000.
Definition EXP_UNDERFLOW : R := 104.

Definition init_hidden (n : nat) : unit := tt.

Definition pretrain_model (theta : list R) (h : unit) (x : tensor Z)
           (sentence_lengths : option (list Z)) : result (tensor R * unit) :=
  Ok (Tensor (shape x ++ [VOCAB_SIZE]) (repeat 0%R (numel x * VOCAB_SIZE)), tt).

(** A generator with one trainable parameter, start token 0, which ignores
    token 0, and whose random source always draws 0. *)
Definition w0 : world unit :=
  World unit 0%Z (Some [0%Z]) [Param 1%R true None] tt None None None None
        (fun _ => 0%R) [].

Definition x0 : tensor Z := Tensor [2; 2] [1%Z; 2%Z; 2%Z; 1%Z].

Definition zero_reward : tensor R := Tensor [2; 2] [0%R; 0%R; 0%R; 0%R].

End Toy.

(** ** Concrete inputs *)

Definition uniform5 : tensor R :=
  Tensor [1; 1; 5] [(1/5)%R; (1/5)%R; (1/5)%R; (1/5)%R; (1/5)%R].

Definition token2 : tensor Z := Tensor [1; 1] [2%Z].

Definition reward1 : tensor R := Tensor [1; 1] [1%R].

Definition two_predictions : tensor R :=
  Tensor [2; 1; 2] [(1/4)%R; (3/4)%R; (1/2)%R; (1/2)%R].

Definition two_tokens : tensor Z := Tensor [2; 1] [0%Z; 1%Z].

Definition two_rewards : tensor R := Tensor [2; 1] [1%R; 2%R].



(** Three sequences of one token, every probability one half, and rewards
    of very different sizes. *)
Definition halves : tensor Single.f32 := Tensor [3; 1; 2] (repeat (Some (/ 2)%R) 6).

Definition first_tokens : tensor Z := Tensor [3; 1] [0%Z; 0%Z; 0%Z].

Definition large_rewards : tensor Single.f32 :=
  Tensor [3; 1] [Some 1073741824%R; Some 1%R; Some (- 1073741824)%R].

(** A prediction that holds NaN beside the probability of the reference
    token. *)
Definition nan_prediction : tensor Single.f32 := Tensor [1; 1; 2] [Single.NaN; Some (/ 2)%R].

Definition two_zero_rewards : tensor Single.f32 := Tensor [2; 1] [Some 0%R; Some 0%R].

(** A generator none of whose parameters requires a gradient. *)
Definition frozen_world : world unit :=
  World unit 0%Z None [Param 1%R false None] tt None None None None (fun _ => 0%R) [].

Definition three_sequences : tensor Z := Tensor [3; 2] [1%Z; 2%Z; 2%Z; 1%Z; 1%Z; 2%Z].

Definition long_sequence : tensor Z := Tensor [1; 3] [1%Z; 2%Z; 1%Z].

Definition bad_tokens : tensor Z := Tensor [2; 2] [1%Z; 2%Z; 2%Z; 7%Z].

(** A sample file that holds [Toy.x0], and a pretraining that leaves the
    model as it is and predicts zeros. *)
Definition sample_x0 (w : world unit) : result (tensor Z) * world unit := (Ok Toy.x0, w).

Definition no_pretraining (x : tensor Z) (w : world unit)
  : result (tensor R * (list R -> tensor R)) * world unit :=
  (Ok (Tensor [0] [], fun _ => Tensor [0] []), w).

Section Generator.

(** Constants of [config.py]. *)
Variables SEQ_LENGTH VOCAB_SIZE GEN_NUM_EPOCH : nat.
Variable MAXINT : Z.

(** The exponential of the numeric runtime is zero at and below
    [- EXP_UNDERFLOW]. *)
Variable EXP_UNDERFLOW : R.

(** The pretrained model of [lstmCore.py]: its hidden state, the reset of
    that state, and its forward pass, which from the parameter values, the
    hidden state, the input tokens and the sentence lengths computes the
    scores it leaves in [tag_space] and the next hidden state. *)
Variable Hidden : Type.
Variable init_hidden : nat -> Hidden.
Variable pretrain_model :
  list R -> Hidden -> tensor Z -> option (list Z) -> result (tensor R * Hidden).

(** The exponential as the runtime computes it: real, except that it is
    flushed to zero at and below [- EXP_UNDERFLOW]. *)
Definition fexp (v : R) : R :=
  if Rle_dec v (- EXP_UNDERFLOW) then 0%R else exp v.

Notation world := (world Hidden).

Notation World := (@World Hidden).

Definition M (A : Type) : Type := world -> result A * world.

Definition ret {A} (a : A) : M A := fun w => (Ok a, w).

Definition bind {A B} (m : M A) (k : A -> M B) : M B :=
  fun w => match m w with
           | (Ok a, w') => k a w'
           | (Raise e, w') => (Raise e, w')
           end.

Definition lift {A} (r : result A) : M A := fun w => (r, w).

Definition gets {A} (f : world -> A) : M A := fun w => (Ok (f w), w).

Definition modify (f : world -> world) : M unit := fun w => (Ok tt, f w).

Notation "x <- m ;; k" := (bind m (fun x => k))
  (at level 61, m at next level, right associativity).
Notation "m ;;; k" := (bind m (fun _ => k))
  (at level 61, right associativity).

Definition set_parameters (ps : list param) (w : world) : world :=
  World (start_token w) (ignored_tokens w) ps (hidden w) (tag_space w)
        (y_prob w) (y_output w) (loss_variable w) (rng w) (trace w).

Definition set_hidden (h : Hidden) (w : world) : world :=
  World (start_token w) (ignored_tokens w) (parameters w) h (tag_space w)
        (y_prob w) (y_output w) (loss_variable w) (rng w) (trace w).

Definition set_tag_space (t : tensor R) (w : world) : world :=
  World (start_token w) (ignored_tokens w) (parameters w) (hidden w) (Some t)
        (y_prob w) (y_output w) (loss_variable w) (rng w) (trace w).

Definition set_y_prob (t : tensor R) (w : world) : world :=
  World (start_token w) (ignored_tokens w) (parameters w) (hidden w) (tag_space w)
        (Some t) (y_output w) (loss_variable w) (rng w) (trace w).

Definition set_y_output (t : tensor Z) (w : world) : world :=
  World (start_token w) (ignored_tokens w) (parameters w) (hidden w) (tag_space w)
        (y_prob w) (Some t) (loss_variable w) (rng w) (trace w).

Definition set_loss_variable (l : node) (w : world) : world :=
  World (start_token w) (ignored_tokens w) (parameters w) (hidden w) (tag_space w)
        (y_prob w) (y_output w) (Some l) (rng w) (trace w).

Definition set_rng (g : nat -> R) (w : world) : world :=
  World (start_token w) (ignored_tokens w) (parameters w) (hidden w) (tag_space w)
        (y_prob w) (y_output w) (loss_variable w) g (trace w).

Definition emit (e : event) (w : world) : world :=
  World (start_token w) (ignored_tokens w) (parameters w) (hidden w) (tag_space w)
        (y_prob w) (y_output w) (loss_variable w) (rng w) (trace w ++ [e]).

Definition values (w : world) : list R := map value (parameters w).

(** *** Calls into the runtime and the pretrained model *)

(** [self.pretrain_model(x, sentence_lengths=sl)]: the scores land in
    [tag_space], the hidden state moves on. *)
Definition call_pretrain_model (x : tensor Z) (sl : option (list Z)) : M unit :=
  modify (emit (ModelCall x sl)) ;;;
  w <- gets (fun w => w) ;;
  match pretrain_model (values w) (hidden w) x sl with
  | Ok (scores, h) => modify (fun w => set_hidden h (set_tag_space scores w))
  | Raise e => lift (Raise e)
  end.

(** [self.pretrain_model.hidden = self.pretrain_model.init_hidden(n)] *)
Definition reset_hidden (n : nat) : M unit :=
  modify (fun w => emit (InitHidden n) (set_hidden (init_hidden n) w)).

(** The next draw of the random source, a number of [0, 1). *)
Definition uniform : M R :=
  fun w => (Ok (rng w 0), set_rng (fun n => rng w (S n)) w).

Fixpoint multinomial_rows (rs : list (list R)) : M (list Z) :=
  match rs with
  | [] => ret []
  | r :: rs' =>
      u <- uniform ;;
      k <- lift (multinomial_row u r) ;;
      ks <- multinomial_rows rs' ;;
      ret (Z.of_nat k :: ks)
  end.

(** [t.multinomial(num_samples=1)] of a matrix of weights. *)
Definition multinomial (t : tensor R) : M (tensor Z) :=
  match shape t with
  | [n; c] =>
      if c =? 0 then lift (Raise RuntimeError)
      else ks <- multinomial_rows (rows n c (data t)) ;; ret (Tensor [n; 1] ks)
  | _ => lift (Raise RuntimeError)
  end.

(** *** Generator.ignoreTokens *)

(** The body of the loop over the tokens. *)
Definition mask_token (original : tensor R) (token : Z) : result (tensor R) :=
  if length (shape original) =? 3
  then setitem_dim2 original token (IZR (- MAXINT))
  else setitem_dim1 original token (IZR (- MAXINT)).

(** The source updates [original] in place and returns it; here the updated
    tensor is returned and the caller stores it where the source aliases it. *)
Definition ignoreTokens (original : tensor R) (ignored : option (list Z))
  : result (tensor R) :=
  match ignored with
  | None => Ok original
  | Some tokens =>
    fold_left (fun acc token => let? original := acc in mask_token original token)
              tokens (Ok original)
  end.

(** *** Generator.forward *)

(** The loss as the parameters determine it, everything else held fixed:
    what [backward] differentiates. *)
Definition loss_graph (h : Hidden) (x : tensor Z) (ignored : option (list Z))
           (rewards : tensor R) (theta : list R) : R :=
  from_result
    (let? (scores, _) := pretrain_model theta h x None in
     let? y_pred := ignoreTokens scores ignored in
     let? y_prob := softmax_dim2 fexp y_pred in
     GeneratorLoss_forward VOCAB_SIZE y_prob x rewards).

Definition Generator_forward (x : tensor Z) (rewards : option (tensor R))
           (ignored : option (list Z)) (sentence_lengths : option (list Z))
  : M (tensor Z) :=
  self_ignored <- gets ignored_tokens ;;
  let ignored := match ignored with None => self_ignored | Some _ => ignored end in
  h <- gets hidden ;;
  call_pretrain_model x None ;;;
  y_pred <- gets tag_space ;;
  y_pred <- lift (match y_pred with Some t => Ok t | None => Raise RuntimeError end) ;;
  y_pred <- lift (ignoreTokens y_pred ignored) ;;
  modify (set_tag_space y_pred) ;;;
  y_prob <- lift (softmax_dim2 fexp y_pred) ;;
  modify (set_y_prob y_prob) ;;;
  s0 <- lift (size 0 y_prob) ;;
  s1 <- lift (size 1 y_prob) ;;
  flat <- lift (view_rows (last (shape y_prob) 0) y_prob) ;;
  samples <- multinomial flat ;;
  y_output <- lift (view [s0; s1] samples) ;;
  modify (set_y_output y_output) ;;;
  rewards <- lift (match rewards with
                   | None => sum_dim2 y_prob
                   | Some r => Ok r
                   end) ;;
  loss <- lift (GeneratorLoss_forward VOCAB_SIZE y_prob x rewards) ;;
  modify (set_loss_variable (Node loss (loss_graph h x ignored rewards))) ;;;
  ret y_output.

(** *** Generator.generate *)

Fixpoint generate_loop (n : nat) (ignored : option (list Z))
         (y : tensor Z) (y_all_sample : tensor Z) : M (tensor Z) :=
  match n with
  | O => ret y_all_sample
  | S n' =>
      let x := Tensor [numel y; 1] (data y) in
      call_pretrain_model x (Some [1%Z]) ;;;
      scores <- gets tag_space ;;
      scores <- lift (match scores with Some t => Ok t | None => Raise RuntimeError end) ;;
      masked <- lift (ignoreTokens scores ignored) ;;
      modify (set_tag_space masked) ;;;
      y_prob <- lift (softmax_dim2 fexp masked) ;;
      s0 <- lift (size 0 y_prob) ;;
      s1 <- lift (size 1 y_prob) ;;
      flat <- lift (view_rows (last (shape y_prob) 0) y_prob) ;;
      samples <- multinomial flat ;;
      y <- lift (view [s0; s1] (Tensor (shape samples) (map float32 (data samples)))) ;;
      y_all_sample <- lift (cat_dim1 y_all_sample y) ;;
      generate_loop n' ignored y y_all_sample
  end.

Definition generate_LSTMCore (start : Z) (ignored : option (list Z))
           (batch_size : nat) : M (tensor Z) :=
  let y := Tensor [batch_size] (repeat (float32 start) batch_size) in
  let y_all_sample := Tensor [numel y; 1] (data y) in
  reset_hidden batch_size ;;;
  generate_loop (SEQ_LENGTH - 1) ignored y y_all_sample.

Definition generate (start : option Z) (ignored : option (list Z))
           (batch_size : nat) : M (tensor Z) :=
  self_start <- gets start_token ;;
  let start := match start with None => self_start | Some s => s end in
  self_ignored <- gets ignored_tokens ;;
  let ignored := match ignored with None => self_ignored | Some _ => ignored end in
  generate_LSTMCore start ignored batch_size.

(** *** The optimizer: plain gradient descent on the trainable parameters *)

Definition LEARNING_RATE : R := (1 / 100)%R.

(** [torch.optim.SGD(params, lr=0.01)] over the parameters that require a
    gradient; an empty list is refused. *)
Definition SGD : M unit :=
  ps <- gets parameters ;;
  if existsb requires_grad ps then ret tt else lift (Raise ValueError).

(** [optimizer.zero_grad()]: a gradient that exists is set to zero. *)
Definition zeroed (p : param) : param :=
  if requires_grad p then Param (value p) true (option_map (fun _ => 0%R) (grad p)) else p.

Definition zero_grad : M unit :=
  modify (fun w => set_parameters (map zeroed (parameters w)) w).

(** [loss_var.backward()]: each trainable parameter accumulates the partial
    derivative of the loss along its own coordinate [i] of [theta]. *)
Definition differentiated (loss_var : node) (theta : list R) (i : nat) (p : param) : param :=
  if requires_grad p
  then let g := derivative (fun t => graph loss_var (set_nth i t theta)) (value p) in
     Param (value p) true (Some (match grad p with Some g0 => g0 + g | None => g end)%R)
  else p.

Definition backward (loss_var : node) : M unit :=
  modify (fun w =>
  set_parameters (imap (differentiated loss_var (values w)) (parameters w)) w).

(** [optimizer.step()]: [p -= lr * p.grad] where there is a gradient. *)
Definition stepped (p : param) : param :=
  if requires_grad p
  then match grad p with
     | Some g => Param (value p - LEARNING_RATE * g)%R true (grad p)
     | None => p
     end
  else p.

Definition step : M unit :=
  modify (fun w => emit OptimizerStep (set_parameters (map stepped (parameters w)) w)).

(** *** train_generator *)

(** The local variables of the function that the loops assign. *)
Record locals : Type := Locals {
  y_prob_all : option (list (tensor R));
  y_output_all : option (list (tensor Z));
  epoch_loss : list R
  }.

Definition unbound : locals := Locals None None [].

Definition bound {A} (v : option A) : result A :=
  match v with
  | Some a => Ok a
  | None => Raise UnboundLocalError
  end.

(** The body of the [while] loop, at [pointer]: first the forward pass on the
    slice and the update of the parameters, *)
Definition batch_step (x : tensor Z) (reward : tensor R) (sentence_lengths : list Z)
           (batch_size pointer : nat) : M (tensor R * tensor Z * node) :=
  x_batch <- lift (slice pointer (pointer + batch_size) x) ;;
  r_batch <- lift (slice pointer (pointer + batch_size) reward) ;;
  let s_length := firstn batch_size (skipn pointer sentence_lengths) in
  reset_hidden batch_size ;;;
  y_output <- Generator_forward x_batch (Some r_batch) (Some s_length) None ;;
  y_prob <- gets y_prob ;;
  y_prob <- lift (bound y_prob) ;;
  loss_var <- gets loss_variable ;;
  loss_var <- lift (bound loss_var) ;;
  zero_grad ;;;
  backward loss_var ;;;
  step ;;;
  ret (y_prob, y_output, loss_var).

(** then the three [append]s. *)
Definition train_batch (x : tensor Z) (reward : tensor R) (sentence_lengths : list Z)
           (batch_size pointer : nat) (l : locals) : M locals :=
  out <- batch_step x reward sentence_lengths batch_size pointer ;;
  let '(y_prob, y_output, loss_var) := out in
  probs <- lift (bound (y_prob_all l)) ;;
  outs <- lift (bound (y_output_all l)) ;;
  ret (Locals (Some (probs ++ [y_prob])) (Some (outs ++ [y_output]))
            (epoch_loss l ++ [item loss_var])).

(** [while pointer + batch_size <= len(x)].  The fuel bounds the number of
    iterations; a loop that outlives it never ends. *)
Fixpoint while_batches (fuel : nat) (x : tensor Z) (len_x : nat) (reward : tensor R)
         (sentence_lengths : list Z) (batch_size pointer : nat) (l : locals) : M locals :=
  if pointer + batch_size <=? len_x then
  match fuel with
  | O => lift (Raise Diverges)
  | S fuel' =>
      l' <- train_batch x reward sentence_lengths batch_size pointer l ;;
      while_batches fuel' x len_x reward sentence_lengths batch_size
                    (pointer + batch_size) l'
  end
  else ret l.

(** [sum(epoch_loss)/len(epoch_loss)] *)
Definition average (losses : list R) : result R :=
  match losses with
  | [] => Raise ZeroDivisionError
  | _ => Ok (Rsum losses / INR (length losses))%R
  end.

(** One turn of [for epoch in range(iter_n_gen)]. *)
Definition train_epoch (x : tensor Z) (len_x : nat) (reward : tensor R)
           (sentence_lengths : list Z) (batch_size epoch : nat) (l : locals) : M locals :=
  let l := Locals (Some []) (Some []) [] in
  l <- while_batches (S len_x) x len_x reward sentence_lengths batch_size 0 l ;;
  avg <- lift (average (epoch_loss l)) ;;
  modify (emit (LogEpoch epoch avg)) ;;;
  ret l.

Fixpoint for_epochs (epochs : list nat) (x : tensor Z) (len_x : nat) (reward : tensor R)
         (sentence_lengths : list Z) (batch_size : nat) (l : locals) : M locals :=
  match epochs with
  | [] => ret l
  | epoch :: rest =>
    l' <- train_epoch x len_x reward sentence_lengths batch_size epoch l ;;
    for_epochs rest x len_x reward sentence_lengths batch_size l'
  end.

(** The statements before the loops: the defaults of the arguments. *)
Definition normalize_x (x : tensor Z) : result (tensor Z) :=
  if length (shape x) =? 1
  then let? n := size 0 x in view [1; n] x
  else Ok x.

Definition default_sentence_lengths (x : tensor Z) (sentence_lengths : option (list Z))
  : result (list Z) :=
  let? sl := match sentence_lengths with
           | None => let? s1 := size 1 x in
                     let? n := len x in
                     Ok (repeat (Z.of_nat s1) n)
           | Some sl => Ok sl
           end in
  let? n := len x in
  if length sl <? n
  then let? s1 := size 1 x in Ok (sl ++ repeat (Z.of_nat s1) (n - length sl))
  else Ok sl.

Definition default_reward (x : tensor Z) (reward : option (tensor R)) : result (tensor R) :=
  match reward with
  | None => let? s0 := size 0 x in
          let? s1 := size 1 x in
          view (shape x) (Tensor [s0 * s1] (repeat 1%R (s0 * s1)))
  | Some r => Ok r
  end.

Definition train_generator (x : tensor Z) (reward : option (tensor R))
           (iter_n_gen : option nat) (batch_size : nat)
           (sentence_lengths : option (list Z)) : M (tensor R * tensor Z) :=
  x <- lift (normalize_x x) ;;
  sentence_lengths <- lift (default_sentence_lengths x sentence_lengths) ;;
  reward <- lift (default_reward x reward) ;;
  let iter_n_gen := match iter_n_gen with None => GEN_NUM_EPOCH | Some n => n end in
  SGD ;;;
  modify (emit LogHeader) ;;;
  len_x <- lift (len x) ;;
  l <- for_epochs (seq 0 iter_n_gen) x len_x reward sentence_lengths batch_size unbound ;;
  modify (emit LogClose) ;;;
  probs <- lift (bound (y_prob_all l)) ;;
  y_prob_all <- lift (cat probs) ;;
  outs <- lift (bound (y_output_all l)) ;;
  y_output_all <- lift (cat outs) ;;
  y_output_all <- lift (view (shape x) y_output_all) ;;
  ret (y_prob_all, y_output_all).

(** * The vocabulary of the statements *)

(** ** The loss, term by term *)

Definition clamp1 (v : R) : R := Rmin (Rmax v CLAMP_MIN) 1.

(** The log of the clamped probability that [row] gives to [tok]. *)
Definition pick (row : list R) (tok : Z) : R := ln (clamp1 (nth (Z.to_nat tok) row 0%R)).

(** The reward-weighted log-probabilities, one per flattened position. *)
Definition loss_terms (V : nat) (dp : list R) (dx : list Z) (dr : list R) : list R :=
  zip_with Rmult (zip_with pick (rows (length dx) V dp) dx) dr.

(** The loss as the docstring of [GeneratorLoss.forward] words it: minus the
    sum of the reward-weighted log-probabilities. *)
Definition negated_weighted_sum (V : nat) (prediction : tensor R) (x : tensor Z)
           (rewards : tensor R) : R :=
  (- Rsum (loss_terms V (data prediction) (data x) (data rewards)))%R.

Definition one_hot (V : nat) (tok : Z) : list R := set_nth (Z.to_nat tok) 1%R (repeat 0%R V).

Definition in_vocab (V : nat) (tok : Z) : Prop := (0 <= tok < Z.of_nat V)%Z.

(** ** The loss in single precision, term by term *)

Definition number (a : Single.f32) : Prop := exists v, a = Some v.

(** A number with 24 significant bits. *)
Definition representable (r : R) : Prop :=
  exists m e, (2 ^ 23 <= Z.abs m < 2 ^ 24)%Z /\ r = (IZR m * powerRZ 2 e)%R.

Definition single_clamp1 (a : Single.f32) : Single.f32 :=
  option_map (fun v => Rmin (Rmax v (Single.round CLAMP_MIN)) 1) a.

(** The log of the clamped probability that [row] gives to [tok], as the
    row of the one-hot matrix selects it. *)
Definition single_pick (V : nat) (row : list Single.f32) (tok : Z) : Single.f32 :=
  Single.total (zip_with Single.mult (map Some (one_hot V tok))
                         (map (fun a => Single.ln32 (single_clamp1 a)) row)).

(** The reward-weighted log-probabilities, one per flattened position. *)
Definition single_loss_terms (V : nat) (dp : list Single.f32) (dx : list Z)
           (dr : list Single.f32) : list Single.f32 :=
  zip_with Single.mult (zip_with (single_pick V) (rows (length dx) V dp) dx) dr.

(** The terms of batch entry [b]. *)
Definition single_batch_terms (B S V : nat) (dp : list Single.f32) (dx : list Z)
           (dr : list Single.f32) (b : nat) : list Single.f32 :=
  single_loss_terms V (nth b (rows B (S * V) dp) []) (nth b (rows B S dx) [])
                    (nth b (rows B S dr) []).


(** ** Permuting the batch dimension *)

(** [t[sigma]]: the slices of the first dimension, taken in the order [sigma]. *)
Definition permute_batch {A} (sigma : list nat) (t : tensor A) : tensor A :=
  match shape t with
  | [] => t
  | n :: rest =>
      Tensor (length sigma :: rest)
             (concat (map (fun b => nth b (rows n (prod rest) (data t)) []) sigma))
  end.

Definition block : Type := (list R * list Z * list R)%type.

Definition block_p (t : block) : list R := fst (fst t).
Definition block_x (t : block) : list Z := snd (fst t).
Definition block_r (t : block) : list R := snd t.

Definition block_sized (V : nat) (t : block) : Prop :=
  length (block_p t) = length (block_x t) * V /\ length (block_r t) = length (block_x t).

(** The slices of the three tensors that belong to batch entry [b]. *)
Definition batch_block (B S V : nat) (dp : list R) (dx : list Z) (dr : list R) (b : nat)
  : block :=
  (nth b (rows B (S * V) dp) [], nth b (rows B S dx) [], nth b (rows B S dr) []).

Definition block_terms (V : nat) (t : block) : list R :=
  loss_terms V (block_p t) (block_x t) (block_r t).

(** ** ignoreTokens *)

(** The position in a dimension of size [V] that the Python index [tok]
    names. *)
Definition vocab_index (V : nat) (tok : Z) : nat :=
  Z.to_nat (if (tok <? 0)%Z then tok + Z.of_nat V else tok)%Z.

Definition valid_index (V : nat) (tok : Z) : Prop := (- Z.of_nat V <= tok < Z.of_nat V)%Z.

Definition ignored_at (V : nat) (tokens : list Z) (k : nat) : bool :=
  existsb (fun tok => vocab_index V tok =? k) tokens.

Definition vocab_last (s : list nat) (V : nat) : Prop :=
  (exists a, s = [a; V]) \/ (exists a b, s = [a; b; V]).

(** Softmax of one row. *)
Definition softmax_vec (ex : R -> R) (row : list R) : list R :=
  let m := Rmaximum row in
  let s := Rsum (map (fun v => ex (v - m)%R) row) in
  map (fun v => (ex (v - m) / s)%R) row.

(** The exponentials of a row, its maximum subtracted. *)
Definition row_exps (row : list R) : list R :=
  map (fun v => fexp (v - Rmaximum row)%R) row.

(** ** Sampling *)

Definition uniform_draws (w : world) : Prop := forall n, (0 <= rng w n < 1)%R.

Definition good_row (row : list R) : Prop :=
  Forall (fun v => 0 <= v)%R row /\ (0 < Rsum row)%R.

Definition drawn_from (row : list R) (k : Z) : Prop :=
  (0 <= k)%Z /\ Z.to_nat k < length row /\ (0 < nth (Z.to_nat k) row 0)%R.

(** The scores [ds] once every token of [tokens] has been masked. *)
Definition masked_data (V : nat) (tokens : list Z) (ds : list R) : list R :=
  fold_left (fun d tok => fill_axis V 1 (vocab_index V tok) (IZR (- MAXINT)) d) tokens ds.

Definition respects (Rel : world -> world -> Prop) {A} (m : M A) : Prop :=
  forall w, Rel w (snd (m w)).

(** ** What a successful forward pass leaves behind *)

Definition same_but_rng (w w' : world) : Prop := exists g, w' = set_rng g w.

Definition effective_ignored (ignored : option (list Z)) (w : world) : option (list Z) :=
  match ignored with
  | None => ignored_tokens w
  | Some _ => ignored
  end.

Definition effective_rewards (rewards : option (tensor R)) (probs : tensor R)
  : result (tensor R) :=
  match rewards with
  | None => sum_dim2 probs
  | Some r => Ok r
  end.

Definition all_zero (t : tensor R) : Prop := Forall (fun a => a = 0%R) (data t).

Definition same_values (w w' : world) : Prop := values w' = values w.

Definition optimizer_update (loss_var : node) (w : world) : world :=
  snd ((zero_grad ;;; backward loss_var ;;; step) w).

(** ** A batch size larger than the number of sequences *)

(** The number of sequences in [x], once a single sequence has been made a
    batch of one. *)
Definition num_sequences (x : tensor Z) : nat :=
  match shape x with
  | [] => 0
  | [_] => 1
  | n :: _ => n
  end.

Definition epochs_of (iter_n_gen : option nat) : nat :=
  match iter_n_gen with
  | None => GEN_NUM_EPOCH
  | Some n => n
  end.

Definition log_line (e : event) : Prop := e = LogHeader \/ e = LogClose.

(** The statements of [train_generator] before its loops, as one result. *)
Definition prelude (x : tensor Z) (reward : option (tensor R))
           (sentence_lengths : option (list Z)) (w : world)
  : result (tensor Z * list Z * tensor R) :=
  let? x' := normalize_x x in
  let? sls := default_sentence_lengths x' sentence_lengths in
  let? reward' := default_reward x' reward in
  if existsb requires_grad (parameters w) then Ok (x', sls, reward')
  else Raise ValueError.

(** ** The batches of one epoch *)

Definition batch_result : Type := (tensor R * tensor Z * node)%type.

Definition br_prob (b : batch_result) : tensor R := fst (fst b).
Definition br_out (b : batch_result) : tensor Z := snd (fst b).
Definition br_loss (b : batch_result) : R := item (snd b).

(** The first [k] full batches from [pointer] on: consecutive slices of
    [batch_size] sequences, each put through the body of the loop. *)
Fixpoint full_batches (k : nat) (x : tensor Z) (reward : tensor R)
         (sentence_lengths : list Z) (batch_size pointer : nat) : M (list batch_result) :=
  match k with
  | O => ret []
  | S k' =>
      b <- batch_step x reward sentence_lengths batch_size pointer ;;
      rest <- full_batches k' x reward sentence_lengths batch_size (pointer + batch_size) ;;
      ret (b :: rest)
  end.

(** A run of [n + 1] epochs in which only the last epoch's batches reach the
    returned tensors: whatever the first [n] epochs collected is dropped. *)
Definition last_epoch_only (x : tensor Z) (reward : option (tensor R)) (n : nat)
           (batch_size : nat) (sentence_lengths : option (list Z))
  : M (tensor R * tensor Z) :=
  x <- lift (normalize_x x) ;;
  sentence_lengths <- lift (default_sentence_lengths x sentence_lengths) ;;
  reward <- lift (default_reward x reward) ;;
  SGD ;;;
  modify (emit LogHeader) ;;;
  len_x <- lift (len x) ;;
  for_epochs (seq 0 n) x len_x reward sentence_lengths batch_size unbound ;;;
  batches <- full_batches (len_x / batch_size) x reward sentence_lengths batch_size 0 ;;
  avg <- lift (average (map br_loss batches)) ;;
  modify (emit (LogEpoch n avg)) ;;;
  modify (emit LogClose) ;;;
  y_prob_all <- lift (cat (map br_prob batches)) ;;
  y_output_all <- lift (cat (map br_out batches)) ;;
  y_output_all <- lift (view (shape x) y_output_all) ;;
  ret (y_prob_all, y_output_all).



Definition ignored_ok (V : nat) (ignored : option (list Z)) : Prop :=
  match ignored with
  | None => True
  | Some tokens => Forall (valid_index V) tokens
  end.

(** The pretrained model, fed one token per sequence, scores the vocabulary
    once per sequence. *)
Definition scores_one_position (V : nat) : Prop :=
  forall theta h n dx, length dx = n ->
    exists d h',
      pretrain_model theta h (Tensor [n; 1] dx) (Some [1%Z]) = Ok (Tensor [n; 1; V] d, h')
      /\ length d = n * 1 * V.

Definition effective_start (start : option Z) (w : world) : Z :=
  match start with
  | None => start_token w
  | Some s => s
  end.

(** The pretrained model, fed [S] tokens per sequence and no sentence
    lengths, scores the vocabulary at every position. *)
Definition scores_every_position (S V : nat) : Prop :=
  forall theta h n dx, length dx = n * S ->
    exists d h',
      pretrain_model theta h (Tensor [n; S] dx) None = Ok (Tensor [n; S; V] d, h')
      /\ length d = n * S * V.

Definition batch_shaped (n S V : nat) (b : batch_result) : Prop :=
  (exists dp, br_prob b = Tensor [n; S; V] dp /\ length dp = n * S * V)
  /\ (exists dy, br_out b = Tensor [n; S] dy /\ length dy = n * S).

(** The sentence lengths the loops use, on [L] sequences of [S] tokens. *)
Definition effective_lengths (L S : nat) (sentence_lengths : option (list Z)) : list Z :=
  let sl := match sentence_lengths with
            | None => repeat (Z.of_nat S) L
            | Some sl => sl
            end in
  if length sl <? L then sl ++ repeat (Z.of_nat S) (L - length sl) else sl.

Definition reward_shaped (L S : nat) (reward : option (tensor R)) : Prop :=
  match reward with
  | None => True
  | Some r => shape r = [L; S] /\ wf r
  end.

(** ** The log-probabilities the rewards weigh *)

(** The log-probabilities of the reference tokens, one per flattened
    position, before the rewards weigh them. *)
Definition log_probs (V : nat) (dp : list R) (dx : list Z) : list R :=
  zip_with pick (rows (length dx) V dp) dx.


(** ** The forward pass, once the scores are known *)

(** The world when the probabilities have been stored: the model has been
    called on [x], its scores masked. *)
Definition after_scores (x : tensor Z) (scores : tensor R) (h' : Hidden)
           (masked probs : tensor R) (w : world) : world :=
  set_y_prob probs
    (set_tag_space masked
       (set_hidden h' (set_tag_space scores (emit (ModelCall x None) w)))).

(** The last statements of [Generator.forward]: the rewards, the loss. *)
Definition forward_tail (h : Hidden) (x : tensor Z) (ignored : option (list Z))
           (rewards : option (tensor R)) (probs : tensor R) (y : tensor Z) : M (tensor Z) :=
  rewards <- lift (effective_rewards rewards probs) ;;
  loss <- lift (GeneratorLoss_forward VOCAB_SIZE probs x rewards) ;;
  modify (set_loss_variable (Node loss (loss_graph h x ignored rewards))) ;;;
  ret y.

(** A row of probabilities: entries between 0 and 1 that sum to 1. *)
Definition distribution (row : list R) : Prop :=
  Forall (fun q => 0 <= q <= 1)%R row /\ Rsum row = 1%R.

(** A tensor of ones. *)
Definition ones (s : list nat) : tensor R := Tensor s (repeat 1%R (prod s)).

(** ** The tokens that generation samples *)

Definition ignored_list (ignored : option (list Z)) : list Z :=
  match ignored with
  | None => []
  | Some tokens => tokens
  end.

(** The pretrained model, fed one token per sequence, gives at least one
    token that is not ignored a score that lies the underflow threshold of
    the exponential above the mask. *)
Definition scores_clear_of_mask (V : nat) (tokens : list Z) : Prop :=
  forall theta h n dx d h',
    pretrain_model theta h (Tensor [n; 1] dx) (Some [1%Z]) = Ok (Tensor [n; 1; V] d, h') ->
    forall p, p < n ->
      exists k0, k0 < V /\ ignored_at V tokens k0 = false
                 /\ (IZR (- MAXINT) + EXP_UNDERFLOW <= nth (p * V + k0) d 0)%R.

(** What holds of a token that generation has sampled. *)
Definition sampled_token (V : nat) (tokens : list Z) (s : Z) : Prop :=
  in_vocab V s
  /\ (scores_clear_of_mask V tokens -> ignored_at V tokens (Z.to_nat s) = false).

(** ** What inference leaves alone *)

(** The parameters with their gradients, what the last forward pass cached,
    and the defaults of the generator are the same in [w'] as in [w]. *)
Definition same_generator (w w' : world) : Prop :=
  parameters w' = parameters w
  /\ y_prob w' = y_prob w
  /\ y_output w' = y_output w
  /\ loss_variable w' = loss_variable w
  /\ start_token w' = start_token w
  /\ ignored_tokens w' = ignored_tokens w.

(** A call of the model as [generate] makes it. *)
Definition generation_call (x : tensor Z) : event := ModelCall x (Some [1%Z]).

(** Only the caches of the forward pass, the hidden state and the random
    source differ between [w] and [w'], and no event was emitted. *)
Definition same_model_quiet (w w' : world) : Prop :=
  parameters w' = parameters w
  /\ start_token w' = start_token w
  /\ ignored_tokens w' = ignored_tokens w
  /\ trace w' = trace w.

(** ** What a run of the training loop leaves in the trace *)

(** One turn of the [while] loop on the slice [x_batch]. *)
Definition batch_events (batch_size : nat) (x_batch : tensor Z) : list event :=
  [InitHidden batch_size; ModelCall x_batch None; OptimizerStep].

(** One epoch over the slices [batches], and its line in the log. *)
Definition epoch_events (batch_size : nat) (batches : list (tensor Z))
           (epoch : nat) (avg : R) : list event :=
  flat_map (batch_events batch_size) batches ++ [LogEpoch epoch avg].

(** The first [k] consecutive slices of [batch_size] sequences, from
    [pointer] on. *)
Definition batches_from (x : tensor Z) (batch_size pointer k : nat)
  : result (list (tensor Z)) :=
  sequence (map (fun i => slice (pointer + i * batch_size)
                                (pointer + i * batch_size + batch_size) x)
                (seq 0 k)).

Definition is_step (e : event) : bool :=
  match e with
  | OptimizerStep => true
  | _ => false
  end.

Definition optimizer_steps (evs : list event) : nat := length (filter is_step evs).

(** ** What training leaves alone *)

(** [p'] requires a gradient if and only if [p] does, and is [p] itself if
    [p] requires none. *)
Definition kept_if_frozen (p p' : param) : Prop :=
  requires_grad p' = requires_grad p /\ (requires_grad p = false -> p' = p).

Definition frozen_parameters_kept (w w' : world) : Prop :=
  Forall2 kept_if_frozen (parameters w) (parameters w')
  /\ start_token w' = start_token w
  /\ ignored_tokens w' = ignored_tokens w.

(** ** Generator.__init__ and the two sanity checks *)

(** [read_sampleFile] of [data_processing.py], of which only the sample
    sequences are used, and [pretrain_LSTMCore] of [lstmCore.py], which
    leaves the pretrained model in place and returns its predictions: their
    value, and how the parameters determine them. *)
Variable read_sampleFile : M (tensor Z).
Variable pretrain_LSTMCore : tensor Z -> M (tensor R * (list R -> tensor R)).

Definition set_start_token (t : Z) (w : world) : world :=
  World t (ignored_tokens w) (parameters w) (hidden w) (tag_space w)
        (y_prob w) (y_output w) (loss_variable w) (rng w) (trace w).

Definition set_ignored_tokens (i : option (list Z)) (w : world) : world :=
  World (start_token w) i (parameters w) (hidden w) (tag_space w)
        (y_prob w) (y_output w) (loss_variable w) (rng w) (trace w).

(** [Generator(pretrain_model, start_token, ignored_tokens)]; without a
    pretrained model one is trained on the sample. *)
Definition Generator_init (pretrain_model_given : bool) (start_token : Z)
           (ignored_tokens : option (list Z)) : M unit :=
  modify (set_start_token start_token) ;;;
  modify (set_ignored_tokens ignored_tokens) ;;;
  if pretrain_model_given then ret tt
  else x <- read_sampleFile ;; pretrain_LSTMCore x ;;; ret tt.

(** The lines of the log [test.txt]. *)
Inductive test_event : Type :=
| TestOpen
| TestGeneratorLoss
| TestGeneratorLossSuccessful (g_loss : R)
| TestGenerator
| TestGeneratorInstantiated
| TestTrainedOutputs
| TestOutputShape (s : list nat)
| TestProbShape (s : list nat)
| TestClose.

(** A run that also writes to the test log. *)
Definition T (A : Type) : Type :=
  list test_event -> world -> result A * (list test_event * world).

Definition tret {A} (a : A) : T A := fun tl w => (Ok a, (tl, w)).

Definition tbind {A B} (m : T A) (k : A -> T B) : T B :=
  fun tl w => match m tl w with
              | (Ok a, (tl', w')) => k a tl' w'
              | (Raise e, s) => (Raise e, s)
              end.

Definition tlift {A} (m : M A) : T A :=
  fun tl w => let (r, w') := m w in (r, (tl, w')).

Definition tlog (e : test_event) : T unit := fun tl w => (Ok tt, (tl ++ [e], w)).

Notation "x <~ m ;; k" := (tbind m (fun x => k))
  (at level 61, m at next level, right associativity).
Notation "m ~;; k" := (tbind m (fun _ => k))
  (at level 61, right associativity).

(** [t.view([-1, a, b])] *)
Definition view_batches {A} (a b : nat) (t : tensor A) : result (tensor A) :=
  if a * b =? 0 then Raise RuntimeError
  else if numel t mod (a * b) =? 0 then Ok (Tensor [numel t / (a * b); a; b] (data t))
  else Raise RuntimeError.

(** [t[lo:hi, :, ..., :]] with [k] indices in all. *)
Definition slice_of {A} (k lo hi : nat) (t : tensor A) : result (tensor A) :=
  if length (shape t) <? k then Raise IndexError else slice lo hi t.

(** The loss of the sanity check as the parameters determine it. *)
Definition sanity_loss_graph (y_graph : list R -> tensor R) (batch_size : nat)
           (x_batch : tensor Z) (r_batch : tensor R) (theta : list R) : R :=
  from_result
    (let? y_pred := view_batches SEQ_LENGTH VOCAB_SIZE (y_graph theta) in
     let? p_batch := slice_of 3 0 batch_size y_pred in
     GeneratorLoss_forward VOCAB_SIZE p_batch x_batch r_batch).

(** [sanityCheck_GeneratorLoss(pretrain_result, batch_size)].  The local [x]
    is assigned only where no [pretrain_result] is given. *)
Definition sanityCheck_GeneratorLoss
           (pretrain_result : option (tensor R * (list R -> tensor R)))
           (batch_size : nat) : T node :=
  args <~ match pretrain_result with
          | None => x <~ tlift read_sampleFile ;;
                    pretrain_result <~ tlift (pretrain_LSTMCore x) ;;
                    tret (Some x, pretrain_result)
          | Some pretrain_result => tret (None, pretrain_result)
          end ;;
  let '(x, (y_pred, y_graph)) := args in
  y_pred_pretrain <~ tlift (lift (view_batches SEQ_LENGTH VOCAB_SIZE y_pred)) ;;
  test_reward <~ tlift (lift (sum_dim2 y_pred_pretrain)) ;;
  tlift SGD ~;;
  tlift zero_grad ~;;
  tlog TestOpen ~;;
  tlog TestGeneratorLoss ~;;
  p_batch <~ tlift (lift (slice_of 3 0 batch_size y_pred_pretrain)) ;;
  x <~ tlift (lift (bound x)) ;;
  x_batch <~ tlift (lift (slice_of 2 0 batch_size x)) ;;
  r_batch <~ tlift (lift (slice_of 2 0 batch_size test_reward)) ;;
  loss <~ tlift (lift (GeneratorLoss_forward VOCAB_SIZE p_batch x_batch r_batch)) ;;
  let g_loss := Node loss (sanity_loss_graph y_graph batch_size x_batch r_batch) in
  tlift (backward g_loss) ~;;
  tlift step ~;;
  tlog (TestGeneratorLossSuccessful loss) ~;;
  tlog TestClose ~;;
  tret g_loss.

(** [sanityCheck_generator(model)]; the generator that is given, or the one
    that is built, is the one of the state. *)
Definition sanityCheck_generator (model_given : bool) : T (tensor R * tensor Z) :=
  tlog TestOpen ~;;
  tlog TestGenerator ~;;
  x <~ tlift read_sampleFile ;;
  (if model_given then tret tt
   else tlift (pretrain_LSTMCore x) ~;;
        tlift (Generator_init true 0%Z None) ~;;
        tlog TestGeneratorInstantiated) ~;;
  out <~ tlift (train_generator x None None 1 None) ;;
  let '(y_prob_all, y_output_all) := out in
  tlog TestTrainedOutputs ~;;
  tlog (TestOutputShape (shape y_output_all)) ~;;
  tlog (TestProbShape (shape y_prob_all)) ~;;
  tlog TestClose ~;;
  tret (y_prob_all, y_output_all).

(** * Properties *)

(** ** Lists, rows and sums *)

Lemma length_zip_with {A B C} (f : A -> B -> C) l1 l2 :
  length (zip_with f l1 l2) = Nat.min (length l1) (length l2).
Proof.
  revert l2; induction l1 as [|a l1 IH]; intros [|b l2]; simpl; auto.
Qed.

Lemma length_imap_from {A B} (f : nat -> A -> B) l i :
  length (imap_from i f l) = length l.
Proof.
  revert i; induction l as [|a l IH]; intros i; simpl; [reflexivity|].
  now rewrite IH.
Qed.

Lemma length_imap {A B} (f : nat -> A -> B) l : length (imap f l) = length l.
Proof. apply length_imap_from. Qed.

Lemma nth_imap_from {A B} (f : nat -> A -> B) l i j da db :
  j < length l ->
  nth j (imap_from i f l) db = f (i + j) (nth j l da).
Proof.
  revert i j; induction l as [|a l IH]; intros i j Hj; simpl in *; [lia|].
  destruct j as [|j].
  - now rewrite Nat.add_0_r.
  - rewrite IH by lia. f_equal. lia.
Qed.

Lemma nth_imap {A B} (f : nat -> A -> B) l j da db :
  j < length l -> nth j (imap f l) db = f j (nth j l da).
Proof. intros Hj. unfold imap. now rewrite (nth_imap_from f l 0 j da db Hj). Qed.

Lemma length_set_nth {A} i (v : A) l : length (set_nth i v l) = length l.
Proof.
  revert i; induction l as [|a l IH]; intros [|i]; simpl; auto.
Qed.

Lemma Forall_firstn {A} (P : A -> Prop) n l : Forall P l -> Forall P (firstn n l).
Proof.
  intros H; revert n. induction H as [|a l Ha _ IH]; intros [|n]; simpl; constructor; auto.
Qed.

Lemma Forall_skipn {A} (P : A -> Prop) n l : Forall P l -> Forall P (skipn n l).
Proof.
  intros H; revert n. induction H as [|a l Ha Hl IH]; intros [|n]; simpl; auto.
Qed.

Lemma length_rows {A} n c (l : list A) : length (rows n c l) = n.
Proof.
  revert l; induction n as [|n IH]; intros l; simpl; auto.
Qed.

Lemma rows_app {A} n c (l1 l2 : list A) :
  length l1 = c -> rows (S n) c (l1 ++ l2) = l1 :: rows n c l2.
Proof.
  intros H. simpl. subst c.
  rewrite firstn_app, Nat.sub_diag, firstn_all, firstn_O, app_nil_r.
  rewrite skipn_app, Nat.sub_diag, skipn_all. reflexivity.
Qed.

Lemma rows_concat {A} c (rs : list (list A)) :
  Forall (fun r => length r = c) rs -> rows (length rs) c (concat rs) = rs.
Proof.
  induction 1 as [|r rs Hr _ IH]; [reflexivity|].
  change (concat (r :: rs)) with (r ++ concat rs).
  change (length (r :: rs)) with (S (length rs)).
  rewrite rows_app by assumption. now rewrite IH.
Qed.

Lemma rows_widths {A} n c (l : list A) :
  length l = n * c -> Forall (fun r => length r = c) (rows n c l).
Proof.
  revert l; induction n as [|n IH]; intros l Hl; simpl; constructor.
  - rewrite length_firstn. simpl in Hl. lia.
  - apply IH. rewrite length_skipn. simpl in Hl. lia.
Qed.

Lemma concat_rows {A} n c (l : list A) :
  length l = n * c -> concat (rows n c l) = l.
Proof.
  revert l; induction n as [|n IH]; intros l Hl; simpl in *.
  - destruct l; [reflexivity | discriminate].
  - rewrite IH by (rewrite length_skipn; lia). apply firstn_skipn.
Qed.

Lemma rows_repeat {A} n c (a : A) :
  rows n c (repeat a (n * c)) = repeat (repeat a c) n.
Proof.
  induction n as [|n IH]; [reflexivity|].
  change (S n * c) with (c + n * c). rewrite repeat_app.
  rewrite rows_app by apply repeat_length. simpl. now rewrite IH.
Qed.

Lemma Rsum_app l1 l2 : Rsum (l1 ++ l2) = (Rsum l1 + Rsum l2)%R.
Proof.
  unfold Rsum. induction l1 as [|a l1 IH]; simpl; [lra|]. rewrite IH. lra.
Qed.

Lemma Rsum_zeros l : Forall (fun a => a = 0%R) l -> Rsum l = 0%R.
Proof.
  unfold Rsum. induction 1 as [|a l Ha _ IH]; simpl; [reflexivity|]. rewrite IH, Ha. lra.
Qed.

Lemma Rsum_permutation l1 l2 : Permutation l1 l2 -> Rsum l1 = Rsum l2.
Proof.
  unfold Rsum. induction 1; simpl; lra.
Qed.

Lemma Rsum_concat ls : Rsum (concat ls) = Rsum (map Rsum ls).
Proof.
  induction ls as [|l ls IH]; [reflexivity|].
  simpl concat. rewrite Rsum_app, IH. reflexivity.
Qed.

(** ** Broadcasting *)

Lemma broadcast_same_length {A B C} (f : A -> B -> C) l1 l2 :
  length l1 = length l2 -> broadcast f l1 l2 = Ok (zip_with f l1 l2).
Proof.
  intros H. unfold broadcast.
  destruct l1 as [|a [|a' l1]], l2 as [|b [|b' l2]]; simpl in *; try discriminate; try reflexivity.
  injection H as H. rewrite H, Nat.eqb_refl. reflexivity.
Qed.

Lemma map_mult_zeros a l :
  Forall (fun v => v = 0%R) l -> Forall (fun v => v = 0%R) (map (Rmult a) l).
Proof.
  induction 1 as [|b l Hb _ IH]; simpl; constructor; [subst; lra | exact IH].
Qed.

Lemma map_zero_mult l : Forall (fun v => v = 0%R) (map (fun a => (a * 0)%R) l).
Proof.
  induction l as [|c l IH]; simpl; [constructor | constructor; [lra | exact IH]].
Qed.

Lemma zip_mult_zeros l1 l2 :
  Forall (fun v => v = 0%R) l2 -> Forall (fun v => v = 0%R) (zip_with Rmult l1 l2).
Proof.
  intros Hz; revert l1.
  induction Hz as [|b l2 Hb _ IH]; intros [|a l1]; simpl; constructor; [subst; lra | apply IH].
Qed.

Lemma broadcast_zero_right l1 l2 d :
  broadcast Rmult l1 l2 = Ok d ->
  Forall (fun a => a = 0%R) l2 -> Forall (fun a => a = 0%R) d.
Proof.
  intros Hb Hz. unfold broadcast in Hb.
  destruct l1 as [|a [|a' l1]].
  - destruct l2 as [|b [|b' l2]]; simpl in Hb; try discriminate; inversion Hb; subst; constructor.
  - inversion Hb; subst. now apply map_mult_zeros.
  - destruct l2 as [|b [|b' l2]].
    + simpl in Hb. discriminate.
    + injection Hb as <-. inversion Hz; subst.
      apply (map_zero_mult (a :: a' :: l1)).
    + destruct (length (a :: a' :: l1) =? length (b :: b' :: l2)); [|discriminate].
      injection Hb as <-. exact (zip_mult_zeros (a :: a' :: l1) (b :: b' :: l2) Hz).
Qed.

Lemma rows_map {A B} (f : A -> B) n c l :
  rows n c (map f l) = map (map f) (rows n c l).
Proof.
  revert l; induction n as [|n IH]; intros l; simpl; [reflexivity|].
  now rewrite firstn_map, skipn_map, IH.
Qed.

Lemma rbind_ok {A B} (r : result A) (k : A -> result B) b :
  rbind r k = Ok b -> exists a, r = Ok a /\ k a = Ok b.
Proof. destruct r as [a|e]; simpl; [eauto | discriminate]. Qed.

Lemma sequence_zip_broadcast (rs1 rs2 : list (list R)) c :
  Forall (fun r => length r = c) rs1 -> Forall (fun r => length r = c) rs2 ->
  sequence (zip_with (broadcast Rmult) rs1 rs2) = Ok (zip_with (zip_with Rmult) rs1 rs2).
Proof.
  intros H1; revert rs2.
  induction H1 as [|r1 rs1 Hr1 _ IH]; intros rs2 H2; [reflexivity|].
  destruct H2 as [|r2 rs2 Hr2 H2]; [reflexivity|].
  simpl. rewrite broadcast_same_length by congruence. simpl.
  rewrite IH by assumption. reflexivity.
Qed.

Lemma zip_with_widths {A B C} (f : A -> B -> C) rs1 rs2 c :
  Forall (fun r => length r = c) rs1 -> Forall (fun r => length r = c) rs2 ->
  Forall (fun r => length r = c) (zip_with (zip_with f) rs1 rs2).
Proof.
  intros H1; revert rs2.
  induction H1 as [|r1 rs1 Hr1 _ IH]; intros rs2 H2; [constructor|].
  destruct H2 as [|r2 rs2 Hr2 H2]; [constructor|].
  simpl. constructor; [|now apply IH].
  rewrite length_zip_with. lia.
Qed.

Lemma scatter_rows_one_hot V dx :
  Forall (in_vocab V) dx ->
  scatter_rows V (repeat (repeat 0%R V) (length dx)) dx 1%R = Ok (map (one_hot V) dx).
Proof.
  induction 1 as [|tok dx Htok _ IH]; [reflexivity|].
  simpl. destruct Htok as [H0 H1].
  apply Z.leb_le in H0. apply Z.ltb_lt in H1. rewrite H0, H1. simpl.
  rewrite IH. reflexivity.
Qed.

Lemma Rsum_zip_zeros n row : Rsum (zip_with Rmult (repeat 0%R n) row) = 0%R.
Proof.
  revert row; induction n as [|n IH]; intros [|a row]; simpl; try reflexivity.
  unfold Rsum in *. simpl. rewrite IH. lra.
Qed.

Lemma Rsum_one_hot row k n :
  k < length row -> length row <= n ->
  Rsum (zip_with Rmult (set_nth k 1%R (repeat 0%R n)) row) = nth k row 0%R.
Proof.
  revert k n; induction row as [|a row IH]; intros k n Hk Hn; simpl in *; [lia|].
  destruct n as [|n]; [lia|]. destruct k as [|k]; simpl.
  - change (Rsum (1 * a :: zip_with Rmult (repeat 0 n) row) = a)%R.
    unfold Rsum; simpl. fold (Rsum (zip_with Rmult (repeat 0%R n) row)).
    rewrite Rsum_zip_zeros. lra.
  - unfold Rsum; simpl. fold (Rsum (zip_with Rmult (set_nth k 1%R (repeat 0%R n)) row)).
    rewrite IH by lia. lra.
Qed.

Lemma one_hot_width V tok : length (one_hot V tok) = V.
Proof. unfold one_hot. now rewrite length_set_nth, repeat_length. Qed.

Lemma one_hot_rows_sum V (dx : list Z) (logs : list (list R)) :
  Forall (in_vocab V) dx -> Forall (fun r => length r = V) logs ->
  map Rsum (zip_with (zip_with Rmult) (map (one_hot V) dx) logs)
  = zip_with (fun row tok => nth (Z.to_nat tok) row 0%R) logs dx.
Proof.
  intros Hx; revert logs.
  induction Hx as [|tok dx Htok _ IH]; intros logs Hl.
  - destruct logs; reflexivity.
  - destruct Hl as [|row logs Hrow Hl]; [reflexivity|].
    simpl. rewrite IH by assumption. f_equal.
    unfold one_hot. apply Rsum_one_hot; [|lia].
    destruct Htok. lia.
Qed.

Lemma zip_with_map_l {A A' B C} (f : A' -> B -> C) (g : A -> A') l1 l2 :
  zip_with f (map g l1) l2 = zip_with (fun a b => f (g a) b) l1 l2.
Proof.
  revert l2; induction l1 as [|a l1 IH]; intros [|b l2]; simpl; auto. now rewrite IH.
Qed.

Lemma nth_map_in {A B} (f : A -> B) l k da db :
  k < length l -> nth k (map f l) db = f (nth k l da).
Proof.
  intros Hk. rewrite (nth_indep _ db (f da)) by now rewrite length_map.
  apply map_nth.
Qed.

Lemma zip_with_ext_in {A B C} (f g : A -> B -> C) l1 l2 :
  (forall a b, In a l1 -> In b l2 -> f a b = g a b) ->
  zip_with f l1 l2 = zip_with g l1 l2.
Proof.
  revert l2; induction l1 as [|a l1 IH]; intros [|b l2] H; simpl; auto.
  rewrite H by (now left). rewrite IH; [reflexivity|].
  intros; apply H; now right.
Qed.

Lemma loss_well_shaped V sp sx sr dp dx dr :
  V <> 0 ->
  length dp = length dx * V ->
  length dr = length dx ->
  Forall (in_vocab V) dx ->
  GeneratorLoss_forward V (Tensor sp dp) (Tensor sx dx) (Tensor sr dr)
  = Ok (Rsum (loss_terms V dp dx dr)).
Proof.
  intros HV Hp Hr Hx.
  set (N := length dx) in *.
  unfold GeneratorLoss_forward, view_rows, numel. simpl data.
  rewrite Nat.mod_1_r, Nat.div_1_r. simpl (1 =? 0). simpl (0 =? 0). cbv iota.
  apply Nat.eqb_neq in HV as HV'. rewrite HV'.
  rewrite Hp, Nat.Div0.mod_mul, Nat.div_mul by assumption.
  simpl. unfold createOneHotDummy, zeros, scatter_. simpl.
  rewrite rows_repeat. fold N. unfold N at 1. rewrite scatter_rows_one_hot by assumption.
  simpl. unfold mul at 1. simpl.
  assert (Hoh : Forall (fun r => length r = V) (map (one_hot V) dx)).
  { apply Forall_forall. intros r Hr'. apply in_map_iff in Hr' as (t & <- & _).
    apply one_hot_width. }
  assert (HN : length (map (one_hot V) dx) = N) by apply length_map.
  rewrite <- HN at 1. rewrite rows_concat by assumption.
  set (logs := rows N V (map ln (map (fun v => Rmin (Rmax v CLAMP_MIN) 1) dp))).
  assert (Hlogs : Forall (fun r => length r = V) logs).
  { apply rows_widths. now rewrite !length_map. }
  rewrite broadcast_same_length by (unfold logs; now rewrite length_rows).
  simpl. rewrite (sequence_zip_broadcast _ _ V Hoh Hlogs). simpl.
  unfold sum_dim1. simpl.
  assert (Hw := zip_with_widths Rmult _ _ V Hoh Hlogs).
  assert (Hc : (if V =? 1 then V else V) = V) by now destruct (V =? 1).
  rewrite Hc. rewrite rows_concat by assumption.
  unfold mul, view_flat. simpl.
  rewrite one_hot_rows_sum by assumption.
  rewrite broadcast_same_length.
  2:{ rewrite length_zip_with. unfold logs. rewrite length_rows. fold N. unfold numel; simpl. lia. }
  simpl. unfold sum. simpl. do 2 f_equal.
  unfold loss_terms. f_equal. fold N.
  unfold logs. rewrite map_map, rows_map, zip_with_map_l.
  apply zip_with_ext_in. intros row tok Hrow Htok.
  unfold pick, clamp1.
  assert (Hrl : length row = V).
  { pose proof (rows_widths N V dp Hp) as Hall.
    rewrite Forall_forall in Hall. now apply Hall. }
  rewrite Forall_forall in Hx. destruct (Hx _ Htok).
  rewrite (nth_map_in _ row (Z.to_nat tok) 0%R 0%R) by lia. reflexivity.
Qed.

Lemma loss_zero_rewards V prediction x rewards v :
  Forall (fun a => a = 0%R) (data rewards) ->
  GeneratorLoss_forward V prediction x rewards = Ok v -> v = 0%R.
Proof.
  intros Hz H. unfold GeneratorLoss_forward in H.
  do 5 (apply rbind_ok in H as (? & _ & H)).
  apply rbind_ok in H as (prod & _ & H).
  apply rbind_ok in H as (reduced & Hred & H).
  apply rbind_ok in H as (rp & Hmul & H).
  injection H as <-.
  unfold sum_dim1 in Hred.
  destruct (shape prod) as [|n [|c [|]]]; try discriminate.
  injection Hred as <-.
  unfold mul, view_flat in Hmul. simpl in Hmul.
  apply rbind_ok in Hmul as (d & Hd & Hrp). injection Hrp as <-.
  unfold sum. simpl. apply Rsum_zeros. eapply broadcast_zero_right; eassumption.
Qed.

Lemma scatter_rows_bad_token V dx :
  ~ Forall (in_vocab V) dx ->
  scatter_rows V (repeat (repeat 0%R V) (length dx)) dx 1%R = Raise RuntimeError.
Proof.
  induction dx as [|tok dx IH]; intros Hbad.
  - exfalso. apply Hbad. constructor.
  - simpl.
    destruct ((0 <=? tok)%Z && (tok <? Z.of_nat V)%Z)%bool eqn:E; [|reflexivity].
    rewrite IH; [reflexivity|].
    intros Hall. apply Hbad. constructor; [|assumption].
    apply andb_true_iff in E as [E0 E1].
    apply Z.leb_le in E0. apply Z.ltb_lt in E1. split; assumption.
Qed.

Lemma loss_bad_token V sp sx sr dp dx dr :
  V <> 0 ->
  length dp = length dx * V ->
  ~ Forall (in_vocab V) dx ->
  GeneratorLoss_forward V (Tensor sp dp) (Tensor sx dx) (Tensor sr dr) = Raise RuntimeError.
Proof.
  intros HV Hp Hx.
  unfold GeneratorLoss_forward, view_rows, numel. simpl data.
  rewrite Nat.mod_1_r, Nat.div_1_r. simpl (1 =? 0). simpl (0 =? 0). cbv iota.
  apply Nat.eqb_neq in HV as HV'. rewrite HV'.
  rewrite Hp, Nat.Div0.mod_mul, Nat.div_mul by assumption.
  simpl. unfold createOneHotDummy, zeros, scatter_. simpl.
  rewrite rows_repeat, scatter_rows_bad_token by assumption. reflexivity.
Qed.

Lemma loss_empty_vocabulary prediction x rewards :
  GeneratorLoss_forward 0 prediction x rewards = Raise RuntimeError.
Proof.
  unfold GeneratorLoss_forward, view_rows. rewrite Nat.mod_1_r. reflexivity.
Qed.

Lemma in_vocab_dec V tok : {in_vocab V tok} + {~ in_vocab V tok}.
Proof.
  unfold in_vocab.
  destruct (Z_le_dec 0 tok); [|right; lia].
  destruct (Z_lt_dec tok (Z.of_nat V)); [left; lia | right; lia].
Qed.

Lemma rows_app_blocks {A} n1 n2 c (l1 l2 : list A) :
  length l1 = n1 * c -> rows (n1 + n2) c (l1 ++ l2) = rows n1 c l1 ++ rows n2 c l2.
Proof.
  revert l1; induction n1 as [|n1 IH]; intros l1 Hl; simpl in *.
  - destruct l1; [reflexivity | discriminate].
  - rewrite <- (firstn_skipn c l1) at 1 2. rewrite <- app_assoc.
    assert (Hf : length (firstn c l1) = c) by (rewrite length_firstn; lia).
    rewrite firstn_app, Hf, Nat.sub_diag, firstn_O, app_nil_r.
    rewrite firstn_all2 by (rewrite Hf; lia).
    rewrite skipn_app, Hf, Nat.sub_diag. simpl skipn at 2.
    rewrite skipn_all2 by (rewrite Hf; lia). simpl app at 1.
    rewrite IH by (rewrite length_skipn; lia). reflexivity.
Qed.

Lemma zip_with_app {A B C} (f : A -> B -> C) l1 l1' l2 l2' :
  length l1 = length l2 ->
  zip_with f (l1 ++ l1') (l2 ++ l2') = zip_with f l1 l2 ++ zip_with f l1' l2'.
Proof.
  revert l2; induction l1 as [|a l1 IH]; intros [|b l2] H; simpl in *; try discriminate.
  - reflexivity.
  - rewrite IH by lia. reflexivity.
Qed.

Lemma loss_terms_app V p1 p2 x1 x2 r1 r2 :
  length p1 = length x1 * V -> length r1 = length x1 ->
  loss_terms V (p1 ++ p2) (x1 ++ x2) (r1 ++ r2)
  = loss_terms V p1 x1 r1 ++ loss_terms V p2 x2 r2.
Proof.
  intros Hp Hr. unfold loss_terms.
  rewrite length_app, rows_app_blocks by assumption.
  rewrite zip_with_app by apply length_rows.
  rewrite zip_with_app; [reflexivity|].
  rewrite length_zip_with, length_rows. lia.
Qed.

Lemma loss_terms_blocks V (ts : list block) :
  Forall (block_sized V) ts ->
  loss_terms V (concat (map block_p ts)) (concat (map block_x ts)) (concat (map block_r ts))
  = concat (map (fun t => loss_terms V (block_p t) (block_x t) (block_r t)) ts).
Proof.
  induction 1 as [|t ts [Hp Hr] _ IH]; [reflexivity|].
  simpl. rewrite loss_terms_app by assumption. now rewrite IH.
Qed.

Lemma Permutation_concat_map {A B} (f : A -> list B) l l' :
  Permutation l l' -> Permutation (concat (map f l)) (concat (map f l')).
Proof.
  induction 1 as [| a l l' _ IH | a b l | l l' l'' _ IH1 _ IH2]; simpl.
  - constructor.
  - now apply Permutation_app_head.
  - rewrite !app_assoc. apply Permutation_app_tail, Permutation_app_comm.
  - now transitivity (concat (map f l')).
Qed.

Lemma map_nth_seq {A} (l : list A) d :
  map (fun i => nth i l d) (seq 0 (length l)) = l.
Proof.
  induction l as [|a l IH]; [reflexivity|].
  simpl. f_equal. rewrite <- seq_shift, map_map. exact IH.
Qed.

Lemma nth_rows_length {A} n c (l : list A) b :
  length l = n * c -> b < n -> length (nth b (rows n c l) []) = c.
Proof.
  intros Hl Hb. pose proof (rows_widths n c l Hl) as Hall.
  rewrite Forall_forall in Hall. apply Hall. apply nth_In. now rewrite length_rows.
Qed.

Lemma length_concat_const {A} c (ls : list (list A)) :
  Forall (fun l => length l = c) ls -> length (concat ls) = length ls * c.
Proof.
  induction 1 as [|l ls Hl _ IH]; [reflexivity|].
  simpl. rewrite length_app, IH, Hl. reflexivity.
Qed.

Lemma batch_block_sized B S V dp dx dr b :
  length dp = B * (S * V) -> length dx = B * S -> length dr = B * S -> b < B ->
  block_sized V (batch_block B S V dp dx dr b).
Proof.
  intros Hp Hx Hr Hb. unfold block_sized, batch_block, block_p, block_x, block_r. simpl.
  rewrite !nth_rows_length by assumption. split; reflexivity.
Qed.

Lemma selection_length {A} B c (l : list A) sel :
  length l = B * c -> Forall (fun b => b < B) sel ->
  length (concat (map (fun b => nth b (rows B c l) []) sel)) = length sel * c.
Proof.
  intros Hl Hsel.
  rewrite (length_concat_const c), length_map; [reflexivity|].
  apply Forall_forall. intros r Hr. apply in_map_iff in Hr as (b & <- & Hb).
  rewrite Forall_forall in Hsel. apply nth_rows_length; auto.
Qed.

(** The loss of the batch entries [sel], taken in that order. *)
Lemma loss_of_selection V B S sp sx sr dp dx dr sel :
  V <> 0 ->
  length dp = B * (S * V) -> length dx = B * S -> length dr = B * S ->
  Forall (fun b => b < B) sel ->
  let dp' := concat (map (fun b => nth b (rows B (S * V) dp) []) sel) in
  let dx' := concat (map (fun b => nth b (rows B S dx) []) sel) in
  let dr' := concat (map (fun b => nth b (rows B S dr) []) sel) in
  GeneratorLoss_forward V (Tensor sp dp') (Tensor sx dx') (Tensor sr dr')
  = if Forall_dec (in_vocab V) (in_vocab_dec V) dx'
    then Ok (Rsum (concat (map (fun b => block_terms V (batch_block B S V dp dx dr b)) sel)))
    else Raise RuntimeError.
Proof.
  intros HV Hp Hx Hr Hsel dp' dx' dr'.
  assert (Lp : length dp' = length dx' * V).
  { unfold dp', dx'. rewrite !selection_length by assumption. lia. }
  assert (Lr : length dr' = length dx').
  { unfold dr', dx'. rewrite !selection_length by assumption. lia. }
  destruct (Forall_dec (in_vocab V) (in_vocab_dec V) dx') as [Hall | Hbad].
  - rewrite loss_well_shaped by assumption. do 2 f_equal.
    pose (ts := map (batch_block B S V dp dx dr) sel).
    assert (Hts : Forall (block_sized V) ts).
    { apply Forall_forall. intros t Ht. apply in_map_iff in Ht as (b & <- & Hb).
      rewrite Forall_forall in Hsel. apply batch_block_sized; auto. }
    pose proof (loss_terms_blocks V ts Hts) as E.
    unfold ts in E. rewrite !map_map in E. exact E.
  - apply loss_bad_token; assumption.
Qed.

Lemma Forall_permutation {A} (P : A -> Prop) l l' :
  Permutation l l' -> Forall P l -> Forall P l'.
Proof.
  intros Hp Hl. rewrite Forall_forall in *. intros a Ha.
  apply Hl. apply Permutation_in with l'; [now apply Permutation_sym | assumption].
Qed.

Lemma selection_all {A} B c (l : list A) :
  length l = B * c -> concat (map (fun b => nth b (rows B c l) []) (seq 0 B)) = l.
Proof.
  intros Hl.
  pose proof (map_nth_seq (rows B c l) []) as E. rewrite length_rows in E.
  rewrite E. now apply concat_rows.
Qed.

Lemma seq_bounded B : Forall (fun b => b < B) (seq 0 B).
Proof. apply Forall_forall. intros b Hb. apply in_seq in Hb. lia. Qed.

(** In exact arithmetic the order of the batch is immaterial. *)
Lemma loss_of_permuted_batch
  V B S sigma (prediction : tensor R) (x : tensor Z) (rewards : tensor R) :
  shape prediction = [B; S; V] -> wf prediction ->
  shape x = [B; S] -> wf x ->
  shape rewards = [B; S] -> wf rewards ->
  Permutation sigma (seq 0 B) ->
  GeneratorLoss_forward V (permute_batch sigma prediction) (permute_batch sigma x)
                        (permute_batch sigma rewards)
  = GeneratorLoss_forward V prediction x rewards.
Proof.
  destruct prediction as [sp dp], x as [sx dx], rewards as [sr dr].
  unfold wf; simpl. intros -> Hp -> Hx -> Hr Hperm.
  simpl in Hp, Hx, Hr. rewrite Nat.mul_1_r in *.
  destruct (Nat.eq_dec V 0) as [-> | HV].
  { now rewrite !loss_empty_vocabulary. }
  assert (Hsig : Forall (fun b => b < B) sigma).
  { apply Forall_permutation with (seq 0 B); [now apply Permutation_sym | apply seq_bounded]. }
  unfold permute_batch. simpl. rewrite !Nat.mul_1_r.
  rewrite (loss_of_selection V B S) by assumption.
  pose proof (loss_of_selection V B S [B; S; V] [B; S] [B; S] dp dx dr (seq 0 B)
                HV Hp Hx Hr (seq_bounded B)) as E.
  cbv zeta in E. rewrite !selection_all in E by assumption. rewrite E. clear E.
  set (f := fun b => nth b (rows B S dx) []).
  assert (Hdx : concat (map f (seq 0 B)) = dx) by (apply selection_all; assumption).
  assert (Hpx : Permutation (concat (map f sigma)) dx).
  { apply Permutation_trans with (concat (map f (seq 0 B))).
    - now apply Permutation_concat_map.
    - rewrite Hdx. apply Permutation_refl. }
  destruct (Forall_dec (in_vocab V) (in_vocab_dec V) (concat (map f sigma))) as [H1 | H1];
    destruct (Forall_dec (in_vocab V) (in_vocab_dec V) dx) as [H2 | H2].
  - f_equal. rewrite !Rsum_concat. apply Rsum_permutation.
    do 2 apply Permutation_map. exact Hperm.
  - exfalso. apply H2. now apply Forall_permutation with (concat (map f sigma)).
  - exfalso. apply H1. apply Forall_permutation with dx; [now apply Permutation_sym | assumption].
  - reflexivity.
Qed.

(** ** Single precision: rounding to the nearest number *)

Lemma pow2_pos e : (0 < powerRZ 2 e)%R.
Proof. apply powerRZ_lt. lra. Qed.

Lemma pow2_IZR k : (0 <= k)%Z -> powerRZ 2 k = IZR (2 ^ k).
Proof.
  intros Hk. destruct k as [|p|p]; [reflexivity | | lia].
  symmetry. exact (Zpower_pos_powerRZ 2 p).
Qed.

Lemma pow2_le e e' : (e <= e')%Z -> (powerRZ 2 e <= powerRZ 2 e')%R.
Proof.
  intros H. replace e' with (e + (e' - e))%Z by lia.
  rewrite powerRZ_add by lra.
  rewrite (pow2_IZR (e' - e)) by lia.
  assert (H1 : (1 <= 2 ^ (e' - e))%Z).
  { assert (0 < 2 ^ (e' - e))%Z by (apply Z.pow_pos_nonneg; lia). lia. }
  apply IZR_le in H1. pose proof (pow2_pos e). nra.
Qed.

Lemma binade_unique e e' y : Single.in_binade e y -> Single.in_binade e' y -> e = e'.
Proof.
  unfold Single.in_binade. intros [H1 H2] [H3 H4].
  destruct (Z_lt_le_dec e e') as [Hlt|Hle].
  - pose proof (pow2_le (e + 24) (e' + 23) ltac:(lia)). lra.
  - destruct (Z_lt_le_dec e' e) as [Hlt|Hle']; [|lia].
    pose proof (pow2_le (e' + 24) (e + 23) ltac:(lia)). lra.
Qed.

Lemma exponent_of e y : Single.in_binade e y -> Single.exponent y = e.
Proof.
  intros H. unfold Single.exponent.
  destruct (excluded_middle_informative (exists e0, Single.in_binade e0 y)) as [pr|no].
  - destruct (constructive_indefinite_description _ pr) as [e' He']. simpl.
    exact (binade_unique _ _ _ He' H).
  - exfalso. apply no. now exists e.
Qed.

Lemma Int_part_of k z : (IZR k <= z < IZR k + 1)%R -> Int_part z = k.
Proof. intros H. symmetry. apply Int_part_spec. lra. Qed.

Lemma nearest_near z k : (Rabs (z - IZR k) < / 2)%R -> Single.nearest_even z = k.
Proof.
  intros H. apply Rabs_def2 in H as [H1 H2]. unfold Single.nearest_even.
  destruct (Rle_lt_dec (IZR k) z) as [Hge|Hlt].
  - rewrite (Int_part_of k z) by lra.
    destruct (Rlt_dec (z - IZR k) (/ 2)); [reflexivity | lra].
  - rewrite (Int_part_of (k - 1) z) by (rewrite minus_IZR; lra).
    rewrite minus_IZR.
    destruct (Rlt_dec (z - (IZR k - 1)) (/ 2)); [lra|].
    destruct (Rlt_dec (/ 2) (z - (IZR k - 1))); [lia | lra].
Qed.

Lemma nearest_error z : (- / 2 <= IZR (Single.nearest_even z) - z <= / 2)%R.
Proof.
  unfold Single.nearest_even. destruct (base_Int_part z) as [H1 H2].
  set (f := Int_part z) in *.
  destruct (Rlt_dec (z - IZR f) (/ 2)).
  - lra.
  - destruct (Rlt_dec (/ 2) (z - IZR f)).
    + rewrite plus_IZR. lra.
    + destruct (Z.even f); [|rewrite plus_IZR]; lra.
Qed.

Lemma round_0 : Single.round 0 = 0%R.
Proof.
  unfold Single.round. unfold Rdiv. rewrite Rmult_0_l.
  rewrite (nearest_near 0 0); [lra|].
  rewrite Rminus_diag, Rabs_R0. lra.
Qed.

Lemma round_binade e y :
  Single.in_binade e y -> Single.round y = (IZR (Single.nearest_even (y / powerRZ 2 e)) * powerRZ 2 e)%R.
Proof. intros H. unfold Single.round. now rewrite (exponent_of e y H). Qed.

Lemma binade_of_mantissa e (z : R) :
  (IZR (2 ^ 23) <= Rabs z < IZR (2 ^ 24))%R -> Single.in_binade e (z * powerRZ 2 e).
Proof.
  intros [H1 H2]. unfold Single.in_binade.
  rewrite Rabs_mult, (Rabs_pos_eq (powerRZ 2 e)) by (left; apply pow2_pos).
  rewrite !(Z.add_comm e), !powerRZ_add by lra.
  rewrite (pow2_IZR 23), (pow2_IZR 24) by lia.
  pose proof (pow2_pos e). split; nra.
Qed.

Lemma round_representable r : representable r -> Single.round r = r.
Proof.
  intros (m & e & Hm & ->).
  assert (Hb : Single.in_binade e (IZR m * powerRZ 2 e)).
  { apply binade_of_mantissa. rewrite Rabs_Zabs. split; [apply IZR_le | apply IZR_lt]; lia. }
  rewrite (round_binade e _ Hb). do 2 f_equal.
  apply nearest_near. pose proof (pow2_pos e).
  replace (IZR m * powerRZ 2 e / powerRZ 2 e - IZR m)%R with 0%R by (field; lra).
  rewrite Rabs_R0. lra.
Qed.

Lemma representable_scale r k : representable r -> representable (r * powerRZ 2 k).
Proof.
  intros (m & e & Hm & ->). exists m, (e + k)%Z. split; [exact Hm|].
  rewrite powerRZ_add by lra. ring.
Qed.

Lemma representable_opp r : representable r -> representable (- r).
Proof.
  intros (m & e & Hm & ->). exists (- m)%Z, e. split; [lia|].
  rewrite opp_IZR. ring.
Qed.

(** A number 2^30 times smaller than the accumulator is lost when added. *)
Lemma round_absorbs m e :
  (2 ^ 23 <= Z.abs m < 2 ^ 24)%Z ->
  Single.round (IZR m * powerRZ 2 e * powerRZ 2 30 + IZR m * powerRZ 2 e)
  = (IZR m * powerRZ 2 e * powerRZ 2 30)%R.
Proof.
  intros Hm. rewrite (pow2_IZR 30) by lia.
  pose proof (pow2_pos e) as He. pose proof (pow2_pos (e + 30)) as He'.
  assert (E30 : powerRZ 2 (e + 30) = (powerRZ 2 e * IZR (2 ^ 30))%R).
  { rewrite powerRZ_add by lra. now rewrite (pow2_IZR 30) by lia. }
  assert (Hy : (IZR m * powerRZ 2 e * IZR (2 ^ 30) + IZR m * powerRZ 2 e
                = (IZR m + IZR m / IZR (2 ^ 30)) * powerRZ 2 (e + 30))%R).
  { rewrite E30. field. apply not_0_IZR. lia. }
  rewrite Hy.
  assert (Hm1 : (IZR (2 ^ 23) <= Rabs (IZR m))%R) by (rewrite Rabs_Zabs; apply IZR_le; lia).
  assert (Hm2 : (Rabs (IZR m) <= IZR (2 ^ 24) - 1)%R).
  { rewrite Rabs_Zabs, <- minus_IZR. apply IZR_le. lia. }
  assert (Hq : (Rabs (IZR m / IZR (2 ^ 30)) = Rabs (IZR m) / IZR (2 ^ 30))%R).
  { unfold Rdiv. rewrite Rabs_mult, Rabs_inv. f_equal. f_equal.
    apply Rabs_pos_eq. apply IZR_le. lia. }
  assert (Hsame : (Rabs (IZR m + IZR m / IZR (2 ^ 30))
                   = Rabs (IZR m) + Rabs (IZR m) / IZR (2 ^ 30))%R).
  { rewrite <- Hq. unfold Rabs at 1 2 3.
    change (IZR (2 ^ 30)) with 1073741824%R in *.
    repeat destruct Rcase_abs; try lra. }
  assert (Hb : Single.in_binade (e + 30) ((IZR m + IZR m / IZR (2 ^ 30)) * powerRZ 2 (e + 30))).
  { apply binade_of_mantissa. rewrite Hsame.
    change (IZR (2 ^ 30)) with 1073741824%R in *.
    change (IZR (2 ^ 23)) with 8388608%R in *.
    change (IZR (2 ^ 24)) with 16777216%R in *.
    split; lra. }
  rewrite (round_binade _ _ Hb).
  rewrite (nearest_near _ m).
  - rewrite E30. ring.
  - replace ((IZR m + IZR m / IZR (2 ^ 30)) * powerRZ 2 (e + 30) / powerRZ 2 (e + 30) - IZR m)%R
      with (IZR m / IZR (2 ^ 30))%R by (field; lra).
    rewrite Hq.
    change (IZR (2 ^ 30)) with 1073741824%R in *.
    change (IZR (2 ^ 24)) with 16777216%R in *.
    lra.
Qed.

Lemma nearest_bounds z a b :
  (IZR a <= z <= IZR b)%R -> (a <= Single.nearest_even z <= b)%Z.
Proof.
  intros [H1 H2]. destruct (nearest_error z) as [H3 H4].
  split.
  - assert (Hlt : (IZR (a - 1) < IZR (Single.nearest_even z))%R) by (rewrite minus_IZR; lra).
    apply lt_IZR in Hlt. lia.
  - assert (Hlt : (IZR (Single.nearest_even z) < IZR (b + 1))%R) by (rewrite plus_IZR; lra).
    apply lt_IZR in Hlt. lia.
Qed.

Lemma ln_2_bounds : (/ 2 < ln 2 <= 3 / 4)%R.
Proof.
  split; [exact ln_lt_2|].
  assert (Ha : (1 + 3 / 32 < exp (3 / 32))%R) by (apply exp_ineq1; lra).
  assert (E1 : exp (3 / 16) = (exp (3 / 32) * exp (3 / 32))%R).
  { rewrite <- exp_plus. f_equal. lra. }
  assert (E2 : exp (3 / 8) = (exp (3 / 16) * exp (3 / 16))%R).
  { rewrite <- exp_plus. f_equal. lra. }
  assert (E3 : exp (3 / 4) = (exp (3 / 8) * exp (3 / 8))%R).
  { rewrite <- exp_plus. f_equal. lra. }
  assert (H1 : (1 + 3 / 16 < exp (3 / 16))%R) by (rewrite E1; nra).
  assert (H2 : (141 / 100 < exp (3 / 8))%R) by (rewrite E2; nra).
  assert (H3 : (2 < exp (3 / 4))%R) by (rewrite E3; nra).
  rewrite <- (ln_exp (3 / 4)). left. apply ln_increasing; lra.
Qed.

(** The logarithm of one half, in single precision. *)
Lemma log_half :
  exists m, (2 ^ 23 <= Z.abs m < 2 ^ 24)%Z /\ Single.round (ln (/ 2)) = (IZR m * powerRZ 2 (-24))%R.
Proof.
  destruct ln_2_bounds as [Hlo Hhi].
  rewrite ln_Rinv by lra.
  assert (P24 : powerRZ 2 (-24) = (/ 16777216)%R).
  { change (-24)%Z with (- (24))%Z. rewrite powerRZ_neg', (pow2_IZR 24) by lia. reflexivity. }
  assert (Hb : Single.in_binade (-24) (- ln 2)).
  { unfold Single.in_binade. rewrite Rabs_Ropp, Rabs_pos_eq by lra.
    change (-24 + 23)%Z with (- (1))%Z. change (-24 + 24)%Z with 0%Z.
    rewrite powerRZ_neg', powerRZ_1. simpl. lra. }
  rewrite (round_binade _ _ Hb), P24.
  set (m := Single.nearest_even (- ln 2 / / 16777216)).
  exists m. split; [|reflexivity].
  assert (Hm : (- (12582912) <= m <= - (8388608))%Z).
  { apply nearest_bounds. rewrite !opp_IZR. split; unfold Rdiv; rewrite Rinv_inv; lra. }
  change (2 ^ 23)%Z with 8388608%Z. change (2 ^ 24)%Z with 16777216%Z. lia.
Qed.

Lemma clamp_floor : (0 < Single.round CLAMP_MIN <= / 2)%R.
Proof.
  assert (P : powerRZ 2 (-90) = (/ IZR (2 ^ 90))%R).
  { change (-90)%Z with (- (90))%Z. rewrite powerRZ_neg', (pow2_IZR 90) by lia. reflexivity. }
  assert (Hb : Single.in_binade (-90) CLAMP_MIN).
  { unfold Single.in_binade, CLAMP_MIN. rewrite Rabs_pos_eq by lra.
    change (-90 + 23)%Z with (- (67))%Z. change (-90 + 24)%Z with (- (66))%Z.
    rewrite !powerRZ_neg', (pow2_IZR 67), (pow2_IZR 66) by lia.
    split.
    - apply Rinv_le_contravar; [lra|]. apply IZR_le. vm_compute. discriminate.
    - apply Rinv_lt_contravar; [apply Rmult_lt_0_compat; [apply IZR_lt; reflexivity | lra]|].
      apply IZR_lt. reflexivity. }
  rewrite (round_binade _ _ Hb).
  set (m := Single.nearest_even (CLAMP_MIN / powerRZ 2 (-90))).
  assert (Hm : (2 ^ 23 <= m <= 2 ^ 24)%Z).
  { apply nearest_bounds. destruct Hb as [H1 H2]. unfold CLAMP_MIN in *.
    rewrite Rabs_pos_eq in H1, H2 by lra.
    change (-90 + 23)%Z with (-90 + 23)%Z in H1.
    rewrite (Z.add_comm (-90)), powerRZ_add, (pow2_IZR 23) in H1 by (lra || lia).
    rewrite (Z.add_comm (-90)), powerRZ_add, (pow2_IZR 24) in H2 by (lra || lia).
    pose proof (pow2_pos (-90)) as Hp.
    split.
    - apply Rmult_le_reg_r with (powerRZ 2 (-90)); [exact Hp|].
      unfold Rdiv. rewrite Rmult_assoc, Rinv_l by lra. lra.
    - apply Rmult_le_reg_r with (powerRZ 2 (-90)); [exact Hp|].
      unfold Rdiv. rewrite Rmult_assoc, Rinv_l by lra. lra. }
  destruct Hm as [Hm1 Hm2]. apply IZR_le in Hm1, Hm2.
  pose proof (pow2_pos (-90)) as Hp.
  change (IZR (2 ^ 23)) with 8388608%R in Hm1. change (IZR (2 ^ 24)) with 16777216%R in Hm2.
  split; [nra|].
  rewrite P.
  assert (H90 : (IZR (2 ^ 90) = 16777216 * IZR (2 ^ 66))%R).
  { rewrite <- mult_IZR. f_equal. }
  assert (H66 : (2 <= IZR (2 ^ 66))%R) by (apply IZR_le; vm_compute; discriminate).
  rewrite H90. 
  apply Rle_trans with (16777216 * / (16777216 * IZR (2 ^ 66)))%R.
  - apply Rmult_le_compat_r; [|exact Hm2]. left. apply Rinv_0_lt_compat. lra.
  - rewrite Rinv_mult. rewrite <- Rmult_assoc, Rinv_r, Rmult_1_l by lra.
    apply Rinv_le_contravar; lra.
Qed.


(** ** The loss in single precision: numbers stay numbers *)

Lemma fold_add_number l : forall a, number a -> Forall number l -> number (fold_left Single.add l a).
Proof.
  induction l as [|b l IH]; intros a Ha Hl; simpl; [exact Ha|].
  inversion Hl as [|? ? Hb Hl']; subst. apply IH; [|exact Hl'].
  destruct Ha as [u ->], Hb as [v ->]. simpl. eexists; reflexivity.
Qed.

Lemma total_number l : Forall number l -> number (Single.total l).
Proof. intros H. apply fold_add_number; [eexists; reflexivity | exact H]. Qed.

Lemma total_zeros l : Forall (fun a => a = Some 0%R) l -> Single.total l = Some 0%R.
Proof.
  unfold Single.total. induction 1 as [|a l Ha _ IH]; [reflexivity|].
  simpl. subst a. simpl. rewrite Rplus_0_l, round_0. exact IH.
Qed.

Lemma ln32_clamp_number a : number a -> number (Single.ln32 (single_clamp1 a)).
Proof.
  intros [v ->]. simpl. destruct clamp_floor as [Hlo _].
  destruct (Rlt_dec 0 (Rmin (Rmax v (Single.round CLAMP_MIN)) 1)) as [_|N]; [eexists; reflexivity|].
  exfalso. apply N. apply Rmin_glb_lt; [|lra].
  apply Rlt_le_trans with (Single.round CLAMP_MIN); [exact Hlo | apply Rmax_r].
Qed.

Lemma mult_number a b : number a -> number b -> number (Single.mult a b).
Proof. intros [u ->] [v ->]. eexists; reflexivity. Qed.

Lemma zip_numbers l1 : forall l2,
  Forall number l1 -> Forall number l2 -> Forall number (zip_with Single.mult l1 l2).
Proof.
  induction l1 as [|a l1 IH]; intros [|b l2] H1 H2; simpl; try constructor.
  - inversion H1; inversion H2; subst. now apply mult_number.
  - inversion H1; inversion H2; subst. now apply IH.
Qed.

Lemma broadcast_numbers l1 l2 d :
  broadcast Single.mult l1 l2 = Ok d -> Forall number l1 -> Forall number l2 -> Forall number d.
Proof.
  intros Hb H1 H2. unfold broadcast in Hb.
  assert (Hl : forall a, number a -> Forall number (map (Single.mult a) l2)).
  { intros a Ha. apply Forall_forall. intros y Hy. apply in_map_iff in Hy as (b & <- & Hb').
    rewrite Forall_forall in H2. apply mult_number; auto. }
  assert (Hr : forall b, number b -> Forall number (map (fun a => Single.mult a b) l1)).
  { intros b Hb'. apply Forall_forall. intros y Hy. apply in_map_iff in Hy as (a & <- & Ha).
    rewrite Forall_forall in H1. apply mult_number; auto. }
  destruct l1 as [|a [|a' l1]].
  - destruct l2 as [|b [|b' l2]]; simpl in Hb; try discriminate; inversion Hb; subst; constructor.
  - injection Hb as <-. apply Hl. now inversion H1.
  - destruct l2 as [|b [|b' l2]].
    + simpl in Hb. discriminate.
    + injection Hb as <-. apply Hr. now inversion H2.
    + destruct (length (a :: a' :: l1) =? length (b :: b' :: l2)); [|discriminate].
      injection Hb as <-. exact (zip_numbers (a :: a' :: l1) (b :: b' :: l2) H1 H2).
Qed.

Lemma rows_Forall {A} (P : A -> Prop) n c : forall l,
  Forall P l -> Forall (Forall P) (rows n c l).
Proof.
  induction n as [|n IH]; intros l Hl; simpl; constructor.
  - now apply Forall_firstn.
  - apply IH. now apply Forall_skipn.
Qed.

Lemma sequence_Forall {A} (P : A -> Prop) (rs : list (result A)) : forall rs',
  sequence rs = Ok rs' ->
  Forall (fun r => forall a, r = Ok a -> P a) rs -> Forall P rs'.
Proof.
  induction rs as [|r rs IH]; intros rs' H Hall; simpl in H.
  - injection H as <-. constructor.
  - destruct r as [a|e]; [|discriminate]. simpl in H.
    destruct (sequence rs) as [others|e]; [|discriminate]. simpl in H.
    injection H as <-. inversion Hall; subst. constructor; auto.
Qed.

Lemma broadcast_rows_numbers R1 R2 rs :
  broadcast (broadcast Single.mult) R1 R2 = Ok rs ->
  Forall (Forall number) R1 -> Forall (Forall number) R2 ->
  Forall (fun r => forall d, r = Ok d -> Forall number d) rs.
Proof.
  intros Hb H1 H2. unfold broadcast in Hb at 1.
  assert (Hz : forall l1 l2, Forall (Forall number) l1 -> Forall (Forall number) l2 ->
               Forall (fun r => forall d, r = Ok d -> Forall number d)
                      (zip_with (broadcast Single.mult) l1 l2)).
  { induction l1 as [|a l1 IH]; intros [|b l2] Ha Hb'; simpl; try constructor.
    - intros d Hd. inversion Ha; inversion Hb'; subst. eapply broadcast_numbers; eauto.
    - inversion Ha; inversion Hb'; subst. now apply IH. }
  assert (Hl : forall a, Forall number a ->
               Forall (fun r => forall d, r = Ok d -> Forall number d)
                      (map (broadcast Single.mult a) R2)).
  { intros a Ha. apply Forall_forall. intros r Hr. apply in_map_iff in Hr as (b & <- & Hb').
    intros d Hd. rewrite Forall_forall in H2. eapply broadcast_numbers; eauto. }
  assert (Hr : forall b, Forall number b ->
               Forall (fun r => forall d, r = Ok d -> Forall number d)
                      (map (fun a => broadcast Single.mult a b) R1)).
  { intros b Hb'. apply Forall_forall. intros r Hr. apply in_map_iff in Hr as (a & <- & Ha).
    intros d Hd. rewrite Forall_forall in H1. eapply broadcast_numbers; eauto. }
  destruct R1 as [|a [|a' R1]].
  - destruct R2 as [|b [|b' R2]]; simpl in Hb; try discriminate; inversion Hb; subst; constructor.
  - injection Hb as <-. apply Hl. now inversion H1.
  - destruct R2 as [|b [|b' R2]].
    + simpl in Hb. discriminate.
    + injection Hb as <-. apply Hr. now inversion H2.
    + destruct (length (a :: a' :: R1) =? length (b :: b' :: R2)); [|discriminate].
      injection Hb as <-. exact (Hz (a :: a' :: R1) (b :: b' :: R2) H1 H2).
Qed.

Lemma Forall_concat {A} (P : A -> Prop) ls : Forall (Forall P) ls -> Forall P (concat ls).
Proof.
  induction 1 as [|l ls Hl _ IH]; simpl; [constructor|]. apply Forall_app. now split.
Qed.

Lemma single_mul_numbers a b t :
  Single.mul a b = Ok t ->
  Forall number (data a) -> Forall number (data b) -> Forall number (data t).
Proof.
  unfold Single.mul. intros H Ha Hb.
  destruct (shape a) as [|n1 [|c1 [|]]]; try discriminate;
    destruct (shape b) as [|n2 [|c2 [|]]]; try discriminate.
  - apply rbind_ok in H as (d & Hd & H). injection H as <-. simpl.
    eapply broadcast_numbers; eauto.
  - apply rbind_ok in H as (rs & Hrs & H). apply rbind_ok in H as (rs' & Hseq & H).
    injection H as <-. simpl. apply Forall_concat.
    apply (sequence_Forall _ rs); [exact Hseq|].
    eapply broadcast_rows_numbers; [exact Hrs | |]; now apply rows_Forall.
Qed.

Lemma mult_zero_right a : number a -> Single.mult a (Some 0%R) = Some 0%R.
Proof. intros [u ->]. simpl. now rewrite Rmult_0_r, round_0. Qed.

Lemma broadcast_zero_right_single l1 l2 d :
  broadcast Single.mult l1 l2 = Ok d ->
  Forall number l1 -> Forall (fun a => a = Some 0%R) l2 -> Forall (fun a => a = Some 0%R) d.
Proof.
  intros Hb H1 Hz. unfold broadcast in Hb.
  assert (Hzip : forall l1 l2, Forall number l1 -> Forall (fun a => a = Some 0%R) l2 ->
                 Forall (fun a => a = Some 0%R) (zip_with Single.mult l1 l2)).
  { induction l0 as [|a l0 IH]; intros [|b l3] Ha Hb'; simpl; try constructor.
    - inversion Ha; inversion Hb'; subst. now apply mult_zero_right.
    - inversion Ha; inversion Hb'; subst. now apply IH. }
  assert (Hl : forall a, number a -> Forall (fun a => a = Some 0%R) (map (Single.mult a) l2)).
  { intros a Ha. apply Forall_forall. intros y Hy. apply in_map_iff in Hy as (b & <- & Hb').
    rewrite Forall_forall in Hz. rewrite (Hz b Hb'). now apply mult_zero_right. }
  assert (Hr : forall b, b = Some 0%R ->
               Forall (fun a => a = Some 0%R) (map (fun a => Single.mult a b) l1)).
  { intros b ->. apply Forall_forall. intros y Hy. apply in_map_iff in Hy as (a & <- & Ha).
    rewrite Forall_forall in H1. apply mult_zero_right. auto. }
  destruct l1 as [|a [|a' l1]].
  - destruct l2 as [|b [|b' l2]]; simpl in Hb; try discriminate; inversion Hb; subst; constructor.
  - injection Hb as <-. apply Hl. now inversion H1.
  - destruct l2 as [|b [|b' l2]].
    + simpl in Hb. discriminate.
    + injection Hb as <-. apply Hr. now inversion Hz.
    + destruct (length (a :: a' :: l1) =? length (b :: b' :: l2)); [|discriminate].
      injection Hb as <-. exact (Hzip (a :: a' :: l1) (b :: b' :: l2) H1 Hz).
Qed.

Lemma single_loss_zero_rewards V prediction x rewards v :
  Forall number (data prediction) ->
  Forall (fun a => a = Some 0%R) (data rewards) ->
  Single.GeneratorLoss_forward V prediction x rewards = Ok v -> v = Some 0%R.
Proof.
  intros Hn Hz H. unfold Single.GeneratorLoss_forward in H.
  apply rbind_ok in H as (x1 & _ & H).
  apply rbind_ok in H as (pred1 & Hpred1 & H).
  apply rbind_ok in H as (d0 & _ & H).
  apply rbind_ok in H as (d1 & _ & H).
  apply rbind_ok in H as (x2 & _ & H).
  apply rbind_ok in H as (prod & Hprod & H).
  apply rbind_ok in H as (reduced & Hred & H).
  apply rbind_ok in H as (rp & Hmul & H).
  injection H as <-.
  assert (Hp1 : Forall number (data pred1)).
  { unfold view_rows in Hpred1. destruct (V =? 0); [discriminate|].
    destruct (_ =? 0); [|discriminate]. injection Hpred1 as <-. exact Hn. }
  assert (Hprodn : Forall number (data prod)).
  { apply (single_mul_numbers _ _ _ Hprod).
    - simpl. apply Forall_forall. intros a Ha. apply in_map_iff in Ha as (u & <- & _).
      eexists; reflexivity.
    - simpl. rewrite map_map. apply Forall_forall. intros a Ha.
      apply in_map_iff in Ha as (u & <- & Hu). rewrite Forall_forall in Hp1.
      apply (ln32_clamp_number u). auto. }
  unfold Single.sum_dim1 in Hred.
  destruct (shape prod) as [|n [|c [|]]]; try discriminate.
  injection Hred as <-.
  unfold Single.mul, view_flat in Hmul. simpl in Hmul.
  apply rbind_ok in Hmul as (d & Hd & Hrp). injection Hrp as <-.
  unfold Single.sum. simpl. apply total_zeros.
  eapply broadcast_zero_right_single; [exact Hd | | exact Hz].
  apply Forall_forall. intros a Ha. apply in_map_iff in Ha as (row & <- & Hrow).
  apply total_number. pose proof (rows_Forall number n c _ Hprodn) as Hall.
  rewrite Forall_forall in Hall. auto.
Qed.

(** ** The loss in single precision, in closed form *)

Lemma sequence_zip_broadcast_with {A} (f : A -> A -> A) (rs1 rs2 : list (list A)) c :
  Forall (fun r => length r = c) rs1 -> Forall (fun r => length r = c) rs2 ->
  sequence (zip_with (broadcast f) rs1 rs2) = Ok (zip_with (zip_with f) rs1 rs2).
Proof.
  intros H1; revert rs2.
  induction H1 as [|r1 rs1 Hr1 _ IH]; intros rs2 H2; [reflexivity|].
  destruct H2 as [|r2 rs2 Hr2 H2]; [reflexivity|].
  simpl. rewrite broadcast_same_length by congruence. simpl.
  rewrite IH by assumption. reflexivity.
Qed.

Lemma map_total_one_hot V (dx : list Z) : forall (rs : list (list Single.f32)),
  map Single.total (zip_with (zip_with Single.mult) (map (fun tok => map Some (one_hot V tok)) dx)
               (map (map Single.ln32)
                    (map (map (option_map (fun v => Rmin (Rmax v (Single.round CLAMP_MIN)) 1))) rs)))
  = zip_with (single_pick V) rs dx.
Proof.
  induction dx as [|tok dx IH]; intros [|row rs]; simpl; try reflexivity.
  rewrite IH. f_equal. unfold single_pick. now rewrite map_map.
Qed.

Lemma single_loss_well_shaped V sp sx sr dp dx dr :
  V <> 0 ->
  length dp = length dx * V ->
  length dr = length dx ->
  Forall (in_vocab V) dx ->
  Single.GeneratorLoss_forward V (Tensor sp dp) (Tensor sx dx) (Tensor sr dr)
  = Ok (Single.total (single_loss_terms V dp dx dr)).
Proof.
  intros HV Hp Hr Hx.
  set (N := length dx) in *.
  unfold Single.GeneratorLoss_forward, view_rows, numel. simpl data.
  rewrite Nat.mod_1_r, Nat.div_1_r. simpl (1 =? 0). simpl (0 =? 0). cbv iota.
  apply Nat.eqb_neq in HV as HV'. rewrite HV'.
  rewrite Hp, Nat.Div0.mod_mul, Nat.div_mul by assumption.
  simpl. unfold createOneHotDummy, zeros, scatter_. simpl.
  rewrite rows_repeat. fold N. unfold N at 1. rewrite scatter_rows_one_hot by assumption.
  simpl. unfold Single.mul at 1. simpl.
  assert (Hoh : Forall (fun r => length r = V) (map (one_hot V) dx)).
  { apply Forall_forall. intros r Hr'. apply in_map_iff in Hr' as (t & <- & _).
    apply one_hot_width. }
  assert (HN : length (map (one_hot V) dx) = N) by apply length_map.
  rewrite rows_map. rewrite <- HN at 1. rewrite rows_concat by assumption.
  set (oh := map (map Some) (map (one_hot V) dx)).
  assert (Hoh' : Forall (fun r => length r = V) oh).
  { unfold oh. apply Forall_forall. intros r Hr'. apply in_map_iff in Hr' as (t & <- & Ht).
    rewrite length_map. rewrite Forall_forall in Hoh. auto. }
  set (logs := rows N V (map Single.ln32 (map (option_map
                 (fun v => Rmin (Rmax v (Single.round CLAMP_MIN)) 1)) dp))).
  assert (Hlogs : Forall (fun r => length r = V) logs).
  { apply rows_widths. now rewrite !length_map. }
  rewrite broadcast_same_length
    by (unfold oh, logs; now rewrite !length_map, length_rows).
  simpl.
  change (zip_with (broadcast Single.mult) _ logs) with (zip_with (broadcast Single.mult) oh logs).
  rewrite (sequence_zip_broadcast_with Single.mult _ _ V Hoh' Hlogs). simpl.
  unfold Single.sum_dim1. simpl.
  assert (Hw := zip_with_widths Single.mult _ _ V Hoh' Hlogs).
  assert (Hc : (if V =? 1 then V else V) = V) by now destruct (V =? 1).
  rewrite Hc. rewrite rows_concat by assumption.
  unfold Single.mul, view_flat. simpl.
  rewrite broadcast_same_length.
  2:{ rewrite length_map, length_zip_with. unfold oh, logs.
      rewrite !length_map, length_rows. fold N. unfold numel; simpl. lia. }
  simpl. unfold Single.sum. simpl. do 2 f_equal.
  unfold single_loss_terms. f_equal. fold N.
  unfold oh, logs. rewrite !rows_map, (map_map (one_hot V) (map Some)).
  apply map_total_one_hot.
Qed.

(** ** The loss in single precision, batch entry by batch entry *)

Lemma single_loss_terms_app V p1 p2 x1 x2 r1 r2 :
  length p1 = length x1 * V -> length r1 = length x1 ->
  single_loss_terms V (p1 ++ p2) (x1 ++ x2) (r1 ++ r2)
  = single_loss_terms V p1 x1 r1 ++ single_loss_terms V p2 x2 r2.
Proof.
  intros Hp Hr. unfold single_loss_terms.
  rewrite length_app, rows_app_blocks by assumption.
  rewrite zip_with_app by apply length_rows.
  rewrite zip_with_app; [reflexivity|].
  rewrite length_zip_with, length_rows. lia.
Qed.

Lemma single_terms_of_selection V B S dp dx dr sel :
  length dp = B * (S * V) -> length dx = B * S -> length dr = B * S ->
  Forall (fun b => b < B) sel ->
  single_loss_terms V (concat (map (fun b => nth b (rows B (S * V) dp) []) sel))
                    (concat (map (fun b => nth b (rows B S dx) []) sel))
                    (concat (map (fun b => nth b (rows B S dr) []) sel))
  = concat (map (single_batch_terms B S V dp dx dr) sel).
Proof.
  intros Hp Hx Hr. induction 1 as [|b sel Hb _ IH]; [reflexivity|].
  simpl. rewrite single_loss_terms_app.
  - now rewrite IH.
  - rewrite !nth_rows_length by assumption. reflexivity.
  - rewrite !nth_rows_length by assumption. reflexivity.
Qed.

Lemma selection_Forall {A} (P : A -> Prop) B c (l : list A) sel :
  Forall P l -> Forall P (concat (map (fun b => nth b (rows B c l) []) sel)).
Proof.
  intros Hl. apply Forall_concat. apply Forall_forall. intros r Hr.
  apply in_map_iff in Hr as (b & <- & _).
  pose proof (rows_Forall P B c l Hl) as Hall. rewrite Forall_forall in Hall.
  destruct (nth_in_or_default b (rows B c l) []) as [Hin | ->]; [auto | constructor].
Qed.

(** The loss of the batch entries [sel], taken in that order: their terms,
    added in that order. *)
Lemma single_loss_of_selection V B S sp sx sr dp dx dr sel :
  V <> 0 ->
  length dp = B * (S * V) -> length dx = B * S -> length dr = B * S ->
  Forall (fun b => b < B) sel ->
  Forall (in_vocab V) dx ->
  Single.GeneratorLoss_forward V
    (Tensor sp (concat (map (fun b => nth b (rows B (S * V) dp) []) sel)))
    (Tensor sx (concat (map (fun b => nth b (rows B S dx) []) sel)))
    (Tensor sr (concat (map (fun b => nth b (rows B S dr) []) sel)))
  = Ok (Single.total (concat (map (single_batch_terms B S V dp dx dr) sel))).
Proof.
  intros HV Hp Hx Hr Hsel Hvoc.
  rewrite single_loss_well_shaped.
  - now rewrite single_terms_of_selection.
  - exact HV.
  - rewrite !selection_length by assumption. lia.
  - rewrite !selection_length by assumption. lia.
  - now apply selection_Forall.
Qed.

Lemma single_loss_permuted V B S sigma (prediction : tensor Single.f32) (x : tensor Z)
      (rewards : tensor Single.f32) :
  V <> 0 ->
  shape prediction = [B; S; V] -> wf prediction ->
  shape x = [B; S] -> wf x ->
  shape rewards = [B; S] -> wf rewards ->
  Forall (in_vocab V) (data x) ->
  Permutation sigma (seq 0 B) ->
  let terms := single_batch_terms B S V (data prediction) (data x) (data rewards) in
  Single.GeneratorLoss_forward V prediction x rewards
  = Ok (Single.total (concat (map terms (seq 0 B))))
  /\ Single.GeneratorLoss_forward V (permute_batch sigma prediction) (permute_batch sigma x)
                                  (permute_batch sigma rewards)
     = Ok (Single.total (concat (map terms sigma)))
  /\ Permutation (concat (map terms sigma)) (concat (map terms (seq 0 B))).
Proof.
  destruct prediction as [sp dp], x as [sx dx], rewards as [sr dr].
  unfold wf; simpl. intros HV -> Hp -> Hx -> Hr Hvoc Hperm.
  simpl in Hp, Hx, Hr. rewrite Nat.mul_1_r in *.
  assert (Hsig : Forall (fun b => b < B) sigma).
  { apply Forall_permutation with (seq 0 B); [now apply Permutation_sym | apply seq_bounded]. }
  split; [|split].
  - pose proof (single_loss_of_selection V B S [B; S; V] [B; S] [B; S] dp dx dr (seq 0 B)
                  HV Hp Hx Hr (seq_bounded B) Hvoc) as E.
    rewrite !selection_all in E by assumption. exact E.
  - unfold permute_batch. simpl. rewrite !Nat.mul_1_r.
    now apply single_loss_of_selection.
  - now apply Permutation_concat_map.
Qed.


(** C9: in exact arithmetic the loss of consistently permuted predictions,
    reference tokens and rewards is the loss of the unpermuted ones, for
    every permutation of the batch dimension (an exception included: a token
    outside the vocabulary raises on both sides).  In single precision the
    loss of the permuted inputs is the sum of the same reward-weighted
    terms, batch entry by batch entry, added in the order of the
    permutation: the two losses differ by the order of the additions and by
    nothing else. *)
Theorem loss_invariant_under_batch_permutation
  V B S sigma (prediction : tensor R) (x : tensor Z) (rewards : tensor R) :
  shape prediction = [B; S; V] -> wf prediction ->
  shape x = [B; S] -> wf x ->
  shape rewards = [B; S] -> wf rewards ->
  Permutation sigma (seq 0 B) ->
  GeneratorLoss_forward V (permute_batch sigma prediction) (permute_batch sigma x)
                        (permute_batch sigma rewards)
  = GeneratorLoss_forward V prediction x rewards
  /\ forall (p32 r32 : tensor Single.f32),
       V <> 0 -> Forall (in_vocab V) (data x) ->
       shape p32 = [B; S; V] -> wf p32 -> shape r32 = [B; S] -> wf r32 ->
       let terms := single_batch_terms B S V (data p32) (data x) (data r32) in
       Single.GeneratorLoss_forward V p32 x r32
       = Ok (Single.total (concat (map terms (seq 0 B))))
       /\ Single.GeneratorLoss_forward V (permute_batch sigma p32) (permute_batch sigma x)
                                       (permute_batch sigma r32)
          = Ok (Single.total (concat (map terms sigma)))
       /\ Permutation (concat (map terms sigma)) (concat (map terms (seq 0 B))).
Proof.
  intros Hsp Hwp Hsx Hwx Hsr Hwr Hperm. split.
  - now apply (loss_of_permuted_batch V B S).
  - intros p32 r32 HV Hvoc Hs1 Hw1 Hs2 Hw2.
    now apply single_loss_permuted.
Qed.



(** C8: with a reward tensor that is zero everywhere and a prediction
    tensor that holds no NaN, the loss is exactly zero, in single precision
    as the runtime computes it: whatever the predictions and reference
    tokens, a returned loss is 0, and on predictions, tokens and rewards of
    matching sizes the loss is returned; the log of every clamped
    probability is a number.  The same holds in exact arithmetic. *)
Theorem zero_rewards_zero_loss
  V (prediction : tensor Single.f32) (x : tensor Z) (rewards : tensor Single.f32) :
  Forall number (data prediction) ->
  Forall (fun a => a = Some 0%R) (data rewards) ->
  (forall v, Single.GeneratorLoss_forward V prediction x rewards = Ok v -> v = Some 0%R)
  /\ (V <> 0 -> numel prediction = numel x * V -> numel rewards = numel x ->
      Forall (in_vocab V) (data x) ->
      Single.GeneratorLoss_forward V prediction x rewards = Ok (Some 0%R))
  /\ (forall a, number a -> number (Single.ln32 (single_clamp1 a)))
  /\ (forall p r : tensor R,
        Forall (fun a => a = 0%R) (data r) ->
        (forall v, GeneratorLoss_forward V p x r = Ok v -> v = 0%R)
        /\ (V <> 0 -> numel p = numel x * V -> numel r = numel x ->
            Forall (in_vocab V) (data x) ->
            GeneratorLoss_forward V p x r = Ok 0%R)).
Proof.
  intros Hn Hz. split; [|split; [|split]].
  - intros v Hv. eapply single_loss_zero_rewards; eassumption.
  - intros HV Hp Hr Hx.
    destruct prediction as [sp dp], x as [sx dx], rewards as [sr dr].
    unfold numel in *; simpl in *.
    pose proof (single_loss_well_shaped V sp sx sr dp dx dr HV Hp Hr Hx) as E.
    rewrite E. f_equal.
    eapply (single_loss_zero_rewards V (Tensor sp dp) (Tensor sx dx) (Tensor sr dr));
      [exact Hn | exact Hz | exact E].
  - apply ln32_clamp_number.
  - intros p r Hr0. split.
    + intros v Hv. eapply loss_zero_rewards; eassumption.
    + intros HV Hp Hr Hx.
      destruct p as [sp dp], x as [sx dx], r as [sr dr].
      unfold numel in *; simpl in *.
      pose proof (loss_well_shaped V sp sx sr dp dx dr HV Hp Hr Hx) as E.
      rewrite E. f_equal.
      eapply (loss_zero_rewards V (Tensor sp dp) (Tensor sx dx) (Tensor sr dr));
        [exact Hr0 | exact E].
Qed.

Lemma py_index_valid V tok :
  valid_index V tok -> py_index V tok = Ok (vocab_index V tok).
Proof.
  unfold valid_index, py_index, vocab_index. intros [Hlo Hhi].
  destruct (tok <? 0)%Z eqn:Eneg.
  - apply Z.ltb_lt in Eneg.
    assert (E0 : (0 <=? tok)%Z = false) by (apply Z.leb_gt; lia).
    assert (E1 : (- Z.of_nat V <=? tok)%Z = true) by (apply Z.leb_le; lia).
    rewrite E0, E1. reflexivity.
  - apply Z.ltb_ge in Eneg.
    assert (E0 : (0 <=? tok)%Z = true) by (apply Z.leb_le; lia).
    assert (E1 : (tok <? Z.of_nat V)%Z = true) by (apply Z.ltb_lt; lia).
    rewrite E0, E1. reflexivity.
Qed.

Lemma vocab_index_lt V tok : valid_index V tok -> vocab_index V tok < V.
Proof.
  unfold valid_index, vocab_index. intros [Hlo Hhi].
  destruct (tok <? 0)%Z eqn:Eneg.
  - apply Z.ltb_lt in Eneg. lia.
  - apply Z.ltb_ge in Eneg. lia.
Qed.

Lemma mask_token_ok V (original : tensor R) tok :
  vocab_last (shape original) V -> valid_index V tok ->
  mask_token original tok
  = Ok (Tensor (shape original)
               (fill_axis V 1 (vocab_index V tok) (IZR (- MAXINT)) (data original))).
Proof.
  intros Hs Hv. unfold mask_token.
  destruct Hs as [(a & Hs) | (a & b & Hs)]; rewrite Hs; simpl;
    unfold setitem_dim1, setitem_dim2; rewrite Hs; simpl;
    rewrite py_index_valid by assumption; reflexivity.
Qed.

Lemma fold_mask_raise tokens e :
  fold_left (fun acc token => let? original := acc in mask_token original token)
            tokens (Raise e) = Raise e.
Proof. induction tokens as [|t ts IH]; simpl; auto. Qed.

Lemma ignoreTokens_fold original tokens :
  ignoreTokens original (Some tokens)
  = fold_left (fun acc token => let? original := acc in mask_token original token)
              tokens (Ok original).
Proof. reflexivity. Qed.

Lemma ignoreTokens_data V tokens : forall original,
  vocab_last (shape original) V -> Forall (valid_index V) tokens ->
  ignoreTokens original (Some tokens)
  = Ok (Tensor (shape original)
               (fold_left (fun d tok => fill_axis V 1 (vocab_index V tok) (IZR (- MAXINT)) d)
                          tokens (data original))).
Proof.
  induction tokens as [|tok tokens IH]; intros original Hs Hv.
  - destruct original; reflexivity.
  - inversion Hv as [|? ? Htok Hrest]; subst.
    rewrite ignoreTokens_fold. simpl.
    rewrite (mask_token_ok V) by assumption.
    rewrite <- ignoreTokens_fold. rewrite IH by assumption. reflexivity.
Qed.

Lemma nth_fill_axis V i v l j :
  j < length l ->
  nth j (fill_axis V 1 i v l) 0%R = if j mod V =? i then v else nth j l 0%R.
Proof.
  intros Hj. unfold fill_axis. rewrite (nth_imap _ l j 0%R 0%R Hj).
  now rewrite Nat.div_1_r.
Qed.

Lemma length_fill_axis n inner i v l : length (fill_axis n inner i v l) = length l.
Proof. apply length_imap. Qed.

Lemma length_fold_fill V v tokens : forall l,
  length (fold_left (fun d tok => fill_axis V 1 (vocab_index V tok) v d) tokens l) = length l.
Proof.
  induction tokens as [|tok tokens IH]; intros l; simpl; [reflexivity|].
  now rewrite IH, length_fill_axis.
Qed.

Lemma nth_fold_fill V v tokens : forall l j,
  j < length l ->
  nth j (fold_left (fun d tok => fill_axis V 1 (vocab_index V tok) v d) tokens l) 0%R
  = if ignored_at V tokens (j mod V) then v else nth j l 0%R.
Proof.
  induction tokens as [|tok tokens IH]; intros l j Hj; simpl; [reflexivity|].
  rewrite IH by now rewrite length_fill_axis.
  rewrite nth_fill_axis by assumption.
  rewrite (Nat.eqb_sym (vocab_index V tok)).
  destruct (ignored_at V tokens (j mod V)); [now rewrite orb_true_r|].
  now rewrite orb_false_r.
Qed.

(** C7: on scores of two or three dimensions whose last dimension is the
    vocabulary, [ignoreTokens] returns the tensor of the same shape in which
    every entry at a suppressed vocabulary index, at every batch and position,
    is [- MAXINT] and every other entry is the one of the input; without an
    ignore set, or with an empty one, the input is returned as it is. *)
Theorem ignoreTokens_masks_suppressed V (original : tensor R) (tokens : list Z) :
  vocab_last (shape original) V ->
  Forall (valid_index V) tokens ->
  (exists masked,
      ignoreTokens original (Some tokens) = Ok masked
      /\ shape masked = shape original
      /\ length (data masked) = length (data original)
      /\ forall j, j < length (data original) ->
           nth j (data masked) 0%R
           = if ignored_at V tokens (j mod V) then IZR (- MAXINT)
             else nth j (data original) 0%R)
  /\ ignoreTokens original None = Ok original
  /\ ignoreTokens original (Some []) = Ok original.
Proof.
  intros Hs Hv. split; [|split; reflexivity].
  eexists. split; [apply (ignoreTokens_data V); assumption|].
  simpl. split; [reflexivity|]. split; [apply length_fold_fill|].
  intros j Hj. now apply nth_fold_fill.
Qed.

(** ** Rows of a flat tensor, entry by entry *)

Lemma nth_concat_const {A} c (rs : list (list A)) j d :
  Forall (fun r => length r = c) rs -> j < length rs * c ->
  nth j (concat rs) d = nth (j mod c) (nth (j / c) rs []) d.
Proof.
  intros Hw; revert j. induction Hw as [|r rs Hr _ IH]; intros j Hj; simpl in *; [lia|].
  assert (Hc : c <> 0) by (intros ->; lia).
  destruct (Nat.lt_ge_cases j c) as [Hlt | Hge].
  - rewrite app_nth1 by lia. rewrite Nat.div_small, Nat.mod_small by assumption. reflexivity.
  - rewrite app_nth2 by lia. rewrite Hr.
    rewrite IH by lia.
    replace j with ((j - c) + 1 * c) at 3 4 by lia.
    rewrite Nat.div_add, Nat.Div0.mod_add by assumption.
    rewrite Nat.add_1_r. reflexivity.
Qed.

Lemma nth_nth_rows {A} n c (l : list A) p k d :
  length l = n * c -> p < n -> k < c ->
  nth k (nth p (rows n c l) []) d = nth (p * c + k) l d.
Proof.
  intros Hl Hp Hk.
  rewrite <- (concat_rows n c l Hl) at 2.
  rewrite (nth_concat_const c) by (try apply rows_widths; try rewrite length_rows; auto; nia).
  rewrite Nat.div_add_l, Nat.div_small, Nat.add_0_r by lia.
  rewrite Nat.add_comm, Nat.Div0.mod_add, Nat.mod_small by lia. reflexivity.
Qed.

Lemma fiber_row V l j :
  fiber V 1 l j = map (fun k => nth ((j / V) * V + k) l 0%R) (seq 0 V).
Proof.
  unfold fiber. rewrite Nat.mul_1_r. apply map_ext. intros k.
  now rewrite Nat.mul_1_r, Nat.mod_1_r, Nat.add_0_r.
Qed.

Lemma fiber_is_row n V l j :
  length l = n * V -> j < n * V -> fiber V 1 l j = nth (j / V) (rows n V l) [].
Proof.
  intros Hl Hj.
  assert (HV : V <> 0) by (intros ->; lia).
  assert (Hp : j / V < n) by (apply Nat.Div0.div_lt_upper_bound; lia).
  rewrite fiber_row.
  apply (nth_ext _ _ 0%R 0%R).
  - rewrite length_map, length_seq. symmetry. now apply nth_rows_length.
  - intros k Hk. rewrite length_map, length_seq in Hk.
    rewrite (nth_map_in _ (seq 0 V) k 0 0%R) by now rewrite length_seq.
    rewrite seq_nth by assumption. simpl.
    symmetry. now apply nth_nth_rows.
Qed.

Lemma softmax_rows ex n V l :
  length l = n * V ->
  softmax_axis ex V 1 l = concat (map (softmax_vec ex) (rows n V l)).
Proof.
  intros Hl.
  assert (Hw : Forall (fun r => length r = V) (map (softmax_vec ex) (rows n V l))).
  { apply Forall_forall. intros r Hr. apply in_map_iff in Hr as (r0 & <- & Hr0).
    unfold softmax_vec. rewrite length_map.
    pose proof (rows_widths n V l Hl) as Hall. rewrite Forall_forall in Hall. now apply Hall. }
  apply (nth_ext _ _ 0%R 0%R).
  - unfold softmax_axis. rewrite length_imap, (length_concat_const V) by assumption.
    now rewrite length_map, length_rows.
  - intros j Hj. unfold softmax_axis in *. rewrite length_imap in Hj.
    rewrite (nth_imap _ l j 0%R 0%R Hj). rewrite Hl in Hj.
    assert (HV : V <> 0) by (intros ->; lia).
    assert (Hp : j / V < n) by (apply Nat.Div0.div_lt_upper_bound; lia).
    rewrite (nth_concat_const V) by (auto; now rewrite length_map, length_rows).
    rewrite (nth_map_in _ (rows n V l) (j / V) [] []) by now rewrite length_rows.
    rewrite (fiber_is_row n) by assumption.
    unfold softmax_vec.
    set (row := nth (j / V) (rows n V l) []).
    assert (Hrow : length row = V) by (unfold row; now apply nth_rows_length).
    rewrite (nth_map_in _ row (j mod V) 0%R 0%R)
      by (rewrite Hrow; now apply Nat.mod_upper_bound).
    unfold row. rewrite nth_nth_rows by (auto; now apply Nat.mod_upper_bound).
    replace (j / V * V + j mod V) with j by (rewrite (Nat.div_mod_eq j V) at 1; lia).
    reflexivity.
Qed.

(** ** The maximum and the exponential *)

Lemma fold_Rmax_ge_init a l : (a <= fold_right Rmax a l)%R.
Proof.
  induction l as [|b l IH]; simpl; [lra|].
  eapply Rle_trans; [exact IH | apply Rmax_r].
Qed.

Lemma Rmaximum_ge v l : In v l -> (v <= Rmaximum l)%R.
Proof.
  destruct l as [|a l]; [intros []|]. simpl. intros [<- | Hin].
  - apply fold_Rmax_ge_init.
  - induction l as [|b l IH]; [destruct Hin|]. simpl.
    destruct Hin as [<- | Hin]; [apply Rmax_l|].
    eapply Rle_trans; [now apply IH | apply Rmax_r].
Qed.

Lemma Rmaximum_in l : l <> [] -> In (Rmaximum l) l.
Proof.
  destruct l as [|a l]; [congruence|]. intros _. simpl.
  induction l as [|b l IH]; simpl; [now left|].
  apply Rmax_case.
  - right; now left.
  - destruct IH as [IH | IH]; [now left | right; now right].
Qed.

Lemma fexp_nonneg v : (0 <= fexp v)%R.
Proof.
  unfold fexp. destruct (Rle_dec v (- EXP_UNDERFLOW)); [lra|]. left. apply exp_pos.
Qed.

Lemma fexp_0 : (0 < EXP_UNDERFLOW)%R -> fexp 0 = 1%R.
Proof.
  intros H. unfold fexp. destruct (Rle_dec 0 (- EXP_UNDERFLOW)); [lra | apply exp_0].
Qed.

Lemma fexp_underflow v : (v <= - EXP_UNDERFLOW)%R -> fexp v = 0%R.
Proof.
  intros H. unfold fexp. destruct (Rle_dec v (- EXP_UNDERFLOW)); [reflexivity | contradiction].
Qed.

Lemma Rsum_nonneg l : Forall (fun v => 0 <= v)%R l -> (0 <= Rsum l)%R.
Proof.
  unfold Rsum. induction 1 as [|a l Ha _ IH]; simpl; lra.
Qed.

Lemma Rsum_ge_member l x : Forall (fun v => 0 <= v)%R l -> In x l -> (x <= Rsum l)%R.
Proof.
  unfold Rsum. induction 1 as [|a l Ha Hl IH]; intros Hin; [destruct Hin|].
  simpl. pose proof (Rsum_nonneg l Hl) as Hs. unfold Rsum in Hs.
  destruct Hin as [<- | Hin]; [lra|]. specialize (IH Hin). lra.
Qed.

Lemma Rsum_map_div l s : Rsum (map (fun v => v / s)%R l) = (Rsum l / s)%R.
Proof.
  unfold Rsum. induction l as [|a l IH]; simpl; [lra|]. rewrite IH. lra.
Qed.

Section SoftmaxRow.

Variable row : list R.
Hypothesis row_nonempty : row <> [].
Hypothesis underflow_pos : (0 < EXP_UNDERFLOW)%R.

Lemma exps_nonneg : Forall (fun v => 0 <= v)%R (row_exps row).
Proof.
  apply Forall_forall. intros e He. apply in_map_iff in He as (v & <- & _).
  apply fexp_nonneg.
Qed.

Lemma exps_sum_ge_1 : (1 <= Rsum (row_exps row))%R.
Proof.
  apply Rsum_ge_member; [apply exps_nonneg|].
  apply in_map_iff. exists (Rmaximum row). split; [|now apply Rmaximum_in].
  replace (Rmaximum row - Rmaximum row)%R with 0%R by lra. now apply fexp_0.
Qed.

Lemma softmax_vec_eq : softmax_vec fexp row = map (fun e => e / Rsum (row_exps row))%R (row_exps row).
Proof. unfold softmax_vec, row_exps. now rewrite map_map. Qed.

Lemma softmax_vec_nonneg : Forall (fun v => 0 <= v)%R (softmax_vec fexp row).
Proof.
  rewrite softmax_vec_eq. apply Forall_forall. intros p Hp.
  apply in_map_iff in Hp as (e & <- & He).
  pose proof exps_nonneg as Hn. rewrite Forall_forall in Hn. specialize (Hn e He).
  pose proof exps_sum_ge_1.
  apply Rmult_le_pos; [assumption|]. left. apply Rinv_0_lt_compat. lra.
Qed.

Lemma softmax_vec_sum : Rsum (softmax_vec fexp row) = 1%R.
Proof.
  rewrite softmax_vec_eq, Rsum_map_div. pose proof exps_sum_ge_1. field. lra.
Qed.

Lemma softmax_vec_underflow k :
  k < length row ->
  (nth k row 0 + EXP_UNDERFLOW <= Rmaximum row)%R ->
  nth k (softmax_vec fexp row) 0%R = 0%R.
Proof.
  intros Hk Hgap. unfold softmax_vec.
  rewrite (nth_map_in _ row k 0%R 0%R Hk).
  rewrite fexp_underflow by lra. lra.
Qed.

End SoftmaxRow.

Lemma inverse_cdf_support row : forall t,
  Forall (fun v => 0 <= v)%R row -> (0 <= t < Rsum row)%R ->
  inverse_cdf t row < length row /\ (0 < nth (inverse_cdf t row) row 0)%R.
Proof.
  induction row as [|p rest IH]; intros t Hn Ht.
  - unfold Rsum in Ht; simpl in Ht. lra.
  - inversion Hn as [|? ? Hp Hrest]; subst. simpl.
    destruct (Rlt_dec t p) as [Hlt | Hge].
    + split; [lia | lra].
    + assert (Ht' : (0 <= t - p < Rsum rest)%R).
      { unfold Rsum in *; simpl in Ht. lra. }
      destruct (IH _ Hrest Ht') as [Hk Hpos]. split; [lia | exact Hpos].
Qed.

Lemma no_negative row : Forall (fun v => 0 <= v)%R row -> existsb negative row = false.
Proof.
  induction 1 as [|p rest Hp _ IH]; [reflexivity|].
  simpl. rewrite IH. unfold negative. destruct (Rlt_dec p 0); [lra | reflexivity].
Qed.

Lemma multinomial_row_support u row :
  good_row row -> (0 <= u < 1)%R ->
  exists k, multinomial_row u row = Ok k /\ drawn_from row (Z.of_nat k).
Proof.
  intros [Hn Hs] Hu. unfold multinomial_row.
  rewrite no_negative by assumption.
  destruct (Rle_dec (Rsum row) 0) as [Hle | _]; [lra|].
  eexists. split; [reflexivity|].
  assert (Ht : (0 <= u * Rsum row < Rsum row)%R) by nra.
  destruct (inverse_cdf_support row _ Hn Ht) as [Hk Hpos].
  unfold drawn_from. rewrite Nat2Z.id. repeat split; [lia | assumption | assumption].
Qed.

Lemma set_rng_twice g g' w : set_rng g (set_rng g' w) = set_rng g w.
Proof. reflexivity. Qed.

Lemma multinomial_rows_support rs : forall w,
  uniform_draws w -> Forall good_row rs ->
  exists ks g,
    multinomial_rows rs w = (Ok ks, set_rng g w)
    /\ (forall n, 0 <= g n < 1)%R
    /\ Forall2 drawn_from rs ks.
Proof.
  induction rs as [|r rs IH]; intros w Hw Hrs.
  - exists [], (rng w). split; [|split; [exact Hw | constructor]].
    destruct w; reflexivity.
  - inversion Hrs as [|? ? Hr Hrest]; subst.
    destruct (multinomial_row_support (rng w 0) r Hr (Hw 0)) as (k & Ek & Hk).
    assert (Hw' : uniform_draws (set_rng (fun n => rng w (S n)) w)).
    { intros n. simpl. apply Hw. }
    destruct (IH _ Hw' Hrest) as (ks & g & Eks & Hg & Hks).
    exists (Z.of_nat k :: ks), g. split; [|split; [exact Hg | now constructor]].
    simpl. unfold bind at 1. unfold uniform at 1.
    unfold bind at 1. unfold lift at 1. rewrite Ek.
    unfold bind at 1. rewrite Eks. reflexivity.
Qed.

Lemma multinomial_support n V (probs : list R) w :
  V <> 0 -> uniform_draws w -> Forall good_row (rows n V probs) ->
  exists ks g,
    multinomial (Tensor [n; V] probs) w = (Ok (Tensor [n; 1] ks), set_rng g w)
    /\ (forall i, 0 <= g i < 1)%R
    /\ Forall2 drawn_from (rows n V probs) ks.
Proof.
  intros HV Hw Hrows. unfold multinomial. simpl.
  apply Nat.eqb_neq in HV. rewrite HV.
  destruct (multinomial_rows_support _ w Hw Hrows) as (ks & g & E & Hg & Hks).
  exists ks, g. split; [|split; assumption].
  unfold bind. rewrite E. reflexivity.
Qed.

(** ** Masked scores under softmax *)

Lemma softmax_dim2_rows ex a b V (t : tensor R) :
  shape t = [a; b; V] -> length (data t) = a * b * V ->
  softmax_dim2 ex t
  = Ok (Tensor [a; b; V] (concat (map (softmax_vec ex) (rows (a * b) V (data t))))).
Proof.
  intros Hs Hl. unfold softmax_dim2. rewrite Hs. simpl.
  now rewrite (softmax_rows ex (a * b) V).
Qed.


Section MaskedRows.

Variables (n V : nat) (tokens : list Z) (ds : list R).
Hypothesis ds_length : length ds = n * V.

Lemma masked_entry p k :
  p < n -> k < V ->
  nth k (nth p (rows n V (masked_data V tokens ds)) []) 0%R
  = if ignored_at V tokens k then IZR (- MAXINT) else nth (p * V + k) ds 0%R.
Proof.
  intros Hp Hk.
  assert (Hl : length (masked_data V tokens ds) = n * V) by (unfold masked_data; now rewrite length_fold_fill).
  rewrite nth_nth_rows by assumption.
  unfold masked_data. rewrite nth_fold_fill by (rewrite ds_length; nia).
  rewrite Nat.add_comm, Nat.Div0.mod_add, Nat.mod_small by assumption.
  rewrite Nat.add_comm. reflexivity.
Qed.

Lemma masked_row_mass p k :
  (0 < EXP_UNDERFLOW)%R ->
  p < n -> k < V -> ignored_at V tokens k = true ->
  (exists k0, k0 < V /\ ignored_at V tokens k0 = false
              /\ (IZR (- MAXINT) + EXP_UNDERFLOW <= nth (p * V + k0) ds 0)%R) ->
  nth k (softmax_vec fexp (nth p (rows n V (masked_data V tokens ds)) [])) 0%R = 0%R.
Proof.
  intros HT Hp Hk Hig (k0 & Hk0 & Hfree & Hgap).
  assert (Hl : length (masked_data V tokens ds) = n * V) by (unfold masked_data; now rewrite length_fold_fill).
  set (row := nth p (rows n V (masked_data V tokens ds)) []).
  assert (Hrow : length row = V) by (unfold row; now apply nth_rows_length).
  apply softmax_vec_underflow; [lia|].
  unfold row at 1. rewrite masked_entry, Hig by assumption.
  apply Rle_trans with (nth k0 row 0%R).
  - unfold row. rewrite masked_entry, Hfree by assumption. exact Hgap.
  - apply Rmaximum_ge. apply nth_In. lia.
Qed.

End MaskedRows.

Lemma good_softmax_row row :
  row <> [] -> (0 < EXP_UNDERFLOW)%R -> good_row (softmax_vec fexp row).
Proof.
  intros Hne HT. split; [now apply softmax_vec_nonneg|].
  rewrite softmax_vec_sum by assumption. lra.
Qed.

Lemma Forall2_at {A B} (P : A -> B -> Prop) l1 l2 :
  Forall2 P l1 l2 -> forall p d1 d2, p < length l1 -> P (nth p l1 d1) (nth p l2 d2).
Proof.
  induction 1 as [|a b l1 l2 Hab _ IH]; intros p d1 d2 Hp; simpl in *; [lia|].
  destruct p as [|p]; [assumption|]. apply IH. lia.
Qed.

Lemma Forall2_map_rows {A B} (f : list A -> list B) (P : list B -> Z -> Prop) n c l ks :
  Forall2 P (map f (rows n c l)) ks ->
  length ks = n /\ forall p, p < n -> P (f (nth p (rows n c l) [])) (nth p ks 0%Z).
Proof.
  intros H. pose proof (Forall2_length H) as Hlen.
  rewrite length_map, length_rows in Hlen. split; [now symmetry|].
  intros p Hp.
  pose proof (Forall2_at P _ _ H p (f []) 0%Z) as Hn.
  rewrite length_map, length_rows in Hn. specialize (Hn Hp).
  rewrite (nth_map_in f (rows n c l) p [] (f [])) in Hn by now rewrite length_rows.
  exact Hn.
Qed.


(** ** Runs: inversion of a successful bind, and relations every step respects *)

Lemma bind_ok {A B} (m : M A) (k : A -> M B) w b w' :
  bind m k w = (Ok b, w') -> exists a w1, m w = (Ok a, w1) /\ k a w1 = (Ok b, w').
Proof.
  unfold bind. destruct (m w) as [[a|e] w1]; [eauto | discriminate].
Qed.

Lemma lift_ok {A} (r : result A) w a w' : lift r w = (Ok a, w') -> r = Ok a /\ w' = w.
Proof. unfold lift. intros H; inversion H; auto. Qed.

Lemma gets_ok {A} (f : world -> A) w a w' : gets f w = (Ok a, w') -> a = f w /\ w' = w.
Proof. unfold gets. intros H; inversion H; auto. Qed.

Lemma modify_ok f w u w' : modify f w = (Ok u, w') -> w' = f w.
Proof. unfold modify. intros H; inversion H; auto. Qed.

Lemma ret_ok {A} (a : A) w b w' : ret a w = (Ok b, w') -> b = a /\ w' = w.
Proof. unfold ret. intros H; inversion H; auto. Qed.

Section Frame.

Variable Rel : world -> world -> Prop.
Variable allowed : event -> Prop.
Hypothesis Rel_refl : forall w, Rel w w.
Hypothesis Rel_trans : forall w1 w2 w3, Rel w1 w2 -> Rel w2 w3 -> Rel w1 w3.
Hypothesis Rel_hidden : forall h w, Rel w (set_hidden h w).
Hypothesis Rel_tag_space : forall t w, Rel w (set_tag_space t w).
Hypothesis Rel_y_prob : forall t w, Rel w (set_y_prob t w).
Hypothesis Rel_y_output : forall t w, Rel w (set_y_output t w).
Hypothesis Rel_loss_variable : forall l w, Rel w (set_loss_variable l w).
Hypothesis Rel_rng : forall g w, Rel w (set_rng g w).
Hypothesis Rel_emit : forall e w, allowed e -> Rel w (emit e w).

Lemma respects_ret {A} (a : A) : respects Rel (ret a).
Proof. intros w. apply Rel_refl. Qed.

Lemma respects_lift {A} (r : result A) : respects Rel (lift r).
Proof. intros w. apply Rel_refl. Qed.

Lemma respects_gets {A} (f : world -> A) : respects Rel (gets f).
Proof. intros w. apply Rel_refl. Qed.

Lemma respects_modify f : (forall w, Rel w (f w)) -> respects Rel (modify f).
Proof. intros H w. apply H. Qed.

Lemma respects_bind {A B} (m : M A) (k : A -> M B) :
  respects Rel m -> (forall a, respects Rel (k a)) -> respects Rel (bind m k).
Proof.
  intros Hm Hk w. unfold bind. specialize (Hm w).
  destruct (m w) as [[a|e] w1]; simpl in *; [|assumption].
  eapply Rel_trans; [exact Hm | apply Hk].
Qed.

Lemma respects_call_pretrain_model x sl :
  allowed (ModelCall x sl) -> respects Rel (call_pretrain_model x sl).
Proof.
  intros Ha. unfold call_pretrain_model.
  apply respects_bind; [apply respects_modify; intros; now apply Rel_emit|].
  intros _. apply respects_bind; [apply respects_gets|].
  intros w. destruct (pretrain_model (values w) (hidden w) x sl) as [[scores h]|e].
  - apply respects_modify. intros w0.
    eapply Rel_trans; [apply Rel_tag_space | apply Rel_hidden].
  - apply respects_lift.
Qed.

Lemma respects_reset_hidden n : allowed (InitHidden n) -> respects Rel (reset_hidden n).
Proof.
  intros Ha. apply respects_modify. intros w.
  eapply Rel_trans; [apply Rel_hidden | now apply Rel_emit].
Qed.

Lemma respects_uniform : respects Rel uniform.
Proof. intros w. apply Rel_rng. Qed.

Lemma respects_multinomial_rows rs : respects Rel (multinomial_rows rs).
Proof.
  induction rs as [|r rs IH]; simpl; [apply respects_ret|].
  apply respects_bind; [apply respects_uniform|]. intros u.
  apply respects_bind; [apply respects_lift|]. intros k.
  apply respects_bind; [exact IH|]. intros ks. apply respects_ret.
Qed.

Lemma respects_multinomial t : respects Rel (multinomial t).
Proof.
  unfold multinomial. destruct (shape t) as [|n [|c [|]]]; try apply respects_lift.
  destruct (c =? 0); [apply respects_lift|].
  apply respects_bind; [apply respects_multinomial_rows|]. intros; apply respects_ret.
Qed.

Lemma respects_Generator_forward x rewards ignored sl :
  allowed (ModelCall x None) -> respects Rel (Generator_forward x rewards ignored sl).
Proof.
  intros Ha. unfold Generator_forward.
  repeat first
    [ apply respects_ret
    | apply respects_lift
    | apply respects_gets
    | apply respects_multinomial
    | apply respects_call_pretrain_model; assumption
    | apply respects_modify; intros;
      first [apply Rel_tag_space | apply Rel_y_prob | apply Rel_y_output
            | apply Rel_loss_variable]
    | apply respects_bind; [|intros] ].
Qed.

Lemma respects_generate_loop n ignored : forall y y_all,
  (forall x, allowed (ModelCall x (Some [1%Z]))) ->
  respects Rel (generate_loop n ignored y y_all).
Proof.
  induction n as [|n IH]; intros y y_all Ha; simpl; [apply respects_ret|].
  repeat first
    [ apply IH; assumption
    | apply respects_lift
    | apply respects_gets
    | apply respects_multinomial
    | apply respects_call_pretrain_model; apply Ha
    | apply respects_modify; intros; apply Rel_tag_space
    | apply respects_bind; [|intros] ].
Qed.

End Frame.

Lemma same_but_rng_refl w : same_but_rng w w.
Proof. exists (rng w). destruct w; reflexivity. Qed.

Lemma same_but_rng_trans w1 w2 w3 :
  same_but_rng w1 w2 -> same_but_rng w2 w3 -> same_but_rng w1 w3.
Proof. intros [g1 ->] [g2 ->]. exists g2. reflexivity. Qed.

Lemma multinomial_same_but_rng t : respects same_but_rng (multinomial t).
Proof.
  apply respects_multinomial.
  - apply same_but_rng_refl.
  - apply same_but_rng_trans.
  - intros g w. now exists g.
Qed.

Lemma call_pretrain_model_ok x sl w u w' :
  call_pretrain_model x sl w = (Ok u, w') ->
  exists scores h,
    pretrain_model (values w) (hidden w) x sl = Ok (scores, h)
    /\ w' = set_hidden h (set_tag_space scores (emit (ModelCall x sl) w)).
Proof.
  unfold call_pretrain_model, bind, modify, gets. simpl.
  change (values (emit (ModelCall x sl) w)) with (values w).
  destruct (pretrain_model (values w) (hidden w) x sl) as [[scores h]|e]; simpl.
  - intros H; inversion H; subst. eauto.
  - unfold lift. discriminate.
Qed.

Ltac step_ok H x w1 Hx := apply bind_ok in H as (x & w1 & Hx & H).

Lemma Generator_forward_ok x rewards ignored sl w y w' :
  Generator_forward x rewards ignored sl w = (Ok y, w') ->
  exists scores h' masked probs g r loss,
    pretrain_model (values w) (hidden w) x None = Ok (scores, h')
    /\ ignoreTokens scores (effective_ignored ignored w) = Ok masked
    /\ softmax_dim2 fexp masked = Ok probs
    /\ effective_rewards rewards probs = Ok r
    /\ GeneratorLoss_forward VOCAB_SIZE probs x r = Ok loss
    /\ w' = set_loss_variable
              (Node loss (loss_graph (hidden w) x (effective_ignored ignored w) r))
              (set_y_output y
                 (set_rng g
                    (set_y_prob probs
                       (set_tag_space masked
                          (set_hidden h'
                             (set_tag_space scores (emit (ModelCall x None) w))))))).
Proof.
  unfold Generator_forward. intros H.
  step_ok H ig0 w1 H1. apply gets_ok in H1 as [-> ->].
  step_ok H h0 w1 H1. apply gets_ok in H1 as [-> ->].
  step_ok H u w1 H1. apply call_pretrain_model_ok in H1 as (scores & h' & Hm & ->).
  step_ok H ts w2 H2. apply gets_ok in H2 as [-> ->]. simpl in H.
  step_ok H ts w2 H2. apply lift_ok in H2 as [H2 ->]. injection H2 as <-.
  step_ok H masked w2 H2. apply lift_ok in H2 as [Hig ->].
  step_ok H u2 w2 H2. apply modify_ok in H2 as ->.
  step_ok H probs w2 H2. apply lift_ok in H2 as [Hsm ->].
  step_ok H u3 w2 H2. apply modify_ok in H2 as ->.
  step_ok H s0 w2 H2. apply lift_ok in H2 as [Hs0 ->].
  step_ok H s1 w2 H2. apply lift_ok in H2 as [Hs1 ->].
  step_ok H flat w2 H2. apply lift_ok in H2 as [Hflat ->].
  step_ok H samples w2 H2.
  pose proof (multinomial_same_but_rng flat
                (set_y_prob probs (set_tag_space masked
                   (set_hidden h' (set_tag_space scores (emit (ModelCall x None) w)))))) as [g Hg].
  rewrite H2 in Hg. simpl in Hg. subst w2.
  step_ok H yo w2 H3. apply lift_ok in H3 as [Hyo ->].
  step_ok H u4 w2 H3. apply modify_ok in H3 as ->.
  step_ok H r w2 H3. apply lift_ok in H3 as [Hr ->].
  step_ok H loss w2 H3. apply lift_ok in H3 as [Hloss ->].
  step_ok H u5 w2 H3. apply modify_ok in H3 as ->.
  apply ret_ok in H as [-> ->].
  exists scores, h', masked, probs, g, r, loss.
  repeat split; assumption || reflexivity.
Qed.

(** ** Gradient descent on a loss that is zero whatever the parameters *)

Lemma derivative_zero f a : (forall t, f t = 0%R) -> derivative f a = 0%R.
Proof.
  intros Hf. unfold derivative.
  destruct (excluded_middle_informative (exists l, derivable_pt_lim f a l)) as [pr|_];
    [|reflexivity].
  destruct (constructive_indefinite_description _ pr) as [l Hl]. simpl.
  apply (uniqueness_limite f a); [exact Hl|].
  intros eps Heps. exists (mkposreal 1 Rlt_0_1). intros h Hh _.
  rewrite !Hf. unfold Rminus, Rdiv. rewrite Rplus_opp_r, Rmult_0_l, Rplus_opp_r, Rabs_R0.
  exact Heps.
Qed.

Lemma loss_graph_zero h x ignored rewards theta :
  all_zero rewards -> loss_graph h x ignored rewards theta = 0%R.
Proof.
  intros Hz. unfold loss_graph.
  destruct (pretrain_model theta h x None) as [[scores h']|e]; [|reflexivity]. simpl.
  destruct (ignoreTokens scores ignored) as [masked|e]; [|reflexivity]. simpl.
  destruct (softmax_dim2 fexp masked) as [probs|e]; [|reflexivity]. simpl.
  destruct (GeneratorLoss_forward VOCAB_SIZE probs x rewards) as [v|e] eqn:E; [|reflexivity].
  simpl. eapply loss_zero_rewards; eassumption.
Qed.

Lemma slice_all_zero lo hi t t' : slice lo hi t = Ok t' -> all_zero t -> all_zero t'.
Proof.
  unfold slice, all_zero. destruct (shape t) as [|n rest]; [discriminate|].
  intros H; injection H as <-. simpl. intros Hz.
  now apply Forall_firstn, Forall_skipn.
Qed.

Lemma same_values_refl w : same_values w w.
Proof. reflexivity. Qed.

Lemma same_values_trans w1 w2 w3 :
  same_values w1 w2 -> same_values w2 w3 -> same_values w1 w3.
Proof. unfold same_values. congruence. Qed.

Lemma update_keeps_value loss_var theta i p :
  (forall th, graph loss_var th = 0%R) ->
  value (stepped (differentiated loss_var theta i (zeroed p))) = value p.
Proof.
  intros Hg. unfold zeroed, differentiated, stepped.
  destruct p as [v [|] g]; simpl; [|reflexivity].
  rewrite derivative_zero by (intros; apply Hg).
  destruct g as [g|]; simpl; lra.
Qed.

Lemma update_keeps_values loss_var theta ps : forall i,
  (forall th, graph loss_var th = 0%R) ->
  map value (map stepped (imap_from i (differentiated loss_var theta) (map zeroed ps)))
  = map value ps.
Proof.
  induction ps as [|p ps IH]; intros i Hg; [reflexivity|].
  simpl. rewrite update_keeps_value by assumption. now rewrite IH.
Qed.

Lemma optimizer_update_values loss_var w :
  (forall th, graph loss_var th = 0%R) ->
  values (snd ((zero_grad ;;; backward loss_var ;;; step) w)) = values w.
Proof.
  intros Hg. unfold zero_grad, backward, step, bind, modify. simpl.
  unfold values. simpl. unfold imap.
  now apply update_keeps_values.
Qed.

Lemma bind_post {A B} (P : world -> Prop) (m : M A) (k : A -> M B) w :
  (forall e w1, m w = (Raise e, w1) -> P w1) ->
  (forall a w1, m w = (Ok a, w1) -> P (snd (k a w1))) ->
  P (snd (bind m k w)).
Proof.
  intros He Hk. unfold bind. destruct (m w) as [[a|e] w1]; simpl; eauto.
Qed.

Lemma lift_any {A} (r : result A) w res w1 : lift r w = (res, w1) -> w1 = w.
Proof. unfold lift. intros H; now inversion H. Qed.

Lemma gets_any {A} (f : world -> A) w res w1 : gets f w = (res, w1) -> w1 = w.
Proof. unfold gets. intros H; now inversion H. Qed.

Lemma bind_gets {A B} (f : world -> A) (k : A -> M B) w : bind (gets f) k w = k (f w) w.
Proof. reflexivity. Qed.

Lemma bind_lift {A B} (a : A) (k : A -> M B) w : bind (lift (Ok a)) k w = k a w.
Proof. reflexivity. Qed.

Lemma bind_modify {B} f (k : unit -> M B) w : bind (modify f) k w = k tt (f w).
Proof. reflexivity. Qed.

Lemma Generator_forward_same_values x rewards ignored sl :
  respects same_values (Generator_forward x rewards ignored sl).
Proof.
  apply (respects_Generator_forward same_values (fun _ => True));
    try (intros; reflexivity); try exact I.
  apply same_values_trans.
Qed.

Lemma optimizer_then {A} loss_var (k : M A) w :
  (zero_grad ;;; backward loss_var ;;; step ;;; k) w = k (optimizer_update loss_var w).
Proof. reflexivity. Qed.

Lemma batch_step_same_values x reward sentence_lengths batch_size pointer :
  all_zero reward ->
  respects same_values (batch_step x reward sentence_lengths batch_size pointer).
Proof.
  intros Hz w. unfold same_values, batch_step.
  apply (bind_post (fun w' => values w' = values w)).
  { intros e w1 H. apply lift_any in H as ->. reflexivity. }
  intros x_batch w1 H. apply lift_ok in H as [Hx ->].
  apply (bind_post (fun w' => values w' = values w)).
  { intros e w1 H. apply lift_any in H as ->. reflexivity. }
  intros r_batch w1 H. apply lift_ok in H as [Hr ->].
  pose proof (slice_all_zero _ _ _ _ Hr Hz) as Hrz.
  apply (bind_post (fun w' => values w' = values w)).
  { intros e w1 H. unfold reset_hidden, modify in H. discriminate. }
  intros u w1 H. apply modify_ok in H as ->.
  set (w0 := emit (InitHidden batch_size) (set_hidden (init_hidden batch_size) w)).
  apply (bind_post (fun w' => values w' = values w)).
  { intros e w1 H.
    pose proof (Generator_forward_same_values x_batch (Some r_batch)
                  (Some (firstn batch_size (skipn pointer sentence_lengths))) None w0) as Hf.
    rewrite H in Hf. exact Hf. }
  intros y w1 H.
  apply Generator_forward_ok in H
    as (scores & h' & masked & probs & g & r & loss & _ & _ & _ & Er & _ & ->).
  injection Er as <-. cbv beta.
  rewrite bind_gets. simpl y_prob. simpl bound. rewrite bind_lift.
  rewrite bind_gets. simpl loss_variable. simpl bound. rewrite bind_lift.
  rewrite optimizer_then. unfold ret. simpl.
  unfold optimizer_update. rewrite optimizer_update_values; [reflexivity|].
  intros th. simpl. now apply loss_graph_zero.
Qed.

Lemma train_batch_same_values x reward sentence_lengths batch_size pointer l :
  all_zero reward ->
  respects same_values (train_batch x reward sentence_lengths batch_size pointer l).
Proof.
  intros Hz. unfold train_batch.
  apply (respects_bind same_values same_values_trans).
  - now apply batch_step_same_values.
  - intros [[p o] lv].
    repeat first
      [ apply (respects_ret same_values same_values_refl)
      | apply (respects_lift same_values same_values_refl)
      | apply (respects_bind same_values same_values_trans); [|intros] ].
Qed.

Lemma while_batches_same_values fuel x len_x reward sentence_lengths batch_size :
  all_zero reward ->
  forall pointer l,
    respects same_values
      (while_batches fuel x len_x reward sentence_lengths batch_size pointer l).
Proof.
  intros Hz. induction fuel as [|fuel IH]; intros pointer l; simpl;
    destruct (pointer + batch_size <=? len_x);
    try apply (respects_ret same_values same_values_refl);
    try apply (respects_lift same_values same_values_refl).
  apply (respects_bind same_values same_values_trans).
  - now apply train_batch_same_values.
  - intros l'. apply IH.
Qed.

Lemma train_epoch_same_values x len_x reward sentence_lengths batch_size epoch l :
  all_zero reward ->
  respects same_values (train_epoch x len_x reward sentence_lengths batch_size epoch l).
Proof.
  intros Hz. unfold train_epoch.
  apply (respects_bind same_values same_values_trans).
  - now apply while_batches_same_values.
  - intros l'.
    apply (respects_bind same_values same_values_trans);
      [apply (respects_lift same_values same_values_refl)|]. intros avg.
    apply (respects_bind same_values same_values_trans);
      [|intros; apply (respects_ret same_values same_values_refl)].
    apply respects_modify. intros w0. reflexivity.
Qed.

Lemma for_epochs_same_values epochs x len_x reward sentence_lengths batch_size :
  all_zero reward ->
  forall l, respects same_values
              (for_epochs epochs x len_x reward sentence_lengths batch_size l).
Proof.
  intros Hz. induction epochs as [|epoch epochs IH]; intros l; simpl.
  - apply (respects_ret same_values same_values_refl).
  - apply (respects_bind same_values same_values_trans).
    + now apply train_epoch_same_values.
    + intros l'. apply IH.
Qed.

Lemma SGD_same_world res w w' : SGD w = (res, w') -> w' = w.
Proof.
  unfold SGD. rewrite bind_gets.
  destruct (existsb requires_grad (parameters w)); intros H; now inversion H.
Qed.

(** C5: when the reward tensor handed to [train_generator] is zero at every
    position, the values of the parameters after the run, whatever the number
    of epochs and however the run ends, are the values before it. *)
Theorem zero_reward_keeps_parameters
  x reward iter_n_gen batch_size sentence_lengths w :
  all_zero reward ->
  values (snd (train_generator x (Some reward) iter_n_gen batch_size sentence_lengths w))
  = values w.
Proof.
  intros Hz.
  change (same_values w
            (snd (train_generator x (Some reward) iter_n_gen batch_size sentence_lengths w))).
  revert w. change (respects same_values
            (train_generator x (Some reward) iter_n_gen batch_size sentence_lengths)).
  unfold train_generator.
  apply (respects_bind same_values same_values_trans);
    [apply (respects_lift same_values same_values_refl)|]. intros x'.
  apply (respects_bind same_values same_values_trans);
    [apply (respects_lift same_values same_values_refl)|]. intros sls.
  simpl default_reward. intros w. rewrite bind_lift. revert w.
  apply (respects_bind same_values same_values_trans).
  { intros w. destruct (SGD w) as [res w'] eqn:E. apply SGD_same_world in E as ->. reflexivity. }
  intros _.
  apply (respects_bind same_values same_values_trans);
    [apply respects_modify; intros; reflexivity|]. intros _.
  apply (respects_bind same_values same_values_trans);
    [apply (respects_lift same_values same_values_refl)|]. intros len_x.
  apply (respects_bind same_values same_values_trans).
  2:{ intros l.
      repeat first
        [ apply (respects_ret same_values same_values_refl)
        | apply (respects_lift same_values same_values_refl)
        | apply respects_modify; intros; reflexivity
        | apply (respects_bind same_values same_values_trans); [|intros] ]. }
  apply for_epochs_same_values.
  exact Hz.
Qed.

Lemma normalize_x_len x x' n :
  normalize_x x = Ok x' -> len x' = Ok n -> n = num_sequences x.
Proof.
  unfold normalize_x, num_sequences, len, size, view.
  destruct x as [[|a [|b s]] d]; simpl.
  - intros H; injection H as <-. discriminate.
  - destruct (_ =? _); [|discriminate]. intros H; injection H as <-. simpl. congruence.
  - intros H; injection H as <-. simpl. congruence.
Qed.

Lemma for_epochs_oversized start n x len_x reward sentence_lengths batch_size l w :
  len_x < batch_size ->
  for_epochs (seq start n) x len_x reward sentence_lengths batch_size l w
  = match n with
    | O => (Ok l, w)
    | S _ => (Raise ZeroDivisionError, w)
    end.
Proof.
  intros Hlt. destruct n as [|n]; [reflexivity|].
  simpl. unfold train_epoch. simpl.
  assert (E : (batch_size <=? len_x) = false) by (apply Nat.leb_gt; lia).
  rewrite E. reflexivity.
Qed.

Lemma train_generator_oversized x reward iter_n_gen batch_size sentence_lengths w :
  num_sequences x < batch_size ->
  train_generator x reward iter_n_gen batch_size sentence_lengths w
  = match prelude x reward sentence_lengths w with
    | Raise e => (Raise e, w)
    | Ok _ =>
        match epochs_of iter_n_gen with
        | O => (Raise UnboundLocalError, emit LogClose (emit LogHeader w))
        | S _ => (Raise ZeroDivisionError, emit LogHeader w)
        end
    end.
Proof.
  intros Hlt. unfold train_generator, prelude.
  destruct (normalize_x x) as [x'|e] eqn:Ex; [|reflexivity].
  rewrite bind_lift. simpl rbind.
  destruct (default_sentence_lengths x' sentence_lengths) as [sls|e] eqn:Es; [|reflexivity].
  rewrite bind_lift. simpl rbind.
  destruct (default_reward x' reward) as [reward'|e]; [|reflexivity].
  rewrite bind_lift. simpl rbind.
  unfold SGD at 1. unfold bind at 1. rewrite bind_gets.
  destruct (existsb requires_grad (parameters w)); [|reflexivity].
  unfold ret at 1. cbv iota. rewrite bind_modify.
  destruct (len x') as [n|e] eqn:En.
  2:{ exfalso. unfold default_sentence_lengths, len, size in *.
      destruct (shape x') as [|a s]; [|discriminate].
      destruct sentence_lengths as [sl0|]; simpl in Es; discriminate. }
  rewrite bind_lift.
  pose proof (normalize_x_len _ _ _ Ex En) as ->.
  unfold bind at 1. rewrite (for_epochs_oversized 0) by assumption.
  fold (epochs_of iter_n_gen).
  destruct (epochs_of iter_n_gen) as [|k]; reflexivity.
Qed.

Lemma prelude_matrix a b x reward sentence_lengths w :
  shape x = [a; b] -> existsb requires_grad (parameters w) = true ->
  exists args, prelude x reward sentence_lengths w = Ok args.
Proof.
  intros Hs Hp. unfold prelude, normalize_x. rewrite Hs. simpl.
  unfold default_sentence_lengths, default_reward, size, len, view. rewrite Hs. simpl.
  assert (Hsl : exists sls,
             (let? sl := match sentence_lengths with
                         | Some sl => Ok sl
                         | None => Ok (repeat (Z.of_nat b) a)
                         end in
              if length sl <? a then Ok (sl ++ repeat (Z.of_nat b) (a - length sl)) else Ok sl)
             = Ok sls).
  { destruct sentence_lengths as [sl|]; simpl; destruct (_ <? a); eauto. }
  destruct Hsl as [sls ->]. simpl.
  destruct reward as [r|]; simpl.
  - rewrite Hp. eauto.
  - unfold numel. simpl. rewrite repeat_length, Nat.mul_1_r, Nat.eqb_refl. simpl.
    rewrite Hp. eauto.
Qed.

(** C10: with a batch size larger than the number of input sequences,
    [train_generator] raises instead of returning, the parameters are as
    before, and the run leaves nothing but log lines: no call of the
    pretrained model, no optimizer step.  On a matrix of sequences, with a
    trainable parameter and at least one epoch, what it raises is the
    division by zero of the average of the empty list of losses, in the first
    epoch: the run ends there, the log is not closed and the concatenation
    of the last line is not reached. *)
Theorem oversized_batch_fails x reward iter_n_gen batch_size sentence_lengths w :
  num_sequences x < batch_size ->
  let run := train_generator x reward iter_n_gen batch_size sentence_lengths w in
  (exists e, fst run = Raise e)
  /\ parameters (snd run) = parameters w
  /\ (exists logs, trace (snd run) = trace w ++ logs /\ Forall log_line logs)
  /\ (forall a b, shape x = [a; b] -> existsb requires_grad (parameters w) = true ->
        0 < epochs_of iter_n_gen ->
        run = (Raise ZeroDivisionError, emit LogHeader w)).
Proof.
  intros Hlt run. unfold run. rewrite train_generator_oversized by assumption.
  destruct (prelude x reward sentence_lengths w) as [args|e] eqn:Ep.
  - destruct (epochs_of iter_n_gen) as [|k]; simpl.
    + split; [eauto|]. split; [reflexivity|]. split.
      * exists [LogHeader; LogClose]. split; [now rewrite <- app_assoc|].
        constructor; [now left | constructor; [now right | constructor]].
      * intros; lia.
    + split; [eauto|]. split; [reflexivity|]. split.
      * exists [LogHeader]. split; [reflexivity|].
        constructor; [now left | constructor].
      * reflexivity.
  - simpl. split; [eauto|]. split; [reflexivity|]. split.
    + exists []. split; [now rewrite app_nil_r | constructor].
    + intros a b Hs Hp _. destruct (prelude_matrix a b x reward sentence_lengths w Hs Hp).
      congruence.
Qed.

Lemma bind_ext {A B} (m : M A) (k1 k2 : A -> M B) w :
  (forall a w1, k1 a w1 = k2 a w1) -> bind m k1 w = bind m k2 w.
Proof. intros H. unfold bind. destruct (m w) as [[a|e] w1]; auto. Qed.

Lemma bind_assoc {A B C} (m : M A) (f : A -> M B) (g : B -> M C) w :
  bind (bind m f) g w = bind m (fun a => bind (f a) g) w.
Proof. unfold bind. destruct (m w) as [[a|e] w1]; auto. Qed.

Lemma bind_ret {A B} (a : A) (k : A -> M B) w : bind (ret a) k w = k a w.
Proof. reflexivity. Qed.

Lemma while_batches_full x len_x reward sentence_lengths batch_size :
  1 <= batch_size ->
  forall k fuel pointer ps os ls w,
    (len_x - pointer) / batch_size = k -> k <= fuel ->
    while_batches fuel x len_x reward sentence_lengths batch_size pointer
                  (Locals (Some ps) (Some os) ls) w
    = bind (full_batches k x reward sentence_lengths batch_size pointer)
           (fun b => ret (Locals (Some (ps ++ map br_prob b)) (Some (os ++ map br_out b))
                                 (ls ++ map br_loss b))) w.
Proof.
  intros Hbs. induction k as [|k IH]; intros fuel pointer ps os ls w Hk Hfuel.
  - apply Nat.div_small_iff in Hk; [|lia].
    assert (E : (pointer + batch_size <=? len_x) = false) by (apply Nat.leb_gt; lia).
    simpl full_batches. rewrite bind_ret. simpl. rewrite !app_nil_r.
    destruct fuel; simpl; rewrite E; reflexivity.
  - assert (Hge : batch_size <= len_x - pointer).
    { destruct (Nat.lt_ge_cases (len_x - pointer) batch_size) as [Hlt|]; [|assumption].
      rewrite Nat.div_small in Hk by assumption. discriminate. }
    assert (E : (pointer + batch_size <=? len_x) = true) by (apply Nat.leb_le; lia).
    assert (Hk' : (len_x - (pointer + batch_size)) / batch_size = k).
    { replace (len_x - pointer) with ((len_x - (pointer + batch_size)) + 1 * batch_size) in Hk
        by lia.
      rewrite Nat.div_add in Hk by lia. lia. }
    destruct fuel as [|fuel]; [lia|].
    simpl while_batches. rewrite E. simpl full_batches.
    unfold train_batch. rewrite !bind_assoc.
    apply bind_ext. intros [[p o] lv] w1.
    cbv beta iota. simpl bound.
    repeat (rewrite bind_assoc || rewrite bind_lift || rewrite bind_ret).
    rewrite (IH fuel) by (assumption || lia).
    apply bind_ext. intros rest w2.
    rewrite bind_ret. simpl. unfold br_prob, br_out, br_loss. simpl.
    now rewrite <- !app_assoc.
Qed.

Lemma train_epoch_full x len_x reward sentence_lengths batch_size epoch l w :
  1 <= batch_size ->
  train_epoch x len_x reward sentence_lengths batch_size epoch l w
  = bind (full_batches (len_x / batch_size) x reward sentence_lengths batch_size 0)
         (fun b =>
            avg <- lift (average (map br_loss b)) ;;
            modify (emit (LogEpoch epoch avg)) ;;;
            ret (Locals (Some (map br_prob b)) (Some (map br_out b)) (map br_loss b))) w.
Proof.
  intros Hbs. unfold train_epoch.
  unfold bind at 1.
  rewrite (while_batches_full x len_x reward sentence_lengths batch_size Hbs
             (len_x / batch_size) (S len_x) 0 [] [] [] w).
  - unfold bind at 1 4.
    destruct (full_batches (len_x / batch_size) x reward sentence_lengths batch_size 0 w)
      as [[b|e] w1]; reflexivity.
  - now rewrite Nat.sub_0_r.
  - pose proof (Nat.Div0.div_le_upper_bound len_x batch_size len_x). 
    assert (len_x / batch_size <= len_x) by (apply Nat.Div0.div_le_upper_bound; nia). lia.
Qed.

Lemma for_epochs_snoc epochs epoch x len_x reward sentence_lengths batch_size :
  forall l w,
    for_epochs (epochs ++ [epoch]) x len_x reward sentence_lengths batch_size l w
    = bind (for_epochs epochs x len_x reward sentence_lengths batch_size l)
           (fun l' => train_epoch x len_x reward sentence_lengths batch_size epoch l') w.
Proof.
  induction epochs as [|e epochs IH]; intros l w; simpl.
  - rewrite bind_ret. unfold bind.
    destruct (train_epoch x len_x reward sentence_lengths batch_size epoch l w)
      as [[l'|err] w1]; reflexivity.
  - rewrite bind_assoc. apply bind_ext. intros l' w1. apply IH.
Qed.

Lemma bind_ext_l {A B} (m1 m2 : M A) (k : A -> M B) w :
  (forall w0, m1 w0 = m2 w0) -> bind m1 k w = bind m2 k w.
Proof. intros H. unfold bind. now rewrite H. Qed.

Lemma train_generator_as_last_epoch x reward n batch_size sentence_lengths w :
  1 <= batch_size ->
  train_generator x reward (Some (S n)) batch_size sentence_lengths w
  = last_epoch_only x reward n batch_size sentence_lengths w.
Proof.
  intros Hbs. unfold train_generator, last_epoch_only.
  apply bind_ext. intros x' w1.
  apply bind_ext. intros sls w2.
  apply bind_ext. intros reward' w3.
  apply bind_ext. intros _ w4.
  apply bind_ext. intros _ w5.
  apply bind_ext. intros len_x w6.
  rewrite (bind_ext_l _ (bind (for_epochs (seq 0 n) x' len_x reward' sls batch_size unbound)
                             (fun l' => train_epoch x' len_x reward' sls batch_size n l'))).
  2:{ intros w0. rewrite seq_S. apply for_epochs_snoc. }
  rewrite bind_assoc. apply bind_ext. intros l' w7.
  rewrite (bind_ext_l _ _ _ _ (fun w0 => train_epoch_full x' len_x reward' sls batch_size n l' w0 Hbs)).
  rewrite bind_assoc. apply bind_ext. intros b w8.
  rewrite bind_assoc. apply bind_ext. intros avg w9.
  rewrite bind_assoc. apply bind_ext. intros _ w10.
  rewrite bind_ret. reflexivity.
Qed.

(** ** What one turn of the training loop masks and calls *)









Lemma optimizer_update_tag_space loss_var w :
  tag_space (optimizer_update loss_var w) = tag_space w.
Proof. reflexivity. Qed.


(** ** Generation *)

Lemma bind_run {A B} (m : M A) (k : A -> M B) w a w1 :
  m w = (Ok a, w1) -> bind m k w = k a w1.
Proof. intros H. unfold bind. now rewrite H. Qed.

Lemma call_pretrain_model_run x sl w scores h :
  pretrain_model (values w) (hidden w) x sl = Ok (scores, h) ->
  call_pretrain_model x sl w
  = (Ok tt, set_hidden h (set_tag_space scores (emit (ModelCall x sl) w))).
Proof.
  intros H. unfold call_pretrain_model. rewrite bind_modify, bind_gets.
  change (values (emit (ModelCall x sl) w)) with (values w).
  change (hidden (emit (ModelCall x sl) w)) with (hidden w).
  rewrite H. reflexivity.
Qed.

Lemma ignoreTokens_total a b V (scores : tensor R) ignored :
  shape scores = [a; b; V] -> ignored_ok V ignored ->
  exists dm, ignoreTokens scores ignored = Ok (Tensor [a; b; V] dm)
             /\ length dm = length (data scores).
Proof.
  intros Hs Hi. destruct ignored as [tokens|].
  - eexists. rewrite (ignoreTokens_data V) by (auto; right; eauto).
    rewrite Hs. split; [reflexivity | apply length_fold_fill].
  - exists (data scores). split; [|reflexivity].
    destruct scores; simpl in *. now subst.
Qed.

Lemma sampling_succeeds a b V dm :
  V <> 0 -> (0 < EXP_UNDERFLOW)%R -> length dm = a * b * V ->
  exists dp flat,
    softmax_dim2 fexp (Tensor [a; b; V] dm) = Ok (Tensor [a; b; V] dp)
    /\ length dp = a * b * V
    /\ view_rows V (Tensor [a; b; V] dp) = Ok flat
    /\ forall w, uniform_draws w ->
         exists ks g,
           multinomial flat w = (Ok (Tensor [a * b; 1] ks), set_rng g w)
           /\ (forall i, 0 <= g i < 1)%R
           /\ length ks = a * b.
Proof.
  intros HV HT Hdm.
  set (n := a * b) in *.
  set (rs := map (softmax_vec fexp) (rows n V dm)).
  assert (Hrs_len : length rs = n) by (unfold rs; now rewrite length_map, length_rows).
  assert (Hrs_w : Forall (fun r => length r = V) rs).
  { apply Forall_forall. intros r Hr. apply in_map_iff in Hr as (r0 & <- & Hr0).
    unfold softmax_vec. rewrite length_map.
    pose proof (rows_widths n V dm Hdm) as Hall. rewrite Forall_forall in Hall. now apply Hall. }
  assert (Hrows : rows n V (concat rs) = rs).
  { rewrite <- Hrs_len at 1. now apply rows_concat. }
  assert (Hgood : Forall good_row (rows n V (concat rs))).
  { rewrite Hrows. apply Forall_forall. intros r Hr. apply in_map_iff in Hr as (r0 & <- & Hr0).
    apply good_softmax_row; [|assumption].
    pose proof (rows_widths n V dm Hdm) as Hall. rewrite Forall_forall in Hall.
    specialize (Hall _ Hr0). intros ->. simpl in Hall. congruence. }
  exists (concat rs), (Tensor [n; V] (concat rs)).
  split; [now rewrite (softmax_dim2_rows fexp a b V)|].
  split; [now rewrite (length_concat_const V), Hrs_len|]. split.
  { unfold view_rows, numel. simpl.
    apply Nat.eqb_neq in HV as HV'. rewrite HV'.
    rewrite (length_concat_const V), Hrs_len by assumption.
    rewrite Nat.Div0.mod_mul, Nat.div_mul by assumption. reflexivity. }
  intros w Hw.
  destruct (multinomial_support n V (concat rs) w HV Hw Hgood) as (ks & g & E & Hg & Hks).
  exists ks, g. split; [exact E|]. split; [exact Hg|].
  apply Forall2_length in Hks. now rewrite length_rows in Hks.
Qed.

Lemma nth_zip_with {A B C} (f : A -> B -> C) l1 l2 i d1 d2 d :
  i < length l1 -> i < length l2 ->
  nth i (zip_with f l1 l2) d = f (nth i l1 d1) (nth i l2 d2).
Proof.
  revert l2 i; induction l1 as [|a l1 IH]; intros [|b l2] [|i] H1 H2; simpl in *;
    try lia; [reflexivity|]. apply IH; lia.
Qed.

Lemma cat_column {A} bs c (dall ys : list A) d :
  length dall = bs * c -> length ys = bs -> 1 <= c ->
  exists dnew,
    cat_dim1 (Tensor [bs; c] dall) (Tensor [bs; 1] ys) = Ok (Tensor [bs; c + 1] dnew)
    /\ length dnew = bs * (c + 1)
    /\ forall i, i < bs -> nth (i * (c + 1)) dnew d = nth (i * c) dall d.
Proof.
  intros Hall Hys Hc.
  set (rs := zip_with (@app A) (rows bs c dall) (rows bs 1 ys)).
  assert (Hys' : length ys = bs * 1) by lia.
  assert (Hlen : length rs = bs).
  { unfold rs. rewrite length_zip_with, !length_rows. lia. }
  assert (Hw : Forall (fun r => length r = c + 1) rs).
  { apply Forall_forall. intros r Hr. apply (In_nth _ _ []) in Hr as (i & Hi & <-).
    rewrite Hlen in Hi. unfold rs.
    rewrite (nth_zip_with _ _ _ i [] [] []) by now rewrite length_rows.
    rewrite length_app, !nth_rows_length by assumption. reflexivity. }
  exists (concat rs). split; [|split].
  - unfold cat_dim1. simpl. now rewrite Nat.eqb_refl.
  - now rewrite (length_concat_const (c + 1)), Hlen.
  - intros i Hi.
    rewrite (nth_concat_const (c + 1)) by (auto; rewrite Hlen; nia).
    rewrite Nat.div_mul, Nat.Div0.mod_mul by lia.
    unfold rs. rewrite (nth_zip_with _ _ _ i [] [] []) by now rewrite length_rows.
    rewrite app_nth1 by (rewrite nth_rows_length by assumption; lia).
    rewrite nth_nth_rows by (assumption || lia). now rewrite Nat.add_0_r.
Qed.

Lemma generate_loop_columns V ignored bs :
  V <> 0 -> (0 < EXP_UNDERFLOW)%R -> scores_one_position V -> ignored_ok V ignored ->
  forall n c y dall w,
    numel y = bs -> length dall = bs * c -> 1 <= c -> uniform_draws w ->
    exists dt w',
      generate_loop n ignored y (Tensor [bs; c] dall) w = (Ok (Tensor [bs; c + n] dt), w')
      /\ length dt = bs * (c + n)
      /\ forall i, i < bs -> nth (i * (c + n)) dt 0%Z = nth (i * c) dall 0%Z.
Proof.
  intros HV HT Hmodel Hig.
  induction n as [|n IH]; intros c y dall w Hy Hall Hc Hw.
  - exists dall, w. rewrite Nat.add_0_r. simpl. unfold ret. auto.
  - simpl generate_loop. rewrite Hy.
    destruct (Hmodel (values w) (hidden w) bs (data y) Hy) as (d & h' & Em & Hd).
    rewrite (bind_run _ _ _ _ _ (call_pretrain_model_run _ _ _ _ _ Em)).
    rewrite bind_gets. simpl tag_space. cbv beta iota. rewrite bind_lift.
    destruct (ignoreTokens_total bs 1 V (Tensor [bs; 1; V] d) ignored eq_refl Hig)
      as (dm & Emask & Hdm).
    rewrite Emask, bind_lift, bind_modify.
    set (w2 := set_tag_space _ _).
    assert (Hw2 : uniform_draws w2) by (intros i; apply Hw).
    simpl in Hdm. rewrite Hd in Hdm.
    destruct (sampling_succeeds bs 1 V dm HV HT Hdm)
      as (dp & flat & Esm & Hdp & Eflat & Hsample).
    destruct (Hsample w2 Hw2) as (ks & g & Emul & Hg & Hks).
    rewrite Esm, bind_lift.
    unfold size. simpl nth_error. cbv beta iota. rewrite !bind_lift.
    simpl last. rewrite Eflat, bind_lift.
    rewrite (bind_run _ _ _ _ _ Emul).
    assert (Eview : view [bs; 1] (Tensor (shape (Tensor [bs * 1; 1] ks))
                                         (map float32 (data (Tensor [bs * 1; 1] ks))))
                    = Ok (Tensor [bs; 1] (map float32 ks))).
    { unfold view, numel. simpl. rewrite length_map, Hks.
      replace (bs * 1) with bs by lia. now rewrite Nat.eqb_refl. }
    rewrite Eview, bind_lift.
    assert (Hys : length (map float32 ks) = bs) by (rewrite length_map; lia).
    destruct (cat_column bs c dall (map float32 ks) 0%Z Hall Hys Hc)
      as (dnew & Ecat & Hnew & Hfirst).
    rewrite Ecat, bind_lift.
    assert (Hw3 : uniform_draws (set_rng g w2)) by (intros i; apply Hg).
    destruct (IH (c + 1) (Tensor [bs; 1] (map float32 ks)) dnew (set_rng g w2))
      as (dt & w' & Eloop & Hdt & Hdt_first); auto; try lia.
    exists dt, w'. replace (c + S n) with (c + 1 + n) by lia.
    split; [exact Eloop|]. split; [exact Hdt|].
    intros i Hi. rewrite Hdt_first by assumption. now apply Hfirst.
Qed.

Lemma float32_exact z : (Z.abs z < 2 ^ 24)%Z -> float32 z = z.
Proof.
  intros H. unfold float32. apply Z.ltb_lt in H. now rewrite H.
Qed.

(** The first column of what [generate] returns is the start token as the
    float tensor of line 65 holds it. *)
Lemma generate_first_column start ignored batch_size w :
  1 <= SEQ_LENGTH ->
  VOCAB_SIZE <> 0 ->
  (0 < EXP_UNDERFLOW)%R ->
  scores_one_position VOCAB_SIZE ->
  ignored_ok VOCAB_SIZE (effective_ignored ignored w) ->
  uniform_draws w ->
  exists t w',
    generate start ignored batch_size w = (Ok t, w')
    /\ shape t = [batch_size; SEQ_LENGTH]
    /\ forall i, i < batch_size ->
         nth (i * SEQ_LENGTH) (data t) 0%Z = float32 (effective_start start w).
Proof.
  intros Hseq HV HT Hmodel Hig Hw.
  unfold generate. rewrite bind_gets, bind_gets.
  fold (effective_start start w). fold (effective_ignored ignored w).
  unfold generate_LSTMCore.
  unfold reset_hidden. rewrite bind_modify.
  set (w1 := emit _ _).
  assert (Hw1 : uniform_draws w1) by (intros i; apply Hw).
  unfold numel. simpl data. rewrite repeat_length.
  destruct (generate_loop_columns VOCAB_SIZE (effective_ignored ignored w) batch_size
              HV HT Hmodel Hig (SEQ_LENGTH - 1) 1
              (Tensor [batch_size] (repeat (float32 (effective_start start w)) batch_size))
              (repeat (float32 (effective_start start w)) batch_size) w1)
    as (dt & w' & Eloop & Hdt & Hfirst).
  - unfold numel. simpl. apply repeat_length.
  - rewrite repeat_length. lia.
  - lia.
  - exact Hw1.
  - replace (1 + (SEQ_LENGTH - 1)) with SEQ_LENGTH in * by lia.
    exists (Tensor [batch_size; SEQ_LENGTH] dt), w'.
    split; [exact Eloop|]. split; [reflexivity|].
    intros i Hi. simpl. rewrite Hfirst by assumption.
    rewrite Nat.mul_1_r. apply nth_repeat_lt. exact Hi.
Qed.

(** C4: for every batch size and every start token that a single-precision
    float holds exactly, with a pretrained model that scores the vocabulary
    once per sequence and an ignore set of valid indices, [generate] returns
    a tensor of [batch_size] rows of [SEQ_LENGTH] token ids, each row
    beginning with the start token. *)
Theorem generate_rows_start_with_start_token start ignored batch_size w :
  1 <= batch_size ->
  1 <= SEQ_LENGTH ->
  VOCAB_SIZE <> 0 ->
  (0 < EXP_UNDERFLOW)%R ->
  scores_one_position VOCAB_SIZE ->
  ignored_ok VOCAB_SIZE (effective_ignored ignored w) ->
  (Z.abs (effective_start start w) < 2 ^ 24)%Z ->
  uniform_draws w ->
  exists t w',
    generate start ignored batch_size w = (Ok t, w')
    /\ shape t = [batch_size; SEQ_LENGTH]
    /\ wf t
    /\ forall i, i < batch_size ->
         nth (i * SEQ_LENGTH) (data t) 0%Z = effective_start start w.
Proof.
  intros _ Hseq HV HT Hmodel Hig Hst Hw.
  unfold generate. rewrite bind_gets, bind_gets.
  fold (effective_start start w). fold (effective_ignored ignored w).
  unfold generate_LSTMCore. rewrite float32_exact by assumption.
  unfold reset_hidden. rewrite bind_modify.
  set (w1 := emit _ _).
  assert (Hw1 : uniform_draws w1) by (intros i; apply Hw).
  unfold numel. simpl data. rewrite repeat_length.
  destruct (generate_loop_columns VOCAB_SIZE (effective_ignored ignored w) batch_size
              HV HT Hmodel Hig (SEQ_LENGTH - 1) 1
              (Tensor [batch_size] (repeat (effective_start start w) batch_size))
              (repeat (effective_start start w) batch_size) w1)
    as (dt & w' & Eloop & Hdt & Hfirst).
  - unfold numel. simpl. apply repeat_length.
  - rewrite repeat_length. lia.
  - lia.
  - exact Hw1.
  - replace (1 + (SEQ_LENGTH - 1)) with SEQ_LENGTH in * by lia.
    exists (Tensor [batch_size; SEQ_LENGTH] dt), w'.
    split; [exact Eloop|]. split; [reflexivity|]. split.
    + unfold wf. simpl. rewrite Hdt. lia.
    + intros i Hi. simpl. rewrite Hfirst by assumption.
      rewrite Nat.mul_1_r. apply nth_repeat_lt. exact Hi.
Qed.

(** ** A run that completes *)

Lemma slice_block {A} n rest lo k (t : tensor A) :
  shape t = n :: rest -> length (data t) = n * prod rest -> lo + k <= n ->
  exists d,
    slice lo (lo + k) t = Ok (Tensor (k :: rest) d)
    /\ length d = k * prod rest
    /\ forall P : A -> Prop, Forall P (data t) -> Forall P d.
Proof.
  intros Hs Hl Hk. unfold slice. rewrite Hs.
  rewrite (Nat.min_l lo n), (Nat.min_l (lo + k) n) by lia.
  replace (lo + k - lo) with k by lia.
  eexists. split; [reflexivity|]. split.
  - rewrite length_firstn, length_skipn, Hl. nia.
  - intros P HP. now apply Forall_firstn, Forall_skipn.
Qed.

Lemma Generator_forward_returns n S dx sr dr ignored sl w :
  VOCAB_SIZE <> 0 -> (0 < EXP_UNDERFLOW)%R ->
  scores_every_position S VOCAB_SIZE ->
  length dx = n * S -> Forall (in_vocab VOCAB_SIZE) dx ->
  length dr = n * S ->
  ignored_ok VOCAB_SIZE (effective_ignored ignored w) ->
  uniform_draws w ->
  exists dy dp lv w',
    Generator_forward (Tensor [n; S] dx) (Some (Tensor sr dr)) ignored sl w
    = (Ok (Tensor [n; S] dy), w')
    /\ length dy = n * S
    /\ y_prob w' = Some (Tensor [n; S; VOCAB_SIZE] dp)
    /\ length dp = n * S * VOCAB_SIZE
    /\ loss_variable w' = Some lv
    /\ uniform_draws w'.
Proof.
  intros HV HT Hmodel Hdx Hvoc Hdr Hig Hw.
  unfold Generator_forward. rewrite bind_gets, bind_gets.
  fold (effective_ignored ignored w).
  destruct (Hmodel (values w) (hidden w) n dx Hdx) as (d & h' & Em & Hd).
  rewrite (bind_run _ _ _ _ _ (call_pretrain_model_run _ _ _ _ _ Em)).
  rewrite bind_gets. simpl tag_space. cbv beta iota. rewrite bind_lift.
  destruct (ignoreTokens_total n S VOCAB_SIZE (Tensor [n; S; VOCAB_SIZE] d)
              (effective_ignored ignored w) eq_refl Hig) as (dm & Emask & Hdm).
  rewrite Emask, bind_lift, bind_modify.
  simpl in Hdm. rewrite Hd in Hdm.
  destruct (sampling_succeeds n S VOCAB_SIZE dm HV HT Hdm)
    as (dp & flat & Esm & Hdp & Eflat & Hsample).
  rewrite Esm, bind_lift, bind_modify.
  set (w3 := set_y_prob _ _).
  assert (Hw3 : uniform_draws w3) by (intros i; apply Hw).
  destruct (Hsample w3 Hw3) as (ks & g & Emul & Hg & Hks).
  unfold size. simpl nth_error. cbv beta iota. rewrite !bind_lift.
  simpl last. rewrite Eflat, bind_lift.
  rewrite (bind_run _ _ _ _ _ Emul).
  assert (Eview : view [n; S] (Tensor [n * S; 1] ks) = Ok (Tensor [n; S] ks)).
  { unfold view, numel. simpl. rewrite Hks, Nat.mul_1_r, Nat.eqb_refl. reflexivity. }
  rewrite Eview, bind_lift, bind_modify, bind_lift.
  assert (Hp' : length dp = length dx * VOCAB_SIZE) by (rewrite Hdp, Hdx; reflexivity).
  assert (Hr' : length dr = length dx) by (rewrite Hdr, Hdx; reflexivity).
  rewrite (loss_well_shaped VOCAB_SIZE _ _ sr dp dx dr HV Hp' Hr' Hvoc).
  rewrite bind_lift, bind_modify.
  eexists ks, dp, _, _. split; [reflexivity|].
  split; [exact Hks|]. split; [reflexivity|]. split; [exact Hdp|].
  split; [reflexivity|]. intros i. apply Hg.
Qed.

Lemma optimizer_update_rng loss_var w : rng (optimizer_update loss_var w) = rng w.
Proof. reflexivity. Qed.

Section CompleteRun.

Variables L S : nat.
Variables (dx : list Z) (dr : list R) (sls : list Z) (batch_size : nat).
Hypothesis vocabulary : VOCAB_SIZE <> 0.
Hypothesis underflow : (0 < EXP_UNDERFLOW)%R.
Hypothesis model : scores_every_position S VOCAB_SIZE.
Hypothesis dx_length : length dx = L * S.
Hypothesis dx_tokens : Forall (in_vocab VOCAB_SIZE) dx.
Hypothesis dr_length : length dr = L * S.
Hypothesis sls_valid : Forall (valid_index VOCAB_SIZE) sls.

Lemma batch_step_returns pointer w :
  pointer + batch_size <= L -> uniform_draws w ->
  exists b w',
    batch_step (Tensor [L; S] dx) (Tensor [L; S] dr) sls batch_size pointer w = (Ok b, w')
    /\ batch_shaped batch_size S VOCAB_SIZE b
    /\ uniform_draws w'.
Proof.
  intros Hp Hw. unfold batch_step.
  destruct (slice_block L [S] pointer batch_size (Tensor [L; S] dx)) as (xb & Ex & Hxb & Hxb_in);
    [reflexivity | simpl; lia | assumption |].
  destruct (slice_block L [S] pointer batch_size (Tensor [L; S] dr)) as (rb & Er & Hrb & _);
    [reflexivity | simpl; lia | assumption |].
  simpl prod in Hxb, Hrb. rewrite Nat.mul_1_r in Hxb, Hrb.
  rewrite Ex, bind_lift, Er, bind_lift.
  unfold reset_hidden. rewrite bind_modify.
  set (w1 := emit _ _).
  assert (Hw1 : uniform_draws w1) by (intros i; apply Hw).
  set (s_length := firstn batch_size (skipn pointer sls)).
  assert (Hs : ignored_ok VOCAB_SIZE (effective_ignored (Some s_length) w1)).
  { simpl. unfold s_length. now apply Forall_firstn, Forall_skipn. }
  destruct (Generator_forward_returns batch_size S xb [batch_size; S] rb (Some s_length) None w1
              vocabulary underflow model Hxb (Hxb_in _ dx_tokens) Hrb Hs Hw1)
    as (dy & dp & lv & w2 & Ef & Hdy & Hprob & Hdp & Hlv & Hw2).
  rewrite (bind_run _ _ _ _ _ Ef).
  rewrite bind_gets, Hprob. simpl bound. rewrite bind_lift.
  rewrite bind_gets, Hlv. simpl bound. rewrite bind_lift.
  rewrite optimizer_then. unfold ret.
  eexists; eexists. split; [reflexivity|]. split.
  - split; [exists dp | exists dy]; split; auto.
  - intros i. rewrite optimizer_update_rng. apply Hw2.
Qed.

Lemma full_batches_returns k : forall pointer w,
  pointer + k * batch_size <= L -> uniform_draws w ->
  exists bs w',
    full_batches k (Tensor [L; S] dx) (Tensor [L; S] dr) sls batch_size pointer w = (Ok bs, w')
    /\ length bs = k
    /\ Forall (batch_shaped batch_size S VOCAB_SIZE) bs
    /\ uniform_draws w'.
Proof.
  induction k as [|k IH]; intros pointer w Hp Hw.
  - exists [], w. simpl. unfold ret. auto.
  - simpl full_batches.
    destruct (batch_step_returns pointer w) as (b & w1 & Eb & Hb & Hw1); [simpl in Hp; lia | assumption |].
    rewrite (bind_run _ _ _ _ _ Eb).
    destruct (IH (pointer + batch_size) w1) as (bs & w2 & Ebs & Hlen & Hbs & Hw2);
      [simpl in Hp; lia | assumption |].
    rewrite (bind_run _ _ _ _ _ Ebs). unfold ret.
    exists (b :: bs), w2. simpl. auto.
Qed.

Lemma train_epoch_returns epoch l w :
  1 <= batch_size -> batch_size <= L -> uniform_draws w ->
  exists bs w',
    train_epoch (Tensor [L; S] dx) L (Tensor [L; S] dr) sls batch_size epoch l w
    = (Ok (Locals (Some (map br_prob bs)) (Some (map br_out bs)) (map br_loss bs)), w')
    /\ length bs = L / batch_size
    /\ Forall (batch_shaped batch_size S VOCAB_SIZE) bs
    /\ uniform_draws w'.
Proof.
  intros H1 HL Hw. rewrite train_epoch_full by assumption.
  destruct (full_batches_returns (L / batch_size) 0 w) as (bs & w1 & Ebs & Hlen & Hbs & Hw1);
    [|assumption|].
  { simpl. rewrite Nat.mul_comm. apply Nat.Div0.mul_div_le. }
  rewrite (bind_run _ _ _ _ _ Ebs).
  assert (Hk : 1 <= L / batch_size) by (apply Nat.div_le_lower_bound; lia).
  destruct bs as [|b bs]; [simpl in Hlen; lia|].
  simpl average. rewrite bind_lift, bind_modify. unfold ret.
  eexists (b :: bs), _. split; [reflexivity|]. split; [exact Hlen|]. split; [exact Hbs|].
  intros i. apply Hw1.
Qed.

Lemma for_epochs_returns epochs : forall l w,
  1 <= batch_size -> batch_size <= L -> uniform_draws w ->
  exists l' w',
    for_epochs epochs (Tensor [L; S] dx) L (Tensor [L; S] dr) sls batch_size l w = (Ok l', w')
    /\ uniform_draws w'.
Proof.
  induction epochs as [|epoch epochs IH]; intros l w H1 HL Hw.
  - exists l, w. simpl. unfold ret. auto.
  - simpl for_epochs.
    destruct (train_epoch_returns epoch l w H1 HL Hw) as (bs & w1 & E & _ & _ & Hw1).
    rewrite (bind_run _ _ _ _ _ E). now apply IH.
Qed.

End CompleteRun.

Lemma cat_blocks {A} n rest (ts : list (tensor A)) :
  ts <> [] ->
  Forall (fun t => shape t = n :: rest /\ length (data t) = n * prod rest) ts ->
  exists d,
    cat ts = Ok (Tensor (length ts * n :: rest) d)
    /\ length d = length ts * n * prod rest.
Proof.
  intros Hne Hall.
  assert (Hcheck : forallb (fun t' => if list_eq_dec Nat.eq_dec (tl (shape t')) rest
                                      then negb (length (shape t') =? 0) else false) ts = true).
  { apply forallb_forall. intros t Ht. rewrite Forall_forall in Hall.
    destruct (Hall t Ht) as [Hs _]. rewrite Hs. simpl.
    destruct (list_eq_dec Nat.eq_dec rest rest); [reflexivity | congruence]. }
  assert (Hsum : list_sum (map (fun t' => hd 0 (shape t')) ts) = length ts * n).
  { clear Hne Hcheck. induction Hall as [|t ts [Hs _] _ IH]; [reflexivity|].
    simpl. rewrite Hs, IH. reflexivity. }
  assert (Hlen : length (concat (map data ts)) = length ts * n * prod rest).
  { clear Hne Hcheck Hsum. induction Hall as [|t ts [_ Hd] _ IH]; [reflexivity|].
    simpl. rewrite length_app, IH, Hd. lia. }
  destruct ts as [|t ts]; [congruence|].
  inversion Hall as [|? ? [Hs _] _]; subst.
  exists (concat (map data (t :: ts))). split; [|exact Hlen].
  unfold cat. rewrite Hs, Hcheck, Hsum. reflexivity.
Qed.

Lemma default_reward_shaped L S dx reward :
  reward_shaped L S reward ->
  exists dr, default_reward (Tensor [L; S] dx) reward = Ok (Tensor [L; S] dr)
             /\ length dr = L * S.
Proof.
  destruct reward as [[sr dr]|]; simpl.
  - intros [-> Hwf]. exists dr. split; [reflexivity|].
    unfold wf in Hwf. simpl in Hwf. lia.
  - intros _. exists (repeat 1%R (L * S)).
    split; [|apply repeat_length].
    unfold view, numel. simpl. rewrite repeat_length, Nat.mul_1_r, Nat.eqb_refl.
    reflexivity.
Qed.

Lemma train_generator_returns L S x reward n batch_size sentence_lengths w :
  shape x = [L; S] -> wf x -> Forall (in_vocab VOCAB_SIZE) (data x) ->
  reward_shaped L S reward ->
  Forall (valid_index VOCAB_SIZE) (effective_lengths L S sentence_lengths) ->
  VOCAB_SIZE <> 0 -> (0 < EXP_UNDERFLOW)%R ->
  scores_every_position S VOCAB_SIZE ->
  existsb requires_grad (parameters w) = true ->
  1 <= batch_size -> 1 <= L -> L mod batch_size = 0 ->
  uniform_draws w ->
  exists P O w',
    last_epoch_only x reward n batch_size sentence_lengths w = (Ok (P, O), w')
    /\ shape P = [L; S; VOCAB_SIZE]
    /\ shape O = [L; S].
Proof.
  destruct x as [sx dx]. simpl. intros -> Hwf Hvoc Hrew Hsls HV HT Hmodel Hpar Hbs HL Hdiv Hw.
  unfold wf in Hwf. simpl in Hwf. rewrite Nat.mul_1_r in Hwf.
  assert (Hle : batch_size <= L).
  { apply Nat.Div0.mod_divides in Hdiv as [c Hc]. destruct c; nia. }
  unfold last_epoch_only.
  unfold normalize_x. simpl. rewrite bind_lift.
  assert (Esl : default_sentence_lengths (Tensor [L; S] dx) sentence_lengths
                = Ok (effective_lengths L S sentence_lengths)).
  { unfold default_sentence_lengths, effective_lengths, size, len. simpl.
    destruct sentence_lengths as [sl|]; simpl; destruct (_ <? L); reflexivity. }
  rewrite Esl, bind_lift.
  destruct (default_reward_shaped L S dx reward Hrew) as (dr & Er & Hdr).
  rewrite Er, bind_lift.
  unfold SGD at 1. unfold bind at 1. rewrite bind_gets, Hpar.
  unfold ret at 1. cbv iota. rewrite bind_modify.
  unfold len at 1. simpl shape. cbv iota. rewrite bind_lift.
  set (w1 := emit LogHeader w).
  assert (Hw1 : uniform_draws w1) by (intros i; apply Hw).
  destruct (for_epochs_returns L S dx dr (effective_lengths L S sentence_lengths) batch_size
              HV HT Hmodel Hwf Hvoc Hdr Hsls (seq 0 n) unbound w1 Hbs Hle Hw1)
    as (l' & w2 & Eep & Hw2).
  rewrite (bind_run _ _ _ _ _ Eep).
  destruct (full_batches_returns L S dx dr (effective_lengths L S sentence_lengths) batch_size
              HV HT Hmodel Hwf Hvoc Hdr Hsls (L / batch_size) 0 w2)
    as (bs & w3 & Ebs & Hlen & Hbs_shaped & Hw3); [|assumption|].
  { simpl. rewrite Nat.mul_comm. apply Nat.Div0.mul_div_le. }
  rewrite (bind_run _ _ _ _ _ Ebs).
  assert (Hk : 1 <= L / batch_size) by (apply Nat.div_le_lower_bound; lia).
  assert (Hne : bs <> []) by (intros ->; simpl in Hlen; lia).
  assert (Eavg : exists avg, average (map br_loss bs) = Ok avg).
  { destruct bs as [|b bs']; [congruence|]. simpl. eauto. }
  destruct Eavg as [avg ->]. rewrite bind_lift, !bind_modify.
  assert (HLk : length bs * batch_size = L).
  { rewrite Hlen, Nat.mul_comm. symmetry. now apply Nat.Div0.div_exact. }
  destruct (cat_blocks batch_size [S; VOCAB_SIZE] (map br_prob bs)) as (dP & EP & HP).
  { destruct bs; [congruence | discriminate]. }
  { apply Forall_forall. intros t Ht. apply in_map_iff in Ht as (b & <- & Hb).
    rewrite Forall_forall in Hbs_shaped. destruct (Hbs_shaped b Hb) as [(dp & -> & Hdp) _].
    simpl. split; [reflexivity | lia]. }
  destruct (cat_blocks batch_size [S] (map br_out bs)) as (dO & EO & HO).
  { destruct bs; [congruence | discriminate]. }
  { apply Forall_forall. intros t Ht. apply in_map_iff in Ht as (b & <- & Hb).
    rewrite Forall_forall in Hbs_shaped. destruct (Hbs_shaped b Hb) as [_ (dy & -> & Hdy)].
    simpl. split; [reflexivity | lia]. }
  rewrite length_map, HLk in EP, HP, EO, HO.
  rewrite EP, bind_lift, EO, bind_lift.
  assert (Eview : view [L; S] (Tensor [L; S] dO) = Ok (Tensor [L; S] dO)).
  { unfold view, numel. simpl. simpl in HO. rewrite HO, Nat.eqb_refl. reflexivity. }
  simpl shape. rewrite Eview, bind_lift. unfold ret.
  eexists; eexists; eexists. split; [reflexivity|]. split; reflexivity.
Qed.

(** C6: for every number of epochs that is at least one, and a batch size of
    at least one, [train_generator] behaves in every respect as the run that
    drops whatever the earlier epochs collected and concatenates the
    probability and output tensors of exactly the [len(x) / batch_size] full
    batches of the last epoch.  And it does return: on [L >= 1] sequences of
    [W] tokens of the vocabulary, with a batch size that divides [L],
    sentence lengths that are valid vocabulary indices, a trainable
    parameter, and a pretrained model that scores every position, the
    probabilities have shape [L; W; VOCAB_SIZE] and the outputs the shape of
    [x]. *)
Theorem returns_last_epoch_only L W x reward n batch_size sentence_lengths w :
  1 <= batch_size ->
  train_generator x reward (Some (S n)) batch_size sentence_lengths w
  = last_epoch_only x reward n batch_size sentence_lengths w
  /\ (shape x = [L; W] -> wf x -> Forall (in_vocab VOCAB_SIZE) (data x) ->
      reward_shaped L W reward ->
      Forall (valid_index VOCAB_SIZE) (effective_lengths L W sentence_lengths) ->
      VOCAB_SIZE <> 0 -> (0 < EXP_UNDERFLOW)%R ->
      scores_every_position W VOCAB_SIZE ->
      existsb requires_grad (parameters w) = true ->
      1 <= L -> L mod batch_size = 0 ->
      uniform_draws w ->
      exists P O w',
        train_generator x reward (Some (S n)) batch_size sentence_lengths w = (Ok (P, O), w')
        /\ shape P = [L; W; VOCAB_SIZE]
        /\ shape O = [L; W]).
Proof.
  intros Hbs. split; [now apply train_generator_as_last_epoch|].
  intros. rewrite train_generator_as_last_epoch by assumption.
  now apply train_generator_returns.
Qed.

(** ** The loss: reduction, sign, rejected inputs *)

Lemma loss_reduced V sp sx dp dx (rewards : tensor R) :
  V <> 0 ->
  length dp = length dx * V ->
  Forall (in_vocab V) dx ->
  GeneratorLoss_forward V (Tensor sp dp) (Tensor sx dx) rewards
  = let? d := broadcast Rmult (log_probs V dp dx) (data rewards) in Ok (Rsum d).
Proof.
  intros HV Hp Hx.
  set (N := length dx) in *.
  unfold GeneratorLoss_forward, view_rows, numel. simpl data.
  rewrite Nat.mod_1_r, Nat.div_1_r. simpl (1 =? 0). simpl (0 =? 0). cbv iota.
  apply Nat.eqb_neq in HV as HV'. rewrite HV'.
  rewrite Hp, Nat.Div0.mod_mul, Nat.div_mul by assumption.
  simpl. unfold createOneHotDummy, zeros, scatter_. simpl.
  rewrite rows_repeat. fold N. unfold N at 1. rewrite scatter_rows_one_hot by assumption.
  simpl. unfold mul at 1. simpl.
  assert (Hoh : Forall (fun r => length r = V) (map (one_hot V) dx)).
  { apply Forall_forall. intros r Hr'. apply in_map_iff in Hr' as (t & <- & _).
    apply one_hot_width. }
  assert (HN : length (map (one_hot V) dx) = N) by apply length_map.
  rewrite <- HN at 1. rewrite rows_concat by assumption.
  set (logs := rows N V (map ln (map (fun v => Rmin (Rmax v CLAMP_MIN) 1) dp))).
  assert (Hlogs : Forall (fun r => length r = V) logs).
  { apply rows_widths. now rewrite !length_map. }
  rewrite broadcast_same_length by (unfold logs; now rewrite length_rows).
  simpl. rewrite (sequence_zip_broadcast _ _ V Hoh Hlogs). simpl.
  unfold sum_dim1. simpl.
  assert (Hw := zip_with_widths Rmult _ _ V Hoh Hlogs).
  assert (Hc : (if V =? 1 then V else V) = V) by now destruct (V =? 1).
  rewrite Hc. rewrite rows_concat by assumption.
  unfold mul, view_flat. simpl.
  rewrite one_hot_rows_sum by assumption.
  assert (E : zip_with (fun row tok => nth (Z.to_nat tok) row 0%R) logs dx = log_probs V dp dx).
  { unfold log_probs. fold N. unfold logs. rewrite map_map, rows_map, zip_with_map_l.
    apply zip_with_ext_in. intros row tok Hrow Htok.
    unfold pick, clamp1.
    assert (Hrl : length row = V).
    { pose proof (rows_widths N V dp Hp) as Hall.
      rewrite Forall_forall in Hall. now apply Hall. }
    rewrite Forall_forall in Hx. destruct (Hx _ Htok).
    rewrite (nth_map_in _ row (Z.to_nat tok) 0%R 0%R) by lia. reflexivity. }
  rewrite E.
  destruct (broadcast Rmult (log_probs V dp dx) (data rewards)) as [d|e]; reflexivity.
Qed.

Lemma length_log_probs V dp dx : length (log_probs V dp dx) = length dx.
Proof. unfold log_probs. rewrite length_zip_with, length_rows. lia. Qed.





(** X4: a reference token outside [0, VOCAB_SIZE), a negative one included,
    makes the loss raise, whatever the rewards are, zero rewards included:
    the one-hot matrix cannot be built. *)
Theorem loss_rejects_out_of_vocabulary_token
  V (prediction : tensor R) (x : tensor Z) (rewards : tensor R) (tok : Z) :
  V <> 0 -> numel prediction mod V = 0 ->
  In tok (data x) -> ~ in_vocab V tok ->
  GeneratorLoss_forward V prediction x rewards = Raise RuntimeError.
Proof.
  destruct prediction as [sp dp], x as [sx dx]. unfold numel. simpl.
  intros HV Hp Hin Hbad.
  unfold GeneratorLoss_forward, view_rows, numel. simpl data.
  rewrite Nat.mod_1_r, Nat.div_1_r. simpl (1 =? 0). simpl (0 =? 0). cbv iota.
  apply Nat.eqb_neq in HV as HV'. rewrite HV', Hp.
  simpl. unfold createOneHotDummy, zeros, scatter_. simpl.
  rewrite rows_repeat, scatter_rows_bad_token; [reflexivity|].
  intros Hall. rewrite Forall_forall in Hall. exact (Hbad (Hall tok Hin)).
Qed.



(** X6: rewards whose number differs from the number of positions are
    refused, unless one of the two numbers is one. *)
Theorem loss_rejects_mismatched_rewards
  V (prediction : tensor R) (x : tensor Z) (rewards : tensor R) :
  V <> 0 -> numel prediction = numel x * V ->
  Forall (in_vocab V) (data x) ->
  numel rewards <> numel x -> numel x <> 1 -> numel rewards <> 1 ->
  GeneratorLoss_forward V prediction x rewards = Raise RuntimeError.
Proof.
  destruct prediction as [sp dp], x as [sx dx], rewards as [sr dr]. unfold numel. simpl.
  intros HV Hp Hx Hne Hx1 Hr1. rewrite loss_reduced by assumption. simpl.
  pose proof (length_log_probs V dp dx) as Hl.
  destruct (log_probs V dp dx) as [|a [|b l]], dr as [|u [|v dr]]; simpl in *;
    try lia; try reflexivity.
  destruct (length l =? length dr) eqn:E; [|reflexivity].
  apply Nat.eqb_eq in E. lia.
Qed.


(** ** ignoreTokens: composition, the set of masked indices, rejected inputs *)

Lemma ignoreTokens_app (original : tensor R) (t1 t2 : list Z) :
  (let? masked := ignoreTokens original (Some t1) in ignoreTokens masked (Some t2))
  = ignoreTokens original (Some (t1 ++ t2)).
Proof.
  rewrite !ignoreTokens_fold, fold_left_app.
  destruct (fold_left _ t1 (Ok original)) as [masked|e]; simpl.
  - apply ignoreTokens_fold.
  - symmetry. apply fold_mask_raise.
Qed.

(** X7: masking with one list of tokens and then with another is masking
    once with the two lists appended, an exception included. *)
Theorem ignoreTokens_composes (original : tensor R) (t1 t2 : list Z) :
  (let? masked := ignoreTokens original (Some t1) in ignoreTokens masked (Some t2))
  = ignoreTokens original (Some (t1 ++ t2)).
Proof. apply ignoreTokens_app. Qed.

Lemma no_valid_index_of_empty_vocabulary tokens :
  Forall (valid_index 0) tokens -> tokens = [].
Proof.
  destruct tokens as [|t ts]; [reflexivity|].
  intros H. inversion H as [|? ? Ht _]; subst. unfold valid_index in Ht. simpl in Ht. lia.
Qed.

Lemma masked_data_same_set V v t1 t2 d :
  V <> 0 ->
  (forall k, k < V -> ignored_at V t1 k = ignored_at V t2 k) ->
  fold_left (fun d tok => fill_axis V 1 (vocab_index V tok) v d) t1 d
  = fold_left (fun d tok => fill_axis V 1 (vocab_index V tok) v d) t2 d.
Proof.
  intros HV Hset.
  apply nth_ext with (d := 0%R) (d' := 0%R).
  - now rewrite !length_fold_fill.
  - intros j Hj. rewrite length_fold_fill in Hj.
    rewrite !nth_fold_fill by assumption.
    rewrite Hset; [reflexivity|]. now apply Nat.mod_upper_bound.
Qed.

Lemma ignored_at_app V t1 t2 k :
  ignored_at V (t1 ++ t2) k = (ignored_at V t1 k || ignored_at V t2 k)%bool.
Proof. unfold ignored_at. apply existsb_app. Qed.

(** X8: the result of [ignoreTokens] depends only on which positions of the
    vocabulary the tokens name: neither their order, nor a repetition, nor
    naming a position from the end by a negative index changes it; and
    masking a second time with the same tokens changes nothing. *)
Theorem ignoreTokens_depends_on_the_positions_named
  V (original : tensor R) (t1 t2 : list Z) :
  vocab_last (shape original) V ->
  Forall (valid_index V) t1 -> Forall (valid_index V) t2 ->
  (forall k, k < V -> ignored_at V t1 k = ignored_at V t2 k) ->
  ignoreTokens original (Some t1) = ignoreTokens original (Some t2)
  /\ exists masked,
       ignoreTokens original (Some t1) = Ok masked
       /\ ignoreTokens masked (Some t2) = Ok masked.
Proof.
  intros Hs H1 H2 Hset.
  destruct (Nat.eq_dec V 0) as [->|HV].
  { rewrite (no_valid_index_of_empty_vocabulary t1 H1),
            (no_valid_index_of_empty_vocabulary t2 H2).
    split; [reflexivity|]. exists original. split; reflexivity. }
  assert (E : ignoreTokens original (Some t1) = ignoreTokens original (Some t2)).
  { rewrite !(ignoreTokens_data V) by assumption. do 2 f_equal.
    now apply masked_data_same_set. }
  split; [exact E|].
  pose proof (ignoreTokens_app original t1 t2) as Hc.
  rewrite (ignoreTokens_data V _ original Hs H1) in Hc. cbn [rbind] in Hc.
  eexists. split; [apply (ignoreTokens_data V); assumption|].
  rewrite Hc, (ignoreTokens_data V) by (try apply Forall_app; auto).
  do 2 f_equal. apply masked_data_same_set; [assumption|].
  intros k Hk. rewrite ignored_at_app, <- (Hset k Hk). apply orb_diag.
Qed.

Lemma py_index_invalid V tok : ~ valid_index V tok -> py_index V tok = Raise IndexError.
Proof.
  unfold valid_index, py_index. intros H.
  destruct ((0 <=? tok)%Z && (tok <? Z.of_nat V)%Z)%bool eqn:E1.
  { apply andb_true_iff in E1 as [A B]. apply Z.leb_le in A. apply Z.ltb_lt in B. lia. }
  destruct ((- Z.of_nat V <=? tok)%Z && (tok <? 0)%Z)%bool eqn:E2.
  { apply andb_true_iff in E2 as [A B]. apply Z.leb_le in A. apply Z.ltb_lt in B. lia. }
  reflexivity.
Qed.

Lemma mask_token_invalid V (original : tensor R) tok :
  vocab_last (shape original) V -> ~ valid_index V tok ->
  mask_token original tok = Raise IndexError.
Proof.
  intros [(a & Hs)|(a & b & Hs)] Hbad; unfold mask_token; rewrite Hs; simpl;
    unfold setitem_dim1, setitem_dim2; rewrite Hs, py_index_invalid by assumption;
    reflexivity.
Qed.

Lemma valid_index_dec V tok : {valid_index V tok} + {~ valid_index V tok}.
Proof.
  unfold valid_index.
  destruct (Z_le_dec (- Z.of_nat V) tok); [|right; lia].
  destruct (Z_lt_dec tok (Z.of_nat V)); [left; lia | right; lia].
Qed.

Lemma ignoreTokens_invalid V tokens : forall original : tensor R,
  vocab_last (shape original) V ->
  Exists (fun tok => ~ valid_index V tok) tokens ->
  ignoreTokens original (Some tokens) = Raise IndexError.
Proof.
  intros original Hs Hex. rewrite ignoreTokens_fold. revert original Hs.
  induction Hex as [tok rest Hbad | tok rest Hex IH]; intros original Hs; simpl.
  - rewrite (mask_token_invalid V) by assumption. apply fold_mask_raise.
  - destruct (valid_index_dec V tok) as [Hv|Hbad].
    + rewrite (mask_token_ok V) by assumption. apply IH. exact Hs.
    + rewrite (mask_token_invalid V) by assumption. apply fold_mask_raise.
Qed.

(** X9: a token that is not an index of the vocabulary dimension, counted
    from either end, makes [ignoreTokens] raise IndexError, wherever it
    stands in the list. *)
Theorem ignoreTokens_rejects_an_index_out_of_range
  V (original : tensor R) (tokens : list Z) :
  vocab_last (shape original) V ->
  Exists (fun tok => ~ valid_index V tok) tokens ->
  ignoreTokens original (Some tokens) = Raise IndexError.
Proof. apply ignoreTokens_invalid. Qed.

(** X10: scores of fewer than two dimensions cannot be masked: with at
    least one token to ignore, [ignoreTokens] raises IndexError. *)
Theorem ignoreTokens_rejects_a_vector (original : tensor R) (tok : Z) (tokens : list Z) :
  length (shape original) < 2 ->
  ignoreTokens original (Some (tok :: tokens)) = Raise IndexError.
Proof.
  intros Hs. rewrite ignoreTokens_fold. simpl.
  assert (E : mask_token original tok = Raise IndexError).
  { unfold mask_token, setitem_dim1.
    destruct (shape original) as [|a [|b rest]]; simpl in *; try reflexivity. lia. }
  rewrite E. apply fold_mask_raise.
Qed.

(** ** The forward pass on a model that scores every position *)

Lemma softmax_rows_drawn n V dm w :
  V <> 0 -> (0 < EXP_UNDERFLOW)%R -> length dm = n * V -> uniform_draws w ->
  let rs := map (softmax_vec fexp) (rows n V dm) in
  Forall (fun r => length r = V) rs
  /\ rows n V (concat rs) = rs
  /\ length (concat rs) = n * V
  /\ exists ks g,
       multinomial (Tensor [n; V] (concat rs)) w = (Ok (Tensor [n; 1] ks), set_rng g w)
       /\ (forall i, 0 <= g i < 1)%R
       /\ Forall2 drawn_from rs ks.
Proof.
  intros HV HT Hdm Hw rs.
  assert (Hrs_len : length rs = n) by (unfold rs; now rewrite length_map, length_rows).
  assert (Hrs_w : Forall (fun r => length r = V) rs).
  { apply Forall_forall. intros r Hr. apply in_map_iff in Hr as (r0 & <- & Hr0).
    unfold softmax_vec. rewrite length_map.
    pose proof (rows_widths n V dm Hdm) as Hall. rewrite Forall_forall in Hall. now apply Hall. }
  assert (Hrows : rows n V (concat rs) = rs).
  { rewrite <- Hrs_len at 1. now apply rows_concat. }
  assert (Hgood : Forall good_row (rows n V (concat rs))).
  { rewrite Hrows. apply Forall_forall. intros r Hr. apply in_map_iff in Hr as (r0 & <- & Hr0).
    apply good_softmax_row; [|assumption].
    pose proof (rows_widths n V dm Hdm) as Hall. rewrite Forall_forall in Hall.
    specialize (Hall _ Hr0). intros ->. simpl in Hall. congruence. }
  split; [exact Hrs_w|]. split; [exact Hrows|].
  split; [now rewrite (length_concat_const V), Hrs_len|].
  destruct (multinomial_support n V (concat rs) w HV Hw Hgood) as (ks & g & E & Hg & Hks).
  exists ks, g. split; [exact E|]. split; [exact Hg|]. now rewrite Hrows in Hks.
Qed.

Lemma Generator_forward_run n S dx ignored w :
  VOCAB_SIZE <> 0 -> (0 < EXP_UNDERFLOW)%R ->
  scores_every_position S VOCAB_SIZE ->
  length dx = n * S ->
  ignored_ok VOCAB_SIZE (effective_ignored ignored w) ->
  uniform_draws w ->
  exists d h' dm ks g,
    let x := Tensor [n; S] dx in
    let rs := map (softmax_vec fexp) (rows (n * S) VOCAB_SIZE dm) in
    let probs := Tensor [n; S; VOCAB_SIZE] (concat rs) in
    length dm = n * S * VOCAB_SIZE
    /\ Forall2 drawn_from rs ks
    /\ (forall i, 0 <= g i < 1)%R
    /\ forall rewards sl,
       Generator_forward x rewards ignored sl w
       = forward_tail (hidden w) x (effective_ignored ignored w) rewards probs
           (Tensor [n; S] ks)
           (set_y_output (Tensor [n; S] ks)
              (set_rng g
                 (after_scores x (Tensor [n; S; VOCAB_SIZE] d) h'
                    (Tensor [n; S; VOCAB_SIZE] dm) probs w))).
Proof.
  intros HV HT Hmodel Hdx Hig Hw.
  destruct (Hmodel (values w) (hidden w) n dx Hdx) as (d & h' & Em & Hd).
  destruct (ignoreTokens_total n S VOCAB_SIZE (Tensor [n; S; VOCAB_SIZE] d)
              (effective_ignored ignored w) eq_refl Hig) as (dm & Emask & Hdm).
  simpl in Hdm. rewrite Hd in Hdm.
  set (rs := map (softmax_vec fexp) (rows (n * S) VOCAB_SIZE dm)).
  set (probs := Tensor [n; S; VOCAB_SIZE] (concat rs)).
  set (w3 := after_scores (Tensor [n; S] dx) (Tensor [n; S; VOCAB_SIZE] d) h'
               (Tensor [n; S; VOCAB_SIZE] dm) probs w).
  assert (Hw3 : uniform_draws w3) by (intros i; apply Hw).
  destruct (softmax_rows_drawn (n * S) VOCAB_SIZE dm w3 HV HT Hdm Hw3)
    as (Hwid & Hrows & Hlen & ks & g & Emul & Hg & Hks).
  fold rs in Hwid, Hrows, Hlen, Emul, Hks.
  exists d, h', dm, ks, g. cbv zeta. fold rs. fold probs.
  split; [exact Hdm|]. split; [exact Hks|]. split; [exact Hg|].
  intros rewards sl.
  unfold Generator_forward. rewrite bind_gets, bind_gets.
  fold (effective_ignored ignored w).
  rewrite (bind_run _ _ _ _ _ (call_pretrain_model_run _ _ _ _ _ Em)).
  rewrite bind_gets. simpl tag_space. cbv beta iota. rewrite bind_lift.
  rewrite Emask, bind_lift, bind_modify.
  rewrite (softmax_dim2_rows fexp n S VOCAB_SIZE) by (simpl; auto).
  simpl data. fold rs. fold probs. rewrite bind_lift, bind_modify.
  fold (after_scores (Tensor [n; S] dx) (Tensor [n; S; VOCAB_SIZE] d) h'
          (Tensor [n; S; VOCAB_SIZE] dm) probs w). fold w3.
  unfold size. simpl nth_error. cbv beta iota. rewrite !bind_lift.
  simpl last.
  assert (Eflat : view_rows VOCAB_SIZE probs = Ok (Tensor [n * S; VOCAB_SIZE] (concat rs))).
  { unfold view_rows, numel, probs. simpl data.
    apply Nat.eqb_neq in HV as HV'. rewrite HV', Hlen.
    rewrite Nat.Div0.mod_mul, Nat.div_mul by assumption. reflexivity. }
  rewrite Eflat, bind_lift.
  rewrite (bind_run _ _ _ _ _ Emul).
  assert (Hkl : length ks = n * S).
  { apply Forall2_length in Hks. unfold rs in Hks.
    now rewrite length_map, length_rows in Hks. }
  assert (Eview : view [n; S] (Tensor [n * S; 1] ks) = Ok (Tensor [n; S] ks)).
  { unfold view, numel. simpl. rewrite Hkl, Nat.mul_1_r, Nat.eqb_refl. reflexivity. }
  rewrite Eview, bind_lift, bind_modify. reflexivity.
Qed.

Lemma forward_tail_keeps h x ignored rewards probs y w :
  let run := forward_tail h x ignored rewards probs y w in
  y_prob (snd run) = y_prob w
  /\ y_output (snd run) = y_output w
  /\ rng (snd run) = rng w
  /\ (forall y', fst run = Ok y' -> y' = y).
Proof.
  unfold forward_tail, bind, lift, modify, ret.
  destruct (effective_rewards rewards probs) as [r|e]; simpl; [|repeat split; discriminate].
  destruct (GeneratorLoss_forward VOCAB_SIZE probs x r) as [l|e]; simpl;
    repeat split; try discriminate.
  intros y' E. now injection E.
Qed.

Lemma softmax_vec_distribution row :
  row <> [] -> (0 < EXP_UNDERFLOW)%R -> distribution (softmax_vec fexp row).
Proof.
  intros Hne HT.
  pose proof (softmax_vec_nonneg row Hne HT) as Hpos.
  pose proof (softmax_vec_sum row Hne HT) as Hsum.
  split; [|exact Hsum].
  apply Forall_forall. intros q Hq. split.
  - rewrite Forall_forall in Hpos. now apply Hpos.
  - rewrite <- Hsum. now apply Rsum_ge_member.
Qed.

(** X11: on a model that scores every position, whatever the tokens of [x]
    and the rewards are, and whether or not the loss then raises, the
    forward pass leaves in [y_prob] one probability distribution over the
    vocabulary per position (entries between 0 and 1 that sum to 1) and in
    [y_output] one token per position, in [0, VOCAB_SIZE), to which that
    distribution gives a positive probability; a forward pass that returns,
    returns these tokens. *)
Theorem forward_stores_distributions_and_draws n S dx rewards ignored sl w :
  VOCAB_SIZE <> 0 -> (0 < EXP_UNDERFLOW)%R ->
  scores_every_position S VOCAB_SIZE ->
  length dx = n * S ->
  ignored_ok VOCAB_SIZE (effective_ignored ignored w) ->
  uniform_draws w ->
  let run := Generator_forward (Tensor [n; S] dx) rewards ignored sl w in
  exists dp dy,
    y_prob (snd run) = Some (Tensor [n; S; VOCAB_SIZE] dp)
    /\ y_output (snd run) = Some (Tensor [n; S] dy)
    /\ length dp = n * S * VOCAB_SIZE
    /\ length dy = n * S
    /\ (forall p, p < n * S ->
          let row := nth p (rows (n * S) VOCAB_SIZE dp) [] in
          distribution row
          /\ drawn_from row (nth p dy 0%Z)
          /\ in_vocab VOCAB_SIZE (nth p dy 0%Z))
    /\ (forall y, fst run = Ok y -> y = Tensor [n; S] dy)
    /\ uniform_draws (snd run).
Proof.
  intros HV HT Hmodel Hdx Hig Hw run.
  destruct (Generator_forward_run n S dx ignored w HV HT Hmodel Hdx Hig Hw)
    as (d & h' & dm & ks & g & Hdm & Hks & Hg & Hrun).
  cbv zeta in Hks, Hrun. specialize (Hrun rewards sl).
  set (rs := map (softmax_vec fexp) (rows (n * S) VOCAB_SIZE dm)) in *.
  assert (Hw0 : uniform_draws w) by exact Hw.
  destruct (softmax_rows_drawn (n * S) VOCAB_SIZE dm w HV HT Hdm Hw0)
    as (Hwid & Hrows & Hlen & _).
  fold rs in Hwid, Hrows, Hlen.
  assert (Hkl : length ks = n * S).
  { apply Forall2_length in Hks. unfold rs in Hks.
    now rewrite length_map, length_rows in Hks. }
  exists (concat rs), ks. subst run. rewrite Hrun.
  match goal with |- context [forward_tail ?h ?x ?i ?r ?p ?y ?w0] =>
    destruct (forward_tail_keeps h x i r p y w0) as (Ep & Eo & Er & Ey) end.
  rewrite Ep, Eo. split; [reflexivity|]. split; [reflexivity|].
  split; [exact Hlen|]. split; [exact Hkl|]. split; [|split].
  - intros p Hp. cbv zeta. rewrite Hrows.
    assert (Hrl : length rs = n * S) by (unfold rs; now rewrite length_map, length_rows).
    assert (Hrow : length (nth p rs []) = VOCAB_SIZE).
    { rewrite Forall_forall in Hwid. apply Hwid. apply nth_In. lia. }
    assert (Hd : drawn_from (nth p rs []) (nth p ks 0%Z)).
    { apply (Forall2_at _ _ _ Hks). lia. }
    split; [|split; [exact Hd|]].
    + unfold rs. rewrite (nth_map_in _ _ p [] []) by (rewrite length_rows; lia).
      apply softmax_vec_distribution; [|assumption].
      pose proof (nth_rows_length (n * S) VOCAB_SIZE dm p Hdm Hp) as Hl.
      intros E. rewrite E in Hl. simpl in Hl. congruence.
    + destruct Hd as (H0 & H1 & _). unfold in_vocab. rewrite Hrow in H1. lia.
  - exact Ey.
  - intros i. rewrite Er. apply Hg.
Qed.

Lemma map_seq_const {A} (f : nat -> A) c m :
  (forall j, j < m -> f j = c) -> map f (seq 0 m) = repeat c m.
Proof.
  intros H. apply nth_ext with (d := c) (d' := c).
  - now rewrite length_map, length_seq, repeat_length.
  - intros j Hj. rewrite length_map, length_seq in Hj.
    rewrite nth_repeat.
    rewrite (nth_map_in f (seq 0 m) j 0 c) by (now rewrite length_seq).
    rewrite seq_nth by assumption. now apply H.
Qed.

Lemma sum_dim2_of_distributions n S V dm :
  V <> 0 -> (0 < EXP_UNDERFLOW)%R -> length dm = n * S * V ->
  sum_dim2 (Tensor [n; S; V] (concat (map (softmax_vec fexp) (rows (n * S) V dm))))
  = Ok (ones [n; S]).
Proof.
  intros HV HT Hdm. unfold sum_dim2, ones. simpl shape. cbv iota. simpl data. simpl prod.
  f_equal. f_equal.
  set (rs := map (softmax_vec fexp) (rows (n * S) V dm)).
  assert (Hrl : length rs = n * S) by (unfold rs; now rewrite length_map, length_rows).
  assert (Hwid : Forall (fun r => length r = V) rs).
  { apply Forall_forall. intros r Hr. apply in_map_iff in Hr as (r0 & <- & Hr0).
    unfold softmax_vec. rewrite length_map.
    pose proof (rows_widths (n * S) V dm Hdm) as Hall. rewrite Forall_forall in Hall.
    now apply Hall. }
  assert (Hlen : length (concat rs) = n * S * V)
    by now rewrite (length_concat_const V), Hrl.
  replace (n * (S * 1)) with (n * S * 1) by lia.
  apply map_seq_const. intros j Hj.
  rewrite Nat.div_1_r, Nat.mod_1_r, Nat.mul_1_r, Nat.add_0_r.
  rewrite (fiber_is_row (n * S) V) by (try assumption; nia).
  rewrite Nat.div_mul by assumption.
  rewrite <- Hrl at 1. rewrite rows_concat by assumption.
  unfold rs. rewrite (nth_map_in _ _ j [] []) by (rewrite length_rows; lia).
  apply softmax_vec_sum; [|assumption].
  pose proof (nth_rows_length (n * S) V dm j Hdm) as Hl.
  intros E. rewrite E in Hl. simpl in Hl. lia.
Qed.

(** X12: with the rewards left out, the reward that [Generator.forward]
    falls back on is 1 at every position (each distribution sums to 1): on
    a model that scores every position the forward pass without rewards is,
    result and state, the forward pass with a tensor of ones as rewards. *)
Theorem forward_without_rewards_weighs_every_position_by_one n S dx ignored sl w :
  VOCAB_SIZE <> 0 -> (0 < EXP_UNDERFLOW)%R ->
  scores_every_position S VOCAB_SIZE ->
  length dx = n * S ->
  ignored_ok VOCAB_SIZE (effective_ignored ignored w) ->
  uniform_draws w ->
  Generator_forward (Tensor [n; S] dx) None ignored sl w
  = Generator_forward (Tensor [n; S] dx) (Some (ones [n; S])) ignored sl w.
Proof.
  intros HV HT Hmodel Hdx Hig Hw.
  destruct (Generator_forward_run n S dx ignored w HV HT Hmodel Hdx Hig Hw)
    as (d & h' & dm & ks & g & Hdm & Hks & Hg & Hrun).
  cbv zeta in Hrun. rewrite !Hrun.
  unfold forward_tail, effective_rewards.
  rewrite sum_dim2_of_distributions by assumption. reflexivity.
Qed.

(** X13: a token of [x] outside the vocabulary is only noticed by the loss:
    on a model that scores every position the forward pass raises
    RuntimeError after it has overwritten [y_prob] and [y_output] and drawn
    from the random source, and the cached loss is still the one of the
    forward pass before. *)
Theorem forward_notices_a_bad_token_after_sampling n S dx rewards ignored sl w :
  VOCAB_SIZE <> 0 -> (0 < EXP_UNDERFLOW)%R ->
  scores_every_position S VOCAB_SIZE ->
  length dx = n * S ->
  ignored_ok VOCAB_SIZE (effective_ignored ignored w) ->
  uniform_draws w ->
  ~ Forall (in_vocab VOCAB_SIZE) dx ->
  let run := Generator_forward (Tensor [n; S] dx) rewards ignored sl w in
  fst run = Raise RuntimeError
  /\ loss_variable (snd run) = loss_variable w
  /\ parameters (snd run) = parameters w
  /\ exists dp dy,
       y_prob (snd run) = Some (Tensor [n; S; VOCAB_SIZE] dp)
       /\ y_output (snd run) = Some (Tensor [n; S] dy).
Proof.
  intros HV HT Hmodel Hdx Hig Hw Hbad run.
  destruct (Generator_forward_run n S dx ignored w HV HT Hmodel Hdx Hig Hw)
    as (d & h' & dm & ks & g & Hdm & Hks & Hg & Hrun).
  cbv zeta in Hrun. subst run. rewrite Hrun.
  set (rs := map (softmax_vec fexp) (rows (n * S) VOCAB_SIZE dm)) in *.
  destruct (softmax_rows_drawn (n * S) VOCAB_SIZE dm w HV HT Hdm Hw)
    as (_ & _ & Hlen & _). fold rs in Hlen.
  assert (Er : exists sr dr, effective_rewards rewards (Tensor [n; S; VOCAB_SIZE] (concat rs))
                             = Ok (Tensor sr dr)).
  { destruct rewards as [[sr dr]|]; simpl.
    - eauto.
    - unfold rs. rewrite sum_dim2_of_distributions by assumption. unfold ones. eauto. }
  destruct Er as (sr & dr & Er).
  unfold forward_tail. rewrite Er, bind_lift.
  rewrite loss_bad_token; try assumption; [|rewrite Hlen, Hdx; reflexivity].
  unfold bind, lift. simpl.
  split; [reflexivity|]. split; [reflexivity|]. split; [reflexivity|].
  eexists; eexists. split; reflexivity.
Qed.

(** ** The tokens that generation samples *)

Lemma cat_column_entries {A} bs c (dall ys : list A) d :
  length dall = bs * c -> length ys = bs ->
  exists dnew,
    cat_dim1 (Tensor [bs; c] dall) (Tensor [bs; 1] ys) = Ok (Tensor [bs; c + 1] dnew)
    /\ length dnew = bs * (c + 1)
    /\ forall i j, i < bs -> j <= c ->
         nth (i * (c + 1) + j) dnew d
         = if j <? c then nth (i * c + j) dall d else nth i ys d.
Proof.
  intros Hall Hys.
  set (rs := zip_with (@app A) (rows bs c dall) (rows bs 1 ys)).
  assert (Hys' : length ys = bs * 1) by lia.
  assert (Hlen : length rs = bs).
  { unfold rs. rewrite length_zip_with, !length_rows. lia. }
  assert (Hw : Forall (fun r => length r = c + 1) rs).
  { apply Forall_forall. intros r Hr. apply (In_nth _ _ []) in Hr as (i & Hi & <-).
    rewrite Hlen in Hi. unfold rs.
    rewrite (nth_zip_with _ _ _ i [] [] []) by now rewrite length_rows.
    rewrite length_app, !nth_rows_length by assumption. reflexivity. }
  exists (concat rs). split; [|split].
  - unfold cat_dim1. simpl. now rewrite Nat.eqb_refl.
  - now rewrite (length_concat_const (c + 1)), Hlen.
  - intros i j Hi Hj.
    rewrite (nth_concat_const (c + 1)) by (auto; rewrite Hlen; nia).
    rewrite Nat.div_add_l, Nat.div_small, Nat.add_0_r by lia.
    rewrite Nat.add_comm, Nat.Div0.mod_add, Nat.mod_small by lia.
    unfold rs. rewrite (nth_zip_with _ _ _ i [] [] []) by now rewrite length_rows.
    destruct (j <? c) eqn:E.
    + apply Nat.ltb_lt in E.
      rewrite app_nth1 by (rewrite nth_rows_length by assumption; lia).
      now rewrite nth_nth_rows by (assumption || lia).
    + apply Nat.ltb_ge in E. assert (j = c) by lia. subst j.
      rewrite app_nth2 by (rewrite nth_rows_length by assumption; lia).
      rewrite nth_rows_length, Nat.sub_diag by assumption.
      rewrite nth_nth_rows by (assumption || lia). f_equal. lia.
Qed.

Lemma ignoreTokens_masked a b V (scores : tensor R) ignored :
  shape scores = [a; b; V] -> ignored_ok V ignored ->
  ignoreTokens scores ignored
  = Ok (Tensor [a; b; V] (masked_data V (ignored_list ignored) (data scores))).
Proof.
  intros Hs Hi. destruct ignored as [tokens|].
  - rewrite (ignoreTokens_data V) by (auto; right; eauto). now rewrite Hs.
  - destruct scores; simpl in *. now subst.
Qed.

Lemma drawn_tokens_sampled V tokens theta h n dx d h' ks :
  (0 < EXP_UNDERFLOW)%R -> (Z.of_nat V <= 2 ^ 24)%Z ->
  pretrain_model theta h (Tensor [n; 1] dx) (Some [1%Z]) = Ok (Tensor [n; 1; V] d, h') ->
  length d = n * V ->
  Forall2 drawn_from (map (softmax_vec fexp) (rows n V (masked_data V tokens d))) ks ->
  length ks = n
  /\ forall i, i < n -> sampled_token V tokens (nth i (map float32 ks) 0%Z).
Proof.
  intros HT H24 Em Hd Hks.
  assert (Hdm : length (masked_data V tokens d) = n * V)
    by (unfold masked_data; now rewrite length_fold_fill).
  apply Forall2_map_rows in Hks as [Hlen Hat].
  split; [exact Hlen|]. intros i Hi.
  destruct (Hat i Hi) as (H0 & Hk & Hpos).
  assert (HkV : Z.to_nat (nth i ks 0%Z) < V).
  { unfold softmax_vec in Hk. rewrite length_map in Hk.
    rewrite nth_rows_length in Hk by assumption. exact Hk. }
  rewrite (nth_map_in float32 ks i 0%Z 0%Z) by lia.
  rewrite float32_exact by lia.
  split; [unfold in_vocab; lia|].
  intros Hclear.
  destruct (ignored_at V tokens (Z.to_nat (nth i ks 0%Z))) eqn:Hig; [|reflexivity].
  exfalso.
  pose proof (masked_row_mass n V tokens d Hd i _ HT Hi HkV Hig (Hclear _ _ _ _ _ _ Em i Hi))
    as Hz.
  rewrite Hz in Hpos. lra.
Qed.

Lemma generate_loop_tokens V ignored bs :
  V <> 0 -> (Z.of_nat V <= 2 ^ 24)%Z -> (0 < EXP_UNDERFLOW)%R ->
  scores_one_position V -> ignored_ok V ignored ->
  forall n c y dall w,
    numel y = bs -> length dall = bs * c -> 1 <= c -> uniform_draws w ->
    (forall i j, i < bs -> 1 <= j < c ->
       sampled_token V (ignored_list ignored) (nth (i * c + j) dall 0%Z)) ->
    exists dt w',
      generate_loop n ignored y (Tensor [bs; c] dall) w = (Ok (Tensor [bs; c + n] dt), w')
      /\ length dt = bs * (c + n)
      /\ forall i j, i < bs -> 1 <= j < c + n ->
           sampled_token V (ignored_list ignored) (nth (i * (c + n) + j) dt 0%Z).
Proof.
  intros HV H24 HT Hmodel Hig.
  induction n as [|n IH]; intros c y dall w Hy Hall Hc Hw Hold.
  - exists dall, w. rewrite Nat.add_0_r. simpl. unfold ret. auto.
  - simpl generate_loop. rewrite Hy.
    destruct (Hmodel (values w) (hidden w) bs (data y) Hy) as (d & h' & Em & Hd).
    rewrite (bind_run _ _ _ _ _ (call_pretrain_model_run _ _ _ _ _ Em)).
    rewrite bind_gets. simpl tag_space. cbv beta iota. rewrite bind_lift.
    rewrite (ignoreTokens_masked bs 1 V) by (auto; reflexivity).
    simpl data. rewrite bind_lift, bind_modify.
    set (dm := masked_data V (ignored_list ignored) d).
    set (w2 := set_tag_space _ _).
    assert (Hw2 : uniform_draws w2) by (intros i; apply Hw).
    rewrite !Nat.mul_1_r in Hd.
    assert (Hdm : length dm = bs * V)
      by (unfold dm, masked_data; now rewrite length_fold_fill).
    destruct (softmax_rows_drawn bs V dm w2 HV HT Hdm Hw2)
      as (Hwid & Hrows & Hlen & ks & g & Emul & Hg & Hks).
    set (rs := map (softmax_vec fexp) (rows bs V dm)) in *.
    rewrite (softmax_dim2_rows fexp bs 1 V) by (simpl; auto; lia).
    simpl data. rewrite Nat.mul_1_r. fold rs. rewrite bind_lift.
    unfold size. simpl nth_error. cbv beta iota. rewrite !bind_lift.
    simpl last.
    assert (Eflat : view_rows V (Tensor [bs; 1; V] (concat rs))
                    = Ok (Tensor [bs; V] (concat rs))).
    { unfold view_rows, numel. simpl data.
      apply Nat.eqb_neq in HV as HV'. rewrite HV', Hlen.
      rewrite Nat.Div0.mod_mul, Nat.div_mul by assumption. reflexivity. }
    rewrite Eflat, bind_lift.
    rewrite (bind_run _ _ _ _ _ Emul).
    destruct (drawn_tokens_sampled V (ignored_list ignored) _ _ bs _ d h' ks HT H24 Em Hd Hks)
      as (Hkl & Hsampled).
    assert (Eview : view [bs; 1] (Tensor (shape (Tensor [bs; 1] ks))
                                         (map float32 (data (Tensor [bs; 1] ks))))
                    = Ok (Tensor [bs; 1] (map float32 ks))).
    { unfold view, numel. simpl. rewrite length_map, Hkl, Nat.mul_1_r.
      now rewrite Nat.eqb_refl. }
    rewrite Eview, bind_lift.
    assert (Hys : length (map float32 ks) = bs) by (rewrite length_map; lia).
    destruct (cat_column_entries bs c dall (map float32 ks) 0%Z Hall Hys)
      as (dnew & Ecat & Hnew & Hentries).
    rewrite Ecat, bind_lift.
    assert (Hw3 : uniform_draws (set_rng g w2)) by (intros i; apply Hg).
    destruct (IH (c + 1) (Tensor [bs; 1] (map float32 ks)) dnew (set_rng g w2))
      as (dt & w' & Eloop & Hdt & Hdt_all); auto; try lia.
    { intros i j Hi Hj. rewrite Hentries by lia.
      destruct (j <? c) eqn:E.
      - apply Nat.ltb_lt in E. apply Hold; lia.
      - now apply Hsampled. }
    exists dt, w'. replace (c + S n) with (c + 1 + n) by lia.
    split; [exact Eloop|]. split; [exact Hdt|]. exact Hdt_all.
Qed.

(** X14: on a model that scores one position per call and a vocabulary of at
    most 2^24 entries, every token that [generate] appends after the start
    column lies in [0, VOCAB_SIZE); and where the model always leaves some
    token that is not ignored a score the underflow threshold above the
    mask, none of these tokens is an ignored one. *)
Theorem generate_appends_tokens_of_the_vocabulary start ignored batch_size w :
  1 <= SEQ_LENGTH ->
  VOCAB_SIZE <> 0 -> (Z.of_nat VOCAB_SIZE <= 2 ^ 24)%Z ->
  (0 < EXP_UNDERFLOW)%R ->
  scores_one_position VOCAB_SIZE ->
  ignored_ok VOCAB_SIZE (effective_ignored ignored w) ->
  uniform_draws w ->
  exists t w',
    generate start ignored batch_size w = (Ok t, w')
    /\ shape t = [batch_size; SEQ_LENGTH]
    /\ forall i j, i < batch_size -> 1 <= j < SEQ_LENGTH ->
         sampled_token VOCAB_SIZE (ignored_list (effective_ignored ignored w))
                       (nth (i * SEQ_LENGTH + j) (data t) 0%Z).
Proof.
  intros Hseq HV H24 HT Hmodel Hig Hw.
  unfold generate. rewrite bind_gets, bind_gets.
  fold (effective_start start w). fold (effective_ignored ignored w).
  unfold generate_LSTMCore.
  unfold reset_hidden. rewrite bind_modify.
  set (w1 := emit _ _).
  assert (Hw1 : uniform_draws w1) by (intros i; apply Hw).
  unfold numel. simpl data. rewrite repeat_length.
  destruct (generate_loop_tokens VOCAB_SIZE (effective_ignored ignored w) batch_size
              HV H24 HT Hmodel Hig (SEQ_LENGTH - 1) 1
              (Tensor [batch_size] (repeat (float32 (effective_start start w)) batch_size))
              (repeat (float32 (effective_start start w)) batch_size) w1)
    as (dt & w' & Eloop & Hdt & Hall).
  - unfold numel. simpl. apply repeat_length.
  - rewrite repeat_length. lia.
  - lia.
  - exact Hw1.
  - intros i j _ Hj. lia.
  - replace (1 + (SEQ_LENGTH - 1)) with SEQ_LENGTH in * by lia.
    exists (Tensor [batch_size; SEQ_LENGTH] dt), w'.
    split; [exact Eloop|]. split; [reflexivity|]. exact Hall.
Qed.

(** ** What generation and the forward pass leave alone *)

Lemma same_generator_refl w : same_generator w w.
Proof. repeat split. Qed.

Lemma same_generator_trans w1 w2 w3 :
  same_generator w1 w2 -> same_generator w2 w3 -> same_generator w1 w3.
Proof.
  intros (A1 & A2 & A3 & A4 & A5 & A6) (B1 & B2 & B3 & B4 & B5 & B6).
  repeat split; congruence.
Qed.

Lemma generate_loop_calls n ignored : forall y y_all w t w',
  generate_loop n ignored y y_all w = (Ok t, w') ->
  exists xs, length xs = n /\ trace w' = trace w ++ map generation_call xs.
Proof.
  induction n as [|n IH]; intros y y_all w t w' H; simpl in H.
  - apply ret_ok in H as [_ ->]. exists []. simpl. now rewrite app_nil_r.
  - step_ok H u w1 H1. apply call_pretrain_model_ok in H1 as (scores & h' & _ & ->).
    step_ok H ts w2 H2. apply gets_ok in H2 as [-> ->]. simpl in H.
    step_ok H ts w2 H2. apply lift_ok in H2 as [_ ->].
    step_ok H masked w2 H2. apply lift_ok in H2 as [_ ->].
    step_ok H u2 w2 H2. apply modify_ok in H2 as ->.
    step_ok H probs w2 H2. apply lift_ok in H2 as [_ ->].
    step_ok H s0 w2 H2. apply lift_ok in H2 as [_ ->].
    step_ok H s1 w2 H2. apply lift_ok in H2 as [_ ->].
    step_ok H flat w2 H2. apply lift_ok in H2 as [_ ->].
    step_ok H samples w2 H2.
    match type of H2 with multinomial _ ?w0 = _ =>
      pose proof (multinomial_same_but_rng flat w0) as [g Hg] end.
    rewrite H2 in Hg. simpl in Hg. subst w2.
    step_ok H y' w2 H3. apply lift_ok in H3 as [_ ->].
    step_ok H yall w2 H3. apply lift_ok in H3 as [_ ->].
    apply IH in H as (xs & Hlen & Ht).
    exists (Tensor [numel y; 1] (data y) :: xs). split; [simpl; lia|].
    rewrite Ht. simpl. now rewrite <- app_assoc.
Qed.

(** X15: [generate] only infers.  Whatever its outcome, the parameters and
    their gradients, the probabilities, outputs and loss that the last
    forward pass cached, the start token and the ignored tokens of the
    generator are what they were.  A run that returns has reset the hidden
    state once, for [batch_size] sequences, and has then called the model
    exactly [SEQ_LENGTH - 1] times, each time with [sentence_lengths=[1]]. *)
Theorem generate_only_infers start ignored batch_size w :
  let run := generate start ignored batch_size w in
  same_generator w (snd run)
  /\ forall t, fst run = Ok t ->
       exists xs, length xs = SEQ_LENGTH - 1
                  /\ trace (snd run)
                     = trace w ++ InitHidden batch_size :: map generation_call xs.
Proof.
  cbv zeta. split.
  - revert w. change (respects same_generator (generate start ignored batch_size)).
    pose proof same_generator_refl as Hrefl.
    pose proof same_generator_trans as Htrans.
    unfold generate, generate_LSTMCore.
    repeat first
      [ apply (respects_gets _ Hrefl)
      | apply (respects_reset_hidden _ (fun _ => True) Htrans);
          [ intros; repeat split .. | exact I ]
      | apply (respects_generate_loop _ (fun _ => True) Hrefl Htrans);
          [ intros; repeat split .. | intros; exact I ]
      | apply (respects_bind _ Htrans); [|intros] ].
  - intros t Ht.
    destruct (generate start ignored batch_size w) as [res w'] eqn:E. simpl in Ht. subst res.
    simpl snd. unfold generate in E. rewrite !bind_gets in E.
    unfold generate_LSTMCore, reset_hidden in E. rewrite bind_modify in E.
    apply generate_loop_calls in E as (xs & Hlen & Htr).
    exists xs. split; [exact Hlen|]. rewrite Htr. simpl. now rewrite <- app_assoc.
Qed.

Lemma bind_raise {A B} (m : M A) (k : A -> M B) w e w1 :
  m w = (Raise e, w1) -> bind m k w = (Raise e, w1).
Proof. intros H. unfold bind. now rewrite H. Qed.

Lemma same_model_quiet_refl w : same_model_quiet w w.
Proof. repeat split. Qed.

Lemma same_model_quiet_trans w1 w2 w3 :
  same_model_quiet w1 w2 -> same_model_quiet w2 w3 -> same_model_quiet w1 w3.
Proof.
  intros (A1 & A2 & A3 & A4) (B1 & B2 & B3 & B4). repeat split; congruence.
Qed.

(** X16: the forward pass, whatever its outcome, calls the pretrained model
    exactly once, on [x] and with no sentence lengths, and leaves the
    parameters with their gradients, the start token and the ignored tokens
    of the generator as they were. *)
Theorem forward_calls_the_model_once x rewards ignored sl w :
  let w' := snd (Generator_forward x rewards ignored sl w) in
  trace w' = trace w ++ [ModelCall x None]
  /\ parameters w' = parameters w
  /\ start_token w' = start_token w
  /\ ignored_tokens w' = ignored_tokens w.
Proof.
  cbv zeta. unfold Generator_forward. rewrite !bind_gets.
  set (k := fun _ : unit => _).
  assert (Hk : forall u, respects same_model_quiet (k u)).
  { intros u. unfold k.
    pose proof same_model_quiet_refl as Hrefl.
    pose proof same_model_quiet_trans as Htrans.
    repeat first
      [ apply (respects_bind _ Htrans); [|intros]
      | apply (respects_ret _ Hrefl)
      | apply (respects_lift _ Hrefl)
      | apply (respects_gets _ Hrefl)
      | apply (respects_multinomial _ Hrefl Htrans); intros; now repeat split
      | apply respects_modify; intros; now repeat split ]. }
  destruct (call_pretrain_model x None w) as [[u|e] w1] eqn:E.
  - rewrite (bind_run _ _ _ _ _ E).
    apply call_pretrain_model_ok in E as (scores & h' & _ & ->).
    destruct (Hk u (set_hidden h' (set_tag_space scores (emit (ModelCall x None) w))))
      as (A1 & A2 & A3 & A4).
    rewrite A1, A2, A3, A4. repeat split.
  - rewrite (bind_raise _ _ _ _ _ E). simpl snd.
    unfold call_pretrain_model in E. rewrite bind_modify, bind_gets in E.
    destruct (pretrain_model _ _ _ _) as [[scores h']|e'].
    + discriminate.
    + unfold lift in E. injection E as _ <-. repeat split.
Qed.

(** ** train_generator: runs that cannot return *)

Lemma train_generator_without_epochs x reward iter_n_gen batch_size sentence_lengths w :
  epochs_of iter_n_gen = 0 ->
  train_generator x reward iter_n_gen batch_size sentence_lengths w
  = match prelude x reward sentence_lengths w with
    | Raise e => (Raise e, w)
    | Ok _ => (Raise UnboundLocalError, emit LogClose (emit LogHeader w))
    end.
Proof.
  intros H0. unfold train_generator, prelude.
  destruct (normalize_x x) as [x'|e] eqn:Ex; [|reflexivity].
  rewrite bind_lift. simpl rbind.
  destruct (default_sentence_lengths x' sentence_lengths) as [sls|e] eqn:Es; [|reflexivity].
  rewrite bind_lift. simpl rbind.
  destruct (default_reward x' reward) as [reward'|e]; [|reflexivity].
  rewrite bind_lift. simpl rbind.
  unfold SGD at 1. unfold bind at 1. rewrite bind_gets.
  destruct (existsb requires_grad (parameters w)); [|reflexivity].
  unfold ret at 1. cbv iota. rewrite bind_modify.
  destruct (len x') as [n|e] eqn:En.
  2:{ exfalso. unfold default_sentence_lengths, len, size in *.
      destruct (shape x') as [|a s]; [|discriminate].
      destruct sentence_lengths as [sl0|]; simpl in Es; discriminate. }
  rewrite bind_lift. fold (epochs_of iter_n_gen). rewrite H0. reflexivity.
Qed.

(** X17: with zero epochs, given or as the default [GEN_NUM_EPOCH],
    [train_generator] does not return the untouched model: on a matrix of
    sequences and a model with a trainable parameter it writes the header
    of the log, closes the log and raises UnboundLocalError, since the lists
    it is to concatenate were never assigned. *)
Theorem training_for_zero_epochs_raises
  a b x reward iter_n_gen batch_size sentence_lengths w :
  epochs_of iter_n_gen = 0 ->
  shape x = [a; b] ->
  existsb requires_grad (parameters w) = true ->
  train_generator x reward iter_n_gen batch_size sentence_lengths w
  = (Raise UnboundLocalError, emit LogClose (emit LogHeader w)).
Proof.
  intros H0 Hs Hp. rewrite train_generator_without_epochs by assumption.
  destruct (prelude_matrix a b x reward sentence_lengths w Hs Hp) as [args ->].
  reflexivity.
Qed.

(** X18: a model none of whose parameters requires a gradient cannot be
    trained: [train_generator] raises before it opens the log and leaves
    the state as it was; on a matrix of sequences the exception is the
    ValueError of the optimizer, which refuses an empty parameter list. *)
Theorem training_needs_a_trainable_parameter
  x reward iter_n_gen batch_size sentence_lengths w :
  existsb requires_grad (parameters w) = false ->
  exists e,
    train_generator x reward iter_n_gen batch_size sentence_lengths w = (Raise e, w)
    /\ forall a b, shape x = [a; b] -> e = ValueError.
Proof.
  intros Hp. unfold train_generator.
  destruct (normalize_x x) as [x'|e] eqn:Ex.
  2:{ exists e. split; [reflexivity|]. intros a b Hs.
      unfold normalize_x in Ex. rewrite Hs in Ex. discriminate. }
  rewrite bind_lift.
  destruct (default_sentence_lengths x' sentence_lengths) as [sls|e] eqn:Es.
  2:{ exists e. split; [reflexivity|]. intros a b Hs.
      unfold normalize_x in Ex. rewrite Hs in Ex. injection Ex as <-.
      unfold default_sentence_lengths, size, len in Es. rewrite Hs in Es.
      destruct sentence_lengths as [sl0|]; simpl in Es;
        destruct (_ <? a) in Es; discriminate. }
  rewrite bind_lift.
  destruct (default_reward x' reward) as [reward'|e] eqn:Er.
  2:{ exists e. split; [reflexivity|]. intros a b Hs.
      unfold normalize_x in Ex. rewrite Hs in Ex. injection Ex as <-.
      unfold default_reward, size, view, numel in Er. rewrite Hs in Er.
      destruct reward as [r|]; [discriminate|]. simpl in Er.
      rewrite repeat_length in Er.
      replace (a * (b * 1) =? a * b) with true in Er by (symmetry; apply Nat.eqb_eq; lia).
      discriminate. }
  rewrite bind_lift.
  unfold SGD at 1. unfold bind at 1. rewrite bind_gets, Hp.
  exists ValueError. split; reflexivity.
Qed.

(** ** The trace of a run of train_generator that returns *)

Lemma batch_step_trace x reward sentence_lengths batch_size pointer w b w' :
  batch_step x reward sentence_lengths batch_size pointer w = (Ok b, w') ->
  exists x_batch,
    slice pointer (pointer + batch_size) x = Ok x_batch
    /\ trace w' = trace w ++ batch_events batch_size x_batch.
Proof.
  unfold batch_step. intros H.
  step_ok H x_batch w1 H1. apply lift_ok in H1 as [Hx ->].
  step_ok H r_batch w1 H1. apply lift_ok in H1 as [Hr ->].
  step_ok H u w1 H1. apply modify_ok in H1 as ->.
  step_ok H y w1 H1.
  apply Generator_forward_ok in H1
    as (scores & h' & masked & probs & g & r & loss & _ & _ & _ & _ & _ & ->).
  step_ok H yp w2 H2. apply gets_ok in H2 as [-> ->].
  step_ok H yp w2 H2. apply lift_ok in H2 as [_ ->].
  step_ok H lv w2 H2. apply gets_ok in H2 as [-> ->].
  step_ok H lv w2 H2. apply lift_ok in H2 as [_ ->].
  step_ok H u1 w2 H2. apply modify_ok in H2 as ->.
  step_ok H u2 w2 H2. apply modify_ok in H2 as ->.
  step_ok H u3 w2 H2. apply modify_ok in H2 as ->.
  apply ret_ok in H as [_ ->].
  exists x_batch. split; [exact Hx|].
  unfold batch_events. simpl. now rewrite <- !app_assoc.
Qed.


Lemma full_batches_trace x reward sentence_lengths batch_size k :
  forall pointer w bs w',
    full_batches k x reward sentence_lengths batch_size pointer w = (Ok bs, w') ->
    exists xbs,
      batches_from x batch_size pointer k = Ok xbs
      /\ length xbs = k
      /\ length bs = k
      /\ trace w' = trace w ++ flat_map (batch_events batch_size) xbs.
Proof.
  induction k as [|k IH]; intros pointer w bs w' H; simpl in H.
  - apply ret_ok in H as [-> ->]. exists []. simpl. now rewrite app_nil_r.
  - step_ok H b w1 H1. apply batch_step_trace in H1 as (xb & Hxb & Ht1).
    step_ok H rest w2 H2. apply IH in H2 as (xbs & Hxbs & Hlen & Hlb & Ht2).
    apply ret_ok in H as [-> ->].
    exists (xb :: xbs). split; [|split; [|split]].
    + unfold batches_from in *. simpl seq. simpl map.
      rewrite Nat.add_0_r, Hxb. cbn [sequence rbind].
      rewrite <- seq_shift, map_map.
      erewrite map_ext; [rewrite Hxbs; reflexivity|].
      intros i. cbv beta. f_equal; lia.
    + simpl. now rewrite Hlen.
    + simpl. now rewrite Hlb.
    + rewrite Ht2, Ht1. simpl. now rewrite <- app_assoc.
Qed.

Lemma train_epoch_trace x len_x reward sentence_lengths batch_size epoch l w l' w' :
  1 <= batch_size ->
  train_epoch x len_x reward sentence_lengths batch_size epoch l w = (Ok l', w') ->
  exists xbs avg,
    batches_from x batch_size 0 (len_x / batch_size) = Ok xbs
    /\ length xbs = len_x / batch_size
    /\ 1 <= len_x / batch_size
    /\ trace w' = trace w ++ epoch_events batch_size xbs epoch avg.
Proof.
  intros Hbs H. rewrite train_epoch_full in H by assumption.
  step_ok H bs w1 H1. apply full_batches_trace in H1 as (xbs & Hxbs & Hlen & Hlb & Ht).
  step_ok H avg w2 H2. apply lift_ok in H2 as [Havg ->].
  step_ok H u w2 H2. apply modify_ok in H2 as ->.
  apply ret_ok in H as [_ ->].
  exists xbs, avg. split; [exact Hxbs|]. split; [exact Hlen|]. split.
  - rewrite <- Hlb. destruct bs; [discriminate | simpl; lia].
  - unfold epoch_events. simpl. rewrite Ht. now rewrite <- app_assoc.
Qed.

Lemma for_epochs_trace x len_x reward sentence_lengths batch_size n :
  1 <= batch_size ->
  forall start l w l' w',
    for_epochs (seq start n) x len_x reward sentence_lengths batch_size l w = (Ok l', w') ->
    exists avgs,
      length avgs = n
      /\ (0 < n -> 1 <= len_x / batch_size
                   /\ exists xbs, batches_from x batch_size 0 (len_x / batch_size) = Ok xbs
                                  /\ length xbs = len_x / batch_size)
      /\ forall xbs, batches_from x batch_size 0 (len_x / batch_size) = Ok xbs ->
           trace w' = trace w ++ concat (imap_from start (epoch_events batch_size xbs) avgs).
Proof.
  intros Hbs. induction n as [|n IH]; intros start l w l' w' H; simpl in H.
  - apply ret_ok in H as [_ ->]. exists []. split; [reflexivity|].
    split; [lia|]. intros xbs _. simpl. now rewrite app_nil_r.
  - step_ok H l1 w1 H1.
    apply train_epoch_trace in H1 as (xbs & avg & Hxbs & Hlen & Hk & Ht1); [|assumption].
    apply IH in H as (avgs & Hal & _ & Ht2).
    exists (avg :: avgs). split; [simpl; now rewrite Hal|].
    split; [intros _; split; [exact Hk | eauto]|].
    intros xbs' Hxbs'. rewrite Hxbs in Hxbs'. injection Hxbs' as <-.
    rewrite (Ht2 xbs Hxbs), Ht1. simpl. now rewrite <- app_assoc.
Qed.

Lemma optimizer_steps_app evs1 evs2 :
  optimizer_steps (evs1 ++ evs2) = optimizer_steps evs1 + optimizer_steps evs2.
Proof. unfold optimizer_steps. now rewrite filter_app, length_app. Qed.

Lemma optimizer_steps_batches batch_size xbs :
  optimizer_steps (flat_map (batch_events batch_size) xbs) = length xbs.
Proof.
  induction xbs as [|xb xbs IH]; [reflexivity|].
  cbn [flat_map]. rewrite optimizer_steps_app, IH. reflexivity.
Qed.

Lemma optimizer_steps_epochs batch_size xbs avgs : forall start,
  optimizer_steps (concat (imap_from start (epoch_events batch_size xbs) avgs))
  = length avgs * length xbs.
Proof.
  induction avgs as [|avg avgs IH]; intros start; [reflexivity|].
  cbn [imap_from concat]. rewrite optimizer_steps_app, IH. unfold epoch_events.
  rewrite optimizer_steps_app, optimizer_steps_batches. unfold optimizer_steps. simpl. lia.
Qed.

(** X19: a run of [train_generator] that returns has trained at least one
    epoch of at least one full batch, and its trace is fully determined up
    to the averages it logs: the header of the log; then, epoch after epoch,
    for each of the [len(x) / batch_size] consecutive full slices of [x] a
    reset of the hidden state, one call of the model on the slice with no
    sentence lengths and one optimizer step, followed by the log line of
    the epoch; at last the closing of the log.  The optimizer has stepped
    exactly [epochs * (len(x) / batch_size)] times. *)
Theorem a_run_that_returns_trained_every_full_batch
  x reward iter_n_gen batch_size sentence_lengths w out w' :
  1 <= batch_size ->
  train_generator x reward iter_n_gen batch_size sentence_lengths w = (Ok out, w') ->
  exists x' xbs avgs,
    normalize_x x = Ok x'
    /\ batches_from x' batch_size 0 (num_sequences x / batch_size) = Ok xbs
    /\ length xbs = num_sequences x / batch_size
    /\ 1 <= num_sequences x / batch_size
    /\ length avgs = epochs_of iter_n_gen
    /\ 1 <= epochs_of iter_n_gen
    /\ let evs := LogHeader :: concat (imap (epoch_events batch_size xbs) avgs)
                            ++ [LogClose] in
       trace w' = trace w ++ evs
       /\ optimizer_steps evs = epochs_of iter_n_gen * (num_sequences x / batch_size).
Proof.
  intros Hbs H. unfold train_generator in H.
  step_ok H x' w1 H1. apply lift_ok in H1 as [Hx ->].
  step_ok H sls w1 H1. apply lift_ok in H1 as [Hsl ->].
  step_ok H r w1 H1. apply lift_ok in H1 as [Hr ->].
  fold (epochs_of iter_n_gen) in H.
  step_ok H u w1 H1. apply SGD_same_world in H1 as ->.
  step_ok H u1 w1 H1. apply modify_ok in H1 as ->.
  step_ok H len_x w1 H1. apply lift_ok in H1 as [Hlen ->].
  pose proof (normalize_x_len _ _ _ Hx Hlen) as ->.
  step_ok H l w1 H1.
  destruct (epochs_of iter_n_gen) as [|n] eqn:En.
  { simpl in H1. apply ret_ok in H1 as [-> ->].
    step_ok H u2 w2 H2. step_ok H probs w3 H3.
    apply lift_ok in H3 as [H3 _]. discriminate. }
  apply for_epochs_trace in H1 as (avgs & Hal & Hfull & Ht); [|assumption].
  destruct Hfull as (Hk & xbs & Hxbs & Hxl); [lia|].
  step_ok H u2 w2 H2. apply modify_ok in H2 as ->.
  step_ok H probs w2 H2. apply lift_ok in H2 as [_ ->].
  step_ok H yp w2 H2. apply lift_ok in H2 as [_ ->].
  step_ok H outs w2 H2. apply lift_ok in H2 as [_ ->].
  step_ok H yo w2 H2. apply lift_ok in H2 as [_ ->].
  step_ok H yo' w2 H2. apply lift_ok in H2 as [_ ->].
  apply ret_ok in H as [_ ->].
  exists x', xbs, avgs.
  split; [exact Hx|]. split; [exact Hxbs|]. split; [exact Hxl|]. split; [exact Hk|].
  split; [exact Hal|]. split; [lia|]. cbv zeta. split.
  - simpl. rewrite (Ht xbs Hxbs). simpl. unfold imap. now rewrite <- !app_assoc.
  - change (LogHeader :: concat (imap (epoch_events batch_size xbs) avgs) ++ [LogClose])
      with ([LogHeader] ++ concat (imap (epoch_events batch_size xbs) avgs) ++ [LogClose]).
    rewrite !optimizer_steps_app. unfold imap. rewrite optimizer_steps_epochs.
    unfold optimizer_steps. simpl. rewrite Hal, Hxl. lia.
Qed.

(** ** train_generator: a batch size that does not divide the number of sequences *)

Lemma train_generator_epochs x reward iter_n_gen batch_size sentence_lengths :
  train_generator x reward iter_n_gen batch_size sentence_lengths
  = train_generator x reward (Some (epochs_of iter_n_gen)) batch_size sentence_lengths.
Proof. destruct iter_n_gen; reflexivity. Qed.

(** X20: the remainder of the sequences that fills no batch is not simply
    dropped.  On [L] sequences of [W >= 1] tokens, with a batch size between
    1 and [L] that does not divide [L], everything else being as a run that
    returns needs it, [train_generator] trains every full batch of every
    epoch, closes the log and then raises RuntimeError: the outputs of the
    full batches cannot be viewed in the shape of [x]. *)
Theorem a_batch_size_that_leaves_a_remainder_fails
  L W x reward iter_n_gen n batch_size sentence_lengths w :
  shape x = [L; W] -> wf x -> Forall (in_vocab VOCAB_SIZE) (data x) ->
  reward_shaped L W reward ->
  Forall (valid_index VOCAB_SIZE) (effective_lengths L W sentence_lengths) ->
  VOCAB_SIZE <> 0 -> (0 < EXP_UNDERFLOW)%R ->
  scores_every_position W VOCAB_SIZE ->
  existsb requires_grad (parameters w) = true ->
  epochs_of iter_n_gen = S n ->
  1 <= batch_size -> batch_size <= L -> L mod batch_size <> 0 -> 1 <= W ->
  uniform_draws w ->
  exists w' evs,
    train_generator x reward iter_n_gen batch_size sentence_lengths w
    = (Raise RuntimeError, w')
    /\ trace w' = trace w ++ evs ++ [LogClose]
    /\ optimizer_steps evs = S n * (L / batch_size).
Proof.
  destruct x as [sx dx]. simpl.
  intros -> Hwf Hvoc Hrew Hsls HV HT Hmodel Hpar Hep Hbs Hle Hrem HW Hw.
  unfold wf in Hwf. simpl in Hwf. rewrite Nat.mul_1_r in Hwf.
  rewrite train_generator_epochs, Hep, train_generator_as_last_epoch by assumption.
  unfold last_epoch_only.
  unfold normalize_x. simpl. rewrite bind_lift.
  assert (Esl : default_sentence_lengths (Tensor [L; W] dx) sentence_lengths
                = Ok (effective_lengths L W sentence_lengths)).
  { unfold default_sentence_lengths, effective_lengths, size, len. simpl.
    destruct sentence_lengths as [sl|]; simpl; destruct (_ <? L); reflexivity. }
  rewrite Esl, bind_lift.
  destruct (default_reward_shaped L W dx reward Hrew) as (dr & Er & Hdr).
  rewrite Er, bind_lift.
  unfold SGD at 1. unfold bind at 1. rewrite bind_gets, Hpar.
  unfold ret at 1. cbv iota. rewrite bind_modify.
  unfold len at 1. simpl shape. cbv iota. rewrite bind_lift.
  set (w1 := emit LogHeader w).
  assert (Hw1 : uniform_draws w1) by (intros i; apply Hw).
  destruct (for_epochs_returns L W dx dr (effective_lengths L W sentence_lengths) batch_size
              HV HT Hmodel Hwf Hvoc Hdr Hsls (seq 0 n) unbound w1 Hbs Hle Hw1)
    as (l' & w2 & Eep & Hw2).
  rewrite (bind_run _ _ _ _ _ Eep).
  destruct (full_batches_returns L W dx dr (effective_lengths L W sentence_lengths) batch_size
              HV HT Hmodel Hwf Hvoc Hdr Hsls (L / batch_size) 0 w2)
    as (bs & w3 & Ebs & Hlen & Hbs_shaped & Hw3); [|assumption|].
  { simpl. rewrite Nat.mul_comm. apply Nat.Div0.mul_div_le. }
  rewrite (bind_run _ _ _ _ _ Ebs).
  assert (Hk : 1 <= L / batch_size) by (apply Nat.div_le_lower_bound; lia).
  assert (Hne : bs <> []) by (intros ->; simpl in Hlen; lia).
  assert (Eavg : exists avg, average (map br_loss bs) = Ok avg).
  { destruct bs as [|b bs']; [congruence|]. simpl. eauto. }
  destruct Eavg as [avg ->]. rewrite bind_lift, !bind_modify.
  destruct (cat_blocks batch_size [W; VOCAB_SIZE] (map br_prob bs)) as (dP & EP & HP).
  { destruct bs; [congruence | discriminate]. }
  { apply Forall_forall. intros t Ht. apply in_map_iff in Ht as (b & <- & Hb).
    rewrite Forall_forall in Hbs_shaped. destruct (Hbs_shaped b Hb) as [(dp & -> & Hdp) _].
    simpl. split; [reflexivity | lia]. }
  destruct (cat_blocks batch_size [W] (map br_out bs)) as (dO & EO & HO).
  { destruct bs; [congruence | discriminate]. }
  { apply Forall_forall. intros t Ht. apply in_map_iff in Ht as (b & <- & Hb).
    rewrite Forall_forall in Hbs_shaped. destruct (Hbs_shaped b Hb) as [_ (dy & -> & Hdy)].
    simpl. split; [reflexivity | lia]. }
  rewrite length_map, Hlen in EP, HP, EO, HO.
  rewrite EP, bind_lift, EO, bind_lift.
  assert (Hshort : L / batch_size * batch_size < L).
  { pose proof (Nat.div_mod_eq L batch_size). nia. }
  assert (Eview : view [L; W] (Tensor [L / batch_size * batch_size; W] dO)
                  = Raise RuntimeError).
  { unfold view, numel. simpl. simpl in HO. rewrite HO.
    replace (L * (W * 1) =? L / batch_size * batch_size * (W * 1)) with false;
      [reflexivity|].
    symmetry. apply Nat.eqb_neq. nia. }
  simpl shape. rewrite Eview.
  apply for_epochs_trace in Eep as (avgs & Hal & _ & Ht); [|assumption].
  apply full_batches_trace in Ebs as (xbs & Hxbs & Hxl & _ & Htb).
  eexists. exists (LogHeader :: concat (imap_from 0 (epoch_events batch_size xbs) avgs)
                     ++ epoch_events batch_size xbs n avg).
  split; [reflexivity|]. split.
  - simpl. rewrite Htb, (Ht xbs Hxbs). unfold w1, epoch_events. simpl.
    now rewrite <- !app_assoc.
  - change (LogHeader :: ?l) with ([LogHeader] ++ l).
    rewrite !optimizer_steps_app, optimizer_steps_epochs. unfold epoch_events.
    rewrite optimizer_steps_app, optimizer_steps_batches.
    unfold optimizer_steps. simpl. rewrite Hal, Hxl. lia.
Qed.

(** ** train_generator: sentence lengths that are no vocabulary indices *)

Lemma bind_lift_raise {A B} e (k : A -> M B) w : bind (lift (Raise e)) k w = (Raise e, w).
Proof. reflexivity. Qed.

Lemma batch_step_invalid_length L W dx dr sls batch_size pointer w :
  scores_every_position W VOCAB_SIZE ->
  length dx = L * W -> length dr = L * W ->
  pointer + batch_size <= L ->
  Exists (fun t => ~ valid_index VOCAB_SIZE t) (firstn batch_size (skipn pointer sls)) ->
  exists w1 x_batch,
    batch_step (Tensor [L; W] dx) (Tensor [L; W] dr) sls batch_size pointer w
    = (Raise IndexError, w1)
    /\ parameters w1 = parameters w
    /\ trace w1 = trace w ++ [InitHidden batch_size; ModelCall x_batch None].
Proof.
  intros Hmodel Hdx Hdr Hp Hbad. unfold batch_step.
  destruct (slice_block L [W] pointer batch_size (Tensor [L; W] dx) eq_refl)
    as (dxb & Ex & Hxb & _); [simpl; lia | assumption |].
  destruct (slice_block L [W] pointer batch_size (Tensor [L; W] dr) eq_refl)
    as (drb & Erb & Hrb & _); [simpl; lia | assumption |].
  rewrite Ex, bind_lift, Erb, bind_lift.
  unfold reset_hidden. rewrite bind_modify.
  set (w0 := emit (InitHidden batch_size) (set_hidden (init_hidden batch_size) w)).
  simpl in Hxb. rewrite Nat.mul_1_r in Hxb.
  destruct (Hmodel (values w0) (hidden w0) batch_size dxb Hxb) as (d & h' & Em & Hd).
  eexists. exists (Tensor [batch_size; W] dxb).
  split; [|split].
  - apply bind_raise. unfold Generator_forward. rewrite !bind_gets.
    rewrite (bind_run _ _ _ _ _ (call_pretrain_model_run _ _ _ _ _ Em)).
    rewrite bind_gets. simpl tag_space. cbv beta iota. rewrite bind_lift.
    rewrite (ignoreTokens_invalid VOCAB_SIZE);
      [| right; exists batch_size, W; reflexivity | exact Hbad].
    apply bind_lift_raise.
  - reflexivity.
  - simpl. now rewrite <- app_assoc.
Qed.

Lemma train_generator_invalid_length L W x reward iter_n_gen batch_size sentence_lengths w :
  shape x = [L; W] -> wf x -> reward_shaped L W reward ->
  scores_every_position W VOCAB_SIZE ->
  existsb requires_grad (parameters w) = true ->
  0 < epochs_of iter_n_gen ->
  1 <= batch_size -> batch_size <= L ->
  Exists (fun t => ~ valid_index VOCAB_SIZE t)
         (firstn batch_size (effective_lengths L W sentence_lengths)) ->
  exists w' x_batch,
    train_generator x reward iter_n_gen batch_size sentence_lengths w
    = (Raise IndexError, w')
    /\ parameters w' = parameters w
    /\ trace w' = trace w ++ [LogHeader; InitHidden batch_size; ModelCall x_batch None].
Proof.
  destruct x as [sx dx]. simpl.
  intros -> Hwf Hrew Hmodel Hpar Hep Hbs Hle Hbad.
  unfold wf in Hwf. simpl in Hwf. rewrite Nat.mul_1_r in Hwf.
  unfold train_generator.
  unfold normalize_x. simpl. rewrite bind_lift.
  assert (Esl : default_sentence_lengths (Tensor [L; W] dx) sentence_lengths
                = Ok (effective_lengths L W sentence_lengths)).
  { unfold default_sentence_lengths, effective_lengths, size, len. simpl.
    destruct sentence_lengths as [sl|]; simpl; destruct (_ <? L); reflexivity. }
  rewrite Esl, bind_lift.
  destruct (default_reward_shaped L W dx reward Hrew) as (dr & Er & Hdr).
  rewrite Er, bind_lift.
  unfold SGD at 1. unfold bind at 1. rewrite bind_gets, Hpar.
  unfold ret at 1. cbv iota. rewrite bind_modify.
  unfold len at 1. simpl shape. cbv iota. rewrite bind_lift.
  fold (epochs_of iter_n_gen).
  destruct (epochs_of iter_n_gen) as [|n]; [lia|].
  destruct (batch_step_invalid_length L W dx dr (effective_lengths L W sentence_lengths)
              batch_size 0 (emit LogHeader w) Hmodel Hwf Hdr)
    as (w1 & xb & Estep & Hp1 & Ht1); [simpl; lia | exact Hbad |].
  exists w1, xb. split; [|split].
  - apply bind_raise. simpl seq. cbn [for_epochs]. apply bind_raise.
    unfold train_epoch. apply bind_raise.
    cbn [while_batches]. simpl (0 + batch_size <=? L).
    replace (batch_size <=? L) with true by (symmetry; apply Nat.leb_le; lia).
    apply bind_raise. unfold train_batch. apply bind_raise. exact Estep.
  - rewrite Hp1. reflexivity.
  - rewrite Ht1. simpl. now rewrite <- app_assoc.
Qed.

(** X21: a sentence length of the first batch that is no index of the
    vocabulary stops the training at once.  [train_generator] hands the
    sentence lengths of a batch to the forward pass as tokens to ignore, so
    on a model that scores every position the first forward pass raises
    IndexError after the call of the model, before any optimizer step: the
    parameters are what they were, and the log stays open. *)
Theorem a_sentence_length_outside_the_vocabulary_stops_training
  L W x reward iter_n_gen batch_size sentence_lengths w :
  shape x = [L; W] -> wf x -> reward_shaped L W reward ->
  scores_every_position W VOCAB_SIZE ->
  existsb requires_grad (parameters w) = true ->
  0 < epochs_of iter_n_gen ->
  1 <= batch_size -> batch_size <= L ->
  Exists (fun t => ~ valid_index VOCAB_SIZE t)
         (firstn batch_size (effective_lengths L W sentence_lengths)) ->
  exists w' x_batch,
    train_generator x reward iter_n_gen batch_size sentence_lengths w
    = (Raise IndexError, w')
    /\ parameters w' = parameters w
    /\ trace w' = trace w ++ [LogHeader; InitHidden batch_size; ModelCall x_batch None].
Proof. apply train_generator_invalid_length. Qed.

(** X22: the default sentence lengths are the length [W] of the sequences;
    used as tokens to ignore, they make training impossible as soon as the
    sequences are at least as long as the vocabulary is large: with
    [sentence_lengths] left out and [VOCAB_SIZE <= W], [train_generator]
    raises IndexError in its first forward pass. *)
Theorem default_sentence_lengths_need_a_larger_vocabulary
  L W x reward iter_n_gen batch_size w :
  shape x = [L; W] -> wf x -> reward_shaped L W reward ->
  scores_every_position W VOCAB_SIZE ->
  existsb requires_grad (parameters w) = true ->
  0 < epochs_of iter_n_gen ->
  1 <= batch_size -> batch_size <= L ->
  VOCAB_SIZE <= W ->
  exists w',
    train_generator x reward iter_n_gen batch_size None w = (Raise IndexError, w')
    /\ parameters w' = parameters w.
Proof.
  intros Hs Hwf Hrew Hmodel Hpar Hep Hbs Hle HVW.
  destruct (train_generator_invalid_length L W x reward iter_n_gen batch_size None w)
    as (w' & xb & E & Hp & _); try assumption.
  - unfold effective_lengths. rewrite repeat_length, Nat.ltb_irrefl.
    destruct batch_size as [|b]; [lia|]. destruct L as [|L']; [lia|].
    simpl. apply Exists_cons_hd. unfold valid_index. lia.
  - exists w'. split; assumption.
Qed.

(** ** What every run of train_generator respects *)

Section TrainingFrame.

Variable Rel : world -> world -> Prop.
Hypothesis Rel_refl : forall w, Rel w w.
Hypothesis Rel_trans : forall w1 w2 w3, Rel w1 w2 -> Rel w2 w3 -> Rel w1 w3.
Hypothesis Rel_hidden : forall h w, Rel w (set_hidden h w).
Hypothesis Rel_tag_space : forall t w, Rel w (set_tag_space t w).
Hypothesis Rel_y_prob : forall t w, Rel w (set_y_prob t w).
Hypothesis Rel_y_output : forall t w, Rel w (set_y_output t w).
Hypothesis Rel_loss_variable : forall l w, Rel w (set_loss_variable l w).
Hypothesis Rel_rng : forall g w, Rel w (set_rng g w).
Hypothesis Rel_emit : forall e w, Rel w (emit e w).
Hypothesis Rel_zero_grad :
  forall w, Rel w (set_parameters (map zeroed (parameters w)) w).
Hypothesis Rel_backward :
  forall lv w, Rel w (set_parameters (imap (differentiated lv (values w)) (parameters w)) w).
Hypothesis Rel_step :
  forall w, Rel w (set_parameters (map stepped (parameters w)) w).

Ltac frame :=
  repeat first
    [ apply (respects_reset_hidden _ (fun _ => True) Rel_trans);
        [ apply Rel_hidden | intros; apply Rel_emit | exact I ]
    | apply (respects_Generator_forward _ (fun _ => True) Rel_refl Rel_trans);
        [ apply Rel_hidden | apply Rel_tag_space | apply Rel_y_prob | apply Rel_y_output
        | apply Rel_loss_variable | apply Rel_rng | intros; apply Rel_emit | exact I ]
    | apply (respects_ret _ Rel_refl)
    | apply (respects_lift _ Rel_refl)
    | apply (respects_gets _ Rel_refl)
    | apply (respects_bind _ Rel_trans); [|intros] ].

Lemma respects_batch_step x reward sentence_lengths batch_size pointer :
  respects Rel (batch_step x reward sentence_lengths batch_size pointer).
Proof.
  unfold batch_step, zero_grad, backward, step. frame.
  - apply respects_modify. apply Rel_zero_grad.
  - apply respects_modify. apply Rel_backward.
  - apply respects_modify. intros w.
    eapply Rel_trans; [apply Rel_step | apply Rel_emit].
Qed.

Lemma respects_train_batch x reward sentence_lengths batch_size pointer l :
  respects Rel (train_batch x reward sentence_lengths batch_size pointer l).
Proof.
  unfold train_batch.
  apply (respects_bind _ Rel_trans); [apply respects_batch_step|].
  intros [[yp yo] lv]. frame.
Qed.

Lemma respects_while_batches fuel x len_x reward sentence_lengths batch_size :
  forall pointer l,
    respects Rel (while_batches fuel x len_x reward sentence_lengths batch_size pointer l).
Proof.
  induction fuel as [|fuel IH]; intros pointer l; simpl;
    destruct (pointer + batch_size <=? len_x);
    try apply (respects_ret _ Rel_refl); try apply (respects_lift _ Rel_refl).
  apply (respects_bind _ Rel_trans); [apply respects_train_batch | intros; apply IH].
Qed.

Lemma respects_train_epoch x len_x reward sentence_lengths batch_size epoch l :
  respects Rel (train_epoch x len_x reward sentence_lengths batch_size epoch l).
Proof.
  unfold train_epoch.
  apply (respects_bind _ Rel_trans); [apply respects_while_batches|]. intros l1.
  apply (respects_bind _ Rel_trans); [apply (respects_lift _ Rel_refl) | intros].
  apply (respects_bind _ Rel_trans); [|intros; apply (respects_ret _ Rel_refl)].
  apply respects_modify. intros w. apply Rel_emit.
Qed.

Lemma respects_for_epochs epochs x len_x reward sentence_lengths batch_size :
  forall l, respects Rel (for_epochs epochs x len_x reward sentence_lengths batch_size l).
Proof.
  induction epochs as [|e epochs IH]; intros l; simpl.
  - apply (respects_ret _ Rel_refl).
  - apply (respects_bind _ Rel_trans); [apply respects_train_epoch | intros; apply IH].
Qed.

Lemma respects_train_generator x reward iter_n_gen batch_size sentence_lengths :
  respects Rel (train_generator x reward iter_n_gen batch_size sentence_lengths).
Proof.
  unfold train_generator.
  do 3 (apply (respects_bind _ Rel_trans); [apply (respects_lift _ Rel_refl) | intros]).
  apply (respects_bind _ Rel_trans).
  { unfold SGD. apply (respects_bind _ Rel_trans); [apply (respects_gets _ Rel_refl)|].
    intros ps. destruct (existsb requires_grad ps);
      [apply (respects_ret _ Rel_refl) | apply (respects_lift _ Rel_refl)]. }
  intros _. apply (respects_bind _ Rel_trans).
  { apply respects_modify. intros w. apply Rel_emit. }
  intros _. apply (respects_bind _ Rel_trans); [apply (respects_lift _ Rel_refl) | intros].
  apply (respects_bind _ Rel_trans); [apply respects_for_epochs | intros].
  apply (respects_bind _ Rel_trans).
  { apply respects_modify. intros w. apply Rel_emit. }
  intros _. frame.
Qed.

End TrainingFrame.

Lemma kept_if_frozen_refl ps : Forall2 kept_if_frozen ps ps.
Proof. induction ps; constructor; [split; auto | assumption]. Qed.

Lemma kept_if_frozen_trans ps1 : forall ps2 ps3,
  Forall2 kept_if_frozen ps1 ps2 -> Forall2 kept_if_frozen ps2 ps3 ->
  Forall2 kept_if_frozen ps1 ps3.
Proof.
  induction ps1 as [|p ps1 IH]; intros ps2 ps3 H12 H23;
    inversion H12; subst; inversion H23; subst; constructor.
  - match goal with A : kept_if_frozen p ?q, B : kept_if_frozen ?q ?r |- _ =>
      destruct A as [A1 A2], B as [B1 B2] end.
    split; [congruence|]. intros Hf. rewrite B2 by congruence. now apply A2.
  - eapply IH; eassumption.
Qed.

Lemma kept_if_frozen_map f ps :
  (forall p, kept_if_frozen p (f p)) -> Forall2 kept_if_frozen ps (map f ps).
Proof. intros H. induction ps; simpl; constructor; auto. Qed.

Lemma kept_if_frozen_imap f ps : forall i,
  (forall j p, kept_if_frozen p (f j p)) -> Forall2 kept_if_frozen ps (imap_from i f ps).
Proof. induction ps; intros i H; simpl; constructor; auto. Qed.

Lemma frozen_parameters_kept_refl w : frozen_parameters_kept w w.
Proof. split; [apply kept_if_frozen_refl | split; reflexivity]. Qed.

Lemma frozen_parameters_kept_trans w1 w2 w3 :
  frozen_parameters_kept w1 w2 -> frozen_parameters_kept w2 w3 ->
  frozen_parameters_kept w1 w3.
Proof.
  intros (A1 & A2 & A3) (B1 & B2 & B3). split; [|split; congruence].
  eapply kept_if_frozen_trans; eassumption.
Qed.

(** X23: whatever its arguments and its outcome, [train_generator] keeps the
    number and the order of the parameters of the model and which of them
    require a gradient, leaves every parameter that requires none exactly
    as it was, value and gradient, and leaves the start token and the
    ignored tokens of the generator as they were. *)
Theorem training_keeps_frozen_parameters
  x reward iter_n_gen batch_size sentence_lengths w :
  frozen_parameters_kept
    w (snd (train_generator x reward iter_n_gen batch_size sentence_lengths w)).
Proof.
  revert w.
  change (respects frozen_parameters_kept
            (train_generator x reward iter_n_gen batch_size sentence_lengths)).
  apply respects_train_generator.
  - apply frozen_parameters_kept_refl.
  - apply frozen_parameters_kept_trans.
  - intros; split; [apply kept_if_frozen_refl | split; reflexivity].
  - intros; split; [apply kept_if_frozen_refl | split; reflexivity].
  - intros; split; [apply kept_if_frozen_refl | split; reflexivity].
  - intros; split; [apply kept_if_frozen_refl | split; reflexivity].
  - intros; split; [apply kept_if_frozen_refl | split; reflexivity].
  - intros; split; [apply kept_if_frozen_refl | split; reflexivity].
  - intros; split; [apply kept_if_frozen_refl | split; reflexivity].
  - intros w. split; [|split; reflexivity]. simpl. apply kept_if_frozen_map.
    intros p. unfold zeroed, kept_if_frozen.
    destruct (requires_grad p) eqn:E; simpl; auto. split; [auto | discriminate].
  - intros lv w. split; [|split; reflexivity]. simpl. apply kept_if_frozen_imap.
    intros j p. unfold differentiated, kept_if_frozen.
    destruct (requires_grad p) eqn:E; simpl; auto. split; [auto | discriminate].
  - intros w. split; [|split; reflexivity]. simpl. apply kept_if_frozen_map.
    intros p. unfold stepped, kept_if_frozen.
    destruct (requires_grad p) eqn:E; simpl; auto.
    destruct (grad p); simpl; split; auto; discriminate.
Qed.

(** ** train_generator: a batch size of zero *)

Lemma while_batches_of_nothing x len_x reward sentence_lengths fuel : forall l w l' w',
  while_batches fuel x len_x reward sentence_lengths 0 0 l w <> (Ok l', w').
Proof.
  induction fuel as [|fuel IH]; intros l w l' w' H; simpl in H.
  - discriminate.
  - step_ok H l1 w1 H1. exact (IH _ _ _ _ H).
Qed.

(** X24: with a batch size of zero and at least one epoch [train_generator]
    never returns: the pointer of the [while] loop does not advance, so
    the loop either raises or goes on for ever. *)
Theorem a_batch_size_of_zero_never_returns
  x reward iter_n_gen sentence_lengths w :
  0 < epochs_of iter_n_gen ->
  exists e, fst (train_generator x reward iter_n_gen 0 sentence_lengths w) = Raise e.
Proof.
  intros Hep.
  destruct (train_generator x reward iter_n_gen 0 sentence_lengths w) as [[out|e] w'] eqn:H;
    [exfalso | simpl; eauto].
  unfold train_generator in H.
  step_ok H x' w1 H1. step_ok H sls w2 H2. step_ok H r w3 H3.
  fold (epochs_of iter_n_gen) in H.
  step_ok H u w4 H4. step_ok H u1 w5 H5. step_ok H len_x w6 H6.
  step_ok H l w7 H7.
  destruct (epochs_of iter_n_gen) as [|n]; [lia|].
  simpl in H7. step_ok H7 l1 w8 H8.
  unfold train_epoch in H8. step_ok H8 l2 w9 H9.
  exact (while_batches_of_nothing _ _ _ _ _ _ _ _ _ H9).
Qed.

Lemma map_value_zeroed ps : map value (map zeroed ps) = map value ps.
Proof.
  rewrite map_map. apply map_ext. intros p. unfold zeroed.
  destruct (requires_grad p); reflexivity.
Qed.

(** ** The sanity checks *)

(** X26: [sanityCheck_GeneratorLoss] cannot be run on a pretraining result
    that is handed to it.  Its local [x] is assigned only where it reads the
    sample itself, so with a result given it never returns: it raises, at
    the latest UnboundLocalError where the loss is to be called, and then
    the test log has been opened and is left open.  It has zeroed gradients
    at most: the values of the parameters and the trace of the generator
    are what they were. *)
Theorem sanity_check_of_the_loss_rejects_a_given_result
  (pretrain_result : tensor R * (list R -> tensor R)) batch_size tl w :
  let run := sanityCheck_GeneratorLoss (Some pretrain_result) batch_size tl w in
  (exists e, fst run = Raise e)
  /\ values (snd (snd run)) = values w
  /\ trace (snd (snd run)) = trace w
  /\ (fst (snd run) = tl \/ fst (snd run) = tl ++ [TestOpen; TestGeneratorLoss])
  /\ (forall y, view_batches SEQ_LENGTH VOCAB_SIZE (fst pretrain_result) = Ok y ->
        existsb requires_grad (parameters w) = true ->
        fst run = Raise UnboundLocalError
        /\ fst (snd run) = tl ++ [TestOpen; TestGeneratorLoss]).
Proof.
  destruct pretrain_result as [y_pred y_graph]. cbv zeta.
  unfold sanityCheck_GeneratorLoss, tbind, tret, tlift, tlog, lift. simpl fst.
  destruct (view_batches SEQ_LENGTH VOCAB_SIZE y_pred) as [y|e] eqn:Ev.
  2:{ simpl. repeat split; eauto; discriminate. }
  assert (Hs : exists n, shape y = [n; SEQ_LENGTH; VOCAB_SIZE]).
  { unfold view_batches in Ev. destruct (_ =? 0); [discriminate|].
    destruct (_ =? 0); [|discriminate]. injection Ev as <-. simpl. eauto. }
  destruct Hs as [n Hs].
  unfold sum_dim2. rewrite Hs. cbv iota.
  unfold SGD, bind, gets, ret, lift, zero_grad, modify.
  destruct (existsb requires_grad (parameters w)) eqn:Ep.
  2:{ simpl. repeat split; eauto; discriminate. }
  unfold slice_of, slice. rewrite Hs. simpl.
  assert (Hv : values (set_parameters (map zeroed (parameters w)) w) = values w).
  { unfold values. simpl. apply map_value_zeroed. }
  rewrite <- !app_assoc. simpl.
  repeat split; eauto.
Qed.

Lemma valid_sequence_length L W :
  W < VOCAB_SIZE ->
  Forall (valid_index VOCAB_SIZE) (effective_lengths L W None).
Proof.
  intros H. unfold effective_lengths. rewrite repeat_length, Nat.ltb_irrefl.
  apply Forall_forall. intros t Ht. apply repeat_spec in Ht as ->.
  unfold valid_index. lia.
Qed.

(** X27: what the sanity check of the generator needs to run through.  Given
    a generator with a trainable parameter, a model that scores every
    position, at least one epoch as [GEN_NUM_EPOCH], and a sample of
    [L >= 1] sequences of [W] tokens of the vocabulary: where the sequences
    are shorter than the vocabulary is large, [sanityCheck_generator]
    returns probabilities of shape [L; W; VOCAB_SIZE] and outputs of shape
    [L; W], and has written its lines to the test log, the two shapes among
    them, and closed it; where they are not, it raises the IndexError of
    the first forward pass and leaves the test log open. *)
Theorem sanity_check_of_the_generator_needs_short_sequences L W x tl w w1 :
  read_sampleFile w = (Ok x, w1) ->
  shape x = [L; W] -> wf x -> Forall (in_vocab VOCAB_SIZE) (data x) ->
  1 <= L ->
  VOCAB_SIZE <> 0 -> (0 < EXP_UNDERFLOW)%R ->
  scores_every_position W VOCAB_SIZE ->
  existsb requires_grad (parameters w1) = true ->
  1 <= GEN_NUM_EPOCH ->
  uniform_draws w1 ->
  (W < VOCAB_SIZE ->
   exists P O w',
     sanityCheck_generator true tl w
     = (Ok (P, O),
        (tl ++ [TestOpen; TestGenerator; TestTrainedOutputs;
                TestOutputShape [L; W]; TestProbShape [L; W; VOCAB_SIZE]; TestClose],
         w'))
     /\ shape P = [L; W; VOCAB_SIZE] /\ shape O = [L; W])
  /\ (VOCAB_SIZE <= W ->
      exists w',
        sanityCheck_generator true tl w
        = (Raise IndexError, (tl ++ [TestOpen; TestGenerator], w'))).
Proof.
  intros Eread Hs Hwf Hvoc HL HV HT Hmodel Hpar Hep Hw. split.
  - intros HWV.
    destruct GEN_NUM_EPOCH as [|n] eqn:En; [lia|].
    destruct (train_generator_returns L W x None n 1 None w1 Hs Hwf Hvoc I
                (valid_sequence_length L W HWV) HV HT Hmodel Hpar)
      as (P & O & w' & Erun & HP & HO); [lia | lia | apply Nat.mod_1_r | exact Hw |].
    rewrite <- train_generator_as_last_epoch in Erun by lia.
    assert (Erun' : train_generator x None None 1 None w1 = (Ok (P, O), w')).
    { rewrite train_generator_epochs. unfold epochs_of. rewrite En. exact Erun. }
    exists P, O, w'. split; [|split; assumption].
    unfold sanityCheck_generator, tbind, tlog, tlift, tret.
    rewrite Eread, Erun', HP, HO. rewrite <- !app_assoc. reflexivity.
  - intros HVW.
    destruct (train_generator_invalid_length L W x None None 1 None w1)
      as (w' & xb & Erun & _ & _); try assumption; try lia; try exact I.
    { unfold effective_lengths. rewrite repeat_length, Nat.ltb_irrefl.
      destruct L as [|L']; [lia|]. simpl. apply Exists_cons_hd. unfold valid_index. lia. }
    exists w'.
    unfold sanityCheck_generator, tbind, tlog, tlift, tret.
    rewrite Eread, Erun. rewrite <- !app_assoc. reflexivity.
Qed.

End Generator.

(** * The statements at concrete inputs *)

(** ** The loss of one position under a uniform prediction *)

Lemma clamp1_fifth : clamp1 (1/5) = (1/5)%R.
Proof.
  unfold clamp1, CLAMP_MIN. rewrite Rmax_left by lra. rewrite Rmin_left by lra. reflexivity.
Qed.

Lemma ln_fifth_negative : (ln (1/5) < 0)%R.
Proof.
  rewrite <- ln_1. apply ln_increasing; lra.
Qed.

Lemma loss_terms_uniform5 :
  Rsum (loss_terms 5 (data uniform5) (data token2) (data reward1)) = ln (1/5).
Proof.
  unfold loss_terms, Rsum, pick. simpl.
  change (Pos.to_nat 2) with 2. simpl. rewrite clamp1_fifth. lra.
Qed.

(** C1: on one position with probability 0.2 for each of 5 vocabulary
    entries, reference token 2 and reward 1.0, [GeneratorLoss.forward]
    returns [ln 0.2], a negative number: the sum itself, where the docstring
    and the claim have minus the sum, [- ln 0.2]. *)
Theorem loss_is_not_negated :
  GeneratorLoss_forward 5 uniform5 token2 reward1 = Ok (ln (1/5))
  /\ (ln (1/5) < 0)%R
  /\ negated_weighted_sum 5 uniform5 token2 reward1 = (- ln (1/5))%R
  /\ GeneratorLoss_forward 5 uniform5 token2 reward1
     <> Ok (negated_weighted_sum 5 uniform5 token2 reward1).
Proof.
  assert (E : GeneratorLoss_forward 5 uniform5 token2 reward1 = Ok (ln (1/5))).
  { unfold uniform5, token2, reward1. rewrite loss_well_shaped.
    - f_equal. exact loss_terms_uniform5.
    - discriminate.
    - reflexivity.
    - reflexivity.
    - constructor; [unfold in_vocab; simpl; lia | constructor]. }
  assert (N : negated_weighted_sum 5 uniform5 token2 reward1 = (- ln (1/5))%R).
  { unfold negated_weighted_sum. now rewrite loss_terms_uniform5. }
  pose proof ln_fifth_negative as Hneg.
  repeat split; try assumption.
  rewrite E, N. intros H. injection H as H. lra.
Qed.

Lemma toy_scores_one_position :
  scores_one_position unit Toy.pretrain_model Toy.VOCAB_SIZE.
Proof.
  intros theta h n dx Hn. unfold Toy.pretrain_model, numel. simpl.
  eexists; eexists. split; [reflexivity|].
  rewrite repeat_length, Hn. lia.
Qed.

Lemma toy_uniform_draws : uniform_draws unit Toy.w0.
Proof. intros n. simpl. lra. Qed.

(** ** Runs of the small model *)

Lemma training_with_zero_reward_witness :
  values unit
    (snd (train_generator Toy.VOCAB_SIZE 1 Toy.MAXINT Toy.EXP_UNDERFLOW unit
            Toy.init_hidden Toy.pretrain_model Toy.x0 (Some Toy.zero_reward)
            (Some 1) 1 None Toy.w0))
  = values unit Toy.w0.
Proof.
  apply (zero_reward_keeps_parameters Toy.VOCAB_SIZE 1 Toy.MAXINT Toy.EXP_UNDERFLOW unit
           Toy.init_hidden Toy.pretrain_model Toy.x0 Toy.zero_reward (Some 1) 1 None Toy.w0).
  unfold all_zero, Toy.zero_reward. simpl.
  repeat (constructor; [reflexivity|]). constructor.
Defined.

Lemma zero_rewards_zero_loss_witness :
  Single.GeneratorLoss_forward 2 (Single.numbers two_predictions) two_tokens two_zero_rewards
  = Ok (Some 0%R).
Proof.
  apply (zero_rewards_zero_loss 2 (Single.numbers two_predictions) two_tokens two_zero_rewards).
  - simpl. repeat (constructor; [eexists; reflexivity|]). constructor.
  - simpl. repeat (constructor; [reflexivity|]). constructor.
  - discriminate.
  - reflexivity.
  - reflexivity.
  - simpl. repeat (constructor; [unfold in_vocab; simpl; lia|]). constructor.
Defined.

Lemma batch_permutation_witness :
  GeneratorLoss_forward 2 (permute_batch [1; 0] two_predictions)
                        (permute_batch [1; 0] two_tokens)
                        (permute_batch [1; 0] two_rewards)
  = GeneratorLoss_forward 2 two_predictions two_tokens two_rewards
  /\ Single.GeneratorLoss_forward 2 (permute_batch [1; 0] (Single.numbers two_predictions))
                                  (permute_batch [1; 0] two_tokens)
                                  (permute_batch [1; 0] (Single.numbers two_rewards))
     = Ok (Single.total
             (concat (map (single_batch_terms 2 1 2 (data (Single.numbers two_predictions))
                                              (data two_tokens)
                                              (data (Single.numbers two_rewards)))
                          [1; 0]))).
Proof.
  destruct (loss_invariant_under_batch_permutation 2 2 1 [1; 0]
              two_predictions two_tokens two_rewards) as [Hreal Hsingle];
    try reflexivity.
  - simpl. apply perm_swap.
  - split; [exact Hreal|].
    destruct (Hsingle (Single.numbers two_predictions) (Single.numbers two_rewards))
      as (_ & H & _).
    + discriminate.
    + simpl. repeat (constructor; [unfold in_vocab; simpl; lia|]). constructor.
    + reflexivity.
    + reflexivity.
    + reflexivity.
    + reflexivity.
    + exact H.
Defined.

Lemma ignoreTokens_witness :
  ignoreTokens Toy.MAXINT (Tensor [1; 2] [1%R; 2%R]) (Some [0%Z])
  = Ok (Tensor [1; 2] [IZR (- Toy.MAXINT); 2%R]).
Proof.
  assert (Hs : vocab_last (shape (Tensor [1; 2] [1%R; 2%R])) 2) by (left; exists 1; reflexivity).
  assert (Hv : Forall (valid_index 2) [0%Z]).
  { constructor; [unfold valid_index; simpl; lia | constructor]. }
  destruct (ignoreTokens_masks_suppressed Toy.MAXINT 2 (Tensor [1; 2] [1%R; 2%R]) [0%Z] Hs Hv)
    as [(masked & E & _) _].
  rewrite E. simpl in E. injection E as <-. reflexivity.
Defined.

Lemma oversized_batch_witness :
  fst (train_generator Toy.VOCAB_SIZE 1 Toy.MAXINT Toy.EXP_UNDERFLOW unit
         Toy.init_hidden Toy.pretrain_model Toy.x0 None (Some 1) 3 None Toy.w0)
  = Raise ZeroDivisionError.
Proof.
  assert (Hlt : num_sequences Toy.x0 < 3) by (unfold num_sequences; simpl; lia).
  destruct (oversized_batch_fails Toy.VOCAB_SIZE 1 Toy.MAXINT Toy.EXP_UNDERFLOW unit
              Toy.init_hidden Toy.pretrain_model Toy.x0 None (Some 1) 3 None Toy.w0 Hlt)
    as (_ & _ & _ & H).
  rewrite (H 2 2); [reflexivity | reflexivity | reflexivity | simpl; lia].
Defined.

Lemma toy_scores_every_position :
  scores_every_position unit Toy.pretrain_model 2 Toy.VOCAB_SIZE.
Proof.
  intros theta h n dx Hn. unfold Toy.pretrain_model, numel. simpl.
  eexists; eexists. split; [reflexivity|].
  rewrite repeat_length, Hn. reflexivity.
Qed.

Lemma last_epoch_witness :
  exists P O w',
    train_generator Toy.VOCAB_SIZE 1 Toy.MAXINT Toy.EXP_UNDERFLOW unit
      Toy.init_hidden Toy.pretrain_model Toy.x0 None (Some 2) 1 None Toy.w0
    = (Ok (P, O), w')
    /\ shape P = [2; 2; 3]
    /\ shape O = [2; 2].
Proof.
  assert (H1 : 1 <= 1) by lia.
  destruct (returns_last_epoch_only Toy.VOCAB_SIZE 1 Toy.MAXINT Toy.EXP_UNDERFLOW unit
              Toy.init_hidden Toy.pretrain_model 2 2 Toy.x0 None 1 1 None Toy.w0 H1)
    as [_ Hrun].
  apply Hrun.
  - reflexivity.
  - reflexivity.
  - unfold in_vocab, Toy.VOCAB_SIZE. simpl.
    repeat (constructor; [lia|]). constructor.
  - exact I.
  - unfold valid_index, Toy.VOCAB_SIZE. simpl.
    repeat (constructor; [lia|]). constructor.
  - discriminate.
  - unfold Toy.EXP_UNDERFLOW. lra.
  - exact toy_scores_every_position.
  - reflexivity.
  - lia.
  - reflexivity.
  - exact toy_uniform_draws.
Defined.

Lemma generate_witness :
  exists t w',
    generate 4 Toy.MAXINT Toy.EXP_UNDERFLOW unit Toy.init_hidden Toy.pretrain_model
             None None 2 Toy.w0 = (Ok t, w')
    /\ shape t = [2; 4]
    /\ wf t
    /\ forall i, i < 2 -> nth (i * 4) (data t) 0%Z = 0%Z.
Proof.
  apply (generate_rows_start_with_start_token 4 Toy.VOCAB_SIZE Toy.MAXINT Toy.EXP_UNDERFLOW
           unit Toy.init_hidden Toy.pretrain_model None None 2 Toy.w0).
  - lia.
  - lia.
  - discriminate.
  - unfold Toy.EXP_UNDERFLOW. lra.
  - exact toy_scores_one_position.
  - simpl. constructor; [unfold valid_index, Toy.VOCAB_SIZE; simpl; lia | constructor].
  - simpl. lia.
  - exact toy_uniform_draws.
Defined.




(** ** The further properties at concrete inputs *)

Lemma toy_scores_sequences S :
  scores_every_position unit Toy.pretrain_model S Toy.VOCAB_SIZE.
Proof.
  intros theta h n dx Hn. unfold Toy.pretrain_model, numel. simpl.
  eexists; eexists. split; [reflexivity|].
  rewrite repeat_length, Hn. reflexivity.
Qed.


Lemma loss_bad_token_witness :
  GeneratorLoss_forward 5 uniform5 (Tensor [1; 1] [7%Z]) reward1 = Raise RuntimeError.
Proof.
  apply (loss_rejects_out_of_vocabulary_token 5 uniform5 (Tensor [1; 1] [7%Z]) reward1 7%Z).
  - discriminate.
  - reflexivity.
  - simpl. left. reflexivity.
  - unfold in_vocab. simpl. lia.
Defined.


Lemma loss_mismatch_witness :
  GeneratorLoss_forward 2 two_predictions two_tokens (Tensor [3] [1%R; 1%R; 1%R])
  = Raise RuntimeError.
Proof.
  apply (loss_rejects_mismatched_rewards 2 two_predictions two_tokens
           (Tensor [3] [1%R; 1%R; 1%R])).
  - discriminate.
  - reflexivity.
  - simpl. repeat (constructor; [unfold in_vocab; simpl; lia|]). constructor.
  - unfold numel. simpl. lia.
  - unfold numel. simpl. lia.
  - unfold numel. simpl. lia.
Defined.

Lemma ignoreTokens_positions_witness :
  ignoreTokens Toy.MAXINT (Tensor [1; 2] [1%R; 2%R]) (Some [0%Z; 0%Z])
  = ignoreTokens Toy.MAXINT (Tensor [1; 2] [1%R; 2%R]) (Some [(-2)%Z])
  /\ exists masked,
       ignoreTokens Toy.MAXINT (Tensor [1; 2] [1%R; 2%R]) (Some [0%Z; 0%Z]) = Ok masked
       /\ ignoreTokens Toy.MAXINT masked (Some [(-2)%Z]) = Ok masked.
Proof.
  apply (ignoreTokens_depends_on_the_positions_named Toy.MAXINT 2
           (Tensor [1; 2] [1%R; 2%R]) [0%Z; 0%Z] [(-2)%Z]).
  - left. exists 1. reflexivity.
  - repeat (constructor; [unfold valid_index; simpl; lia|]). constructor.
  - constructor; [unfold valid_index; simpl; lia | constructor].
  - intros k Hk. destruct k as [|[|k]]; [reflexivity | reflexivity | lia].
Defined.

Lemma ignoreTokens_range_witness :
  ignoreTokens Toy.MAXINT (Tensor [1; 2] [1%R; 2%R]) (Some [0%Z; 2%Z]) = Raise IndexError.
Proof.
  apply (ignoreTokens_rejects_an_index_out_of_range Toy.MAXINT 2
           (Tensor [1; 2] [1%R; 2%R]) [0%Z; 2%Z]).
  - left. exists 1. reflexivity.
  - right. left. unfold valid_index. simpl. lia.
Defined.

Lemma ignoreTokens_vector_witness :
  ignoreTokens Toy.MAXINT (Tensor [2] [1%R; 2%R]) (Some [0%Z]) = Raise IndexError.
Proof.
  apply (ignoreTokens_rejects_a_vector Toy.MAXINT (Tensor [2] [1%R; 2%R]) 0%Z []).
  simpl. lia.
Defined.

Lemma toy_ignored_ok : ignored_ok Toy.VOCAB_SIZE (effective_ignored unit None Toy.w0).
Proof. simpl. constructor; [unfold valid_index; simpl; lia | constructor]. Qed.

Lemma toy_underflow : (0 < Toy.EXP_UNDERFLOW)%R.
Proof. unfold Toy.EXP_UNDERFLOW. lra. Qed.

Lemma toy_vocabulary : Toy.VOCAB_SIZE <> 0.
Proof. discriminate. Qed.

Lemma forward_distributions_witness :
  exists dp dy,
    y_prob (snd (Generator_forward Toy.VOCAB_SIZE Toy.MAXINT Toy.EXP_UNDERFLOW unit
                   Toy.pretrain_model Toy.x0 None None None Toy.w0))
    = Some (Tensor [2; 2; Toy.VOCAB_SIZE] dp)
    /\ y_output (snd (Generator_forward Toy.VOCAB_SIZE Toy.MAXINT Toy.EXP_UNDERFLOW unit
                        Toy.pretrain_model Toy.x0 None None None Toy.w0))
       = Some (Tensor [2; 2] dy)
    /\ forall p, p < 2 * 2 ->
         distribution (nth p (rows (2 * 2) Toy.VOCAB_SIZE dp) [])
         /\ in_vocab Toy.VOCAB_SIZE (nth p dy 0%Z).
Proof.
  pose proof (forward_stores_distributions_and_draws Toy.VOCAB_SIZE Toy.MAXINT
                Toy.EXP_UNDERFLOW unit Toy.pretrain_model 2 2 (data Toy.x0) None None None
                Toy.w0 toy_vocabulary toy_underflow (toy_scores_sequences 2) eq_refl
                toy_ignored_ok toy_uniform_draws) as H.
  cbv zeta in H. destruct H as (dp & dy & Hp & Ho & _ & _ & Hrows & _).
  exists dp, dy. split; [exact Hp|]. split; [exact Ho|].
  intros p Hlt. destruct (Hrows p Hlt) as (Hd & _ & Hv). split; assumption.
Defined.

Lemma forward_without_rewards_witness :
  Generator_forward Toy.VOCAB_SIZE Toy.MAXINT Toy.EXP_UNDERFLOW unit Toy.pretrain_model
                    Toy.x0 None None None Toy.w0
  = Generator_forward Toy.VOCAB_SIZE Toy.MAXINT Toy.EXP_UNDERFLOW unit Toy.pretrain_model
                      Toy.x0 (Some (ones [2; 2])) None None Toy.w0.
Proof.
  apply (forward_without_rewards_weighs_every_position_by_one Toy.VOCAB_SIZE Toy.MAXINT
           Toy.EXP_UNDERFLOW unit Toy.pretrain_model 2 2 (data Toy.x0) None None Toy.w0).
  - exact toy_vocabulary.
  - exact toy_underflow.
  - exact (toy_scores_sequences 2).
  - reflexivity.
  - exact toy_ignored_ok.
  - exact toy_uniform_draws.
Defined.

Lemma forward_bad_token_witness :
  fst (Generator_forward Toy.VOCAB_SIZE Toy.MAXINT Toy.EXP_UNDERFLOW unit Toy.pretrain_model
         bad_tokens None None None Toy.w0)
  = Raise RuntimeError.
Proof.
  pose proof (forward_notices_a_bad_token_after_sampling Toy.VOCAB_SIZE Toy.MAXINT
                Toy.EXP_UNDERFLOW unit Toy.pretrain_model 2 2 (data bad_tokens) None None None
                Toy.w0 toy_vocabulary toy_underflow (toy_scores_sequences 2) eq_refl
                toy_ignored_ok toy_uniform_draws) as H.
  cbv zeta in H. apply H.
  intros Hall. simpl in Hall.
  inversion Hall as [|? ? _ H1]; subst. inversion H1 as [|? ? _ H2]; subst.
  inversion H2 as [|? ? _ H3]; subst. inversion H3 as [|? ? H4 _]; subst.
  unfold in_vocab, Toy.VOCAB_SIZE in H4. simpl in H4. lia.
Defined.

Lemma toy_scores_clear_of_mask :
  scores_clear_of_mask Toy.MAXINT Toy.EXP_UNDERFLOW unit Toy.pretrain_model
                       Toy.VOCAB_SIZE [0%Z].
Proof.
  intros theta h n dx d h' E p Hp. unfold Toy.pretrain_model in E.
  injection E as <- _.
  exists 1. split; [unfold Toy.VOCAB_SIZE; lia|]. split; [reflexivity|].
  rewrite nth_repeat. unfold Toy.MAXINT, Toy.EXP_UNDERFLOW. simpl. lra.
Qed.

Lemma generate_tokens_witness :
  exists t w',
    generate 4 Toy.MAXINT Toy.EXP_UNDERFLOW unit Toy.init_hidden Toy.pretrain_model
             None None 2 Toy.w0 = (Ok t, w')
    /\ shape t = [2; 4]
    /\ forall i j, i < 2 -> 1 <= j < 4 ->
         in_vocab Toy.VOCAB_SIZE (nth (i * 4 + j) (data t) 0%Z)
         /\ ignored_at Toy.VOCAB_SIZE [0%Z] (Z.to_nat (nth (i * 4 + j) (data t) 0%Z)) = false.
Proof.
  destruct (generate_appends_tokens_of_the_vocabulary 4 Toy.VOCAB_SIZE Toy.MAXINT
              Toy.EXP_UNDERFLOW unit Toy.init_hidden Toy.pretrain_model None None 2 Toy.w0)
    as (t & w' & E & Hs & Hall).
  - lia.
  - exact toy_vocabulary.
  - unfold Toy.VOCAB_SIZE. simpl. lia.
  - exact toy_underflow.
  - exact toy_scores_one_position.
  - exact toy_ignored_ok.
  - exact toy_uniform_draws.
  - exists t, w'. split; [exact E|]. split; [exact Hs|].
    intros i j Hi Hj. destruct (Hall i j Hi Hj) as [Hv Hfree].
    split; [exact Hv|]. exact (Hfree toy_scores_clear_of_mask).
Defined.

Lemma zero_epochs_witness :
  train_generator Toy.VOCAB_SIZE 1 Toy.MAXINT Toy.EXP_UNDERFLOW unit
    Toy.init_hidden Toy.pretrain_model Toy.x0 None (Some 0) 1 None Toy.w0
  = (Raise UnboundLocalError, emit unit LogClose (emit unit LogHeader Toy.w0)).
Proof.
  apply (training_for_zero_epochs_raises Toy.VOCAB_SIZE 1 Toy.MAXINT Toy.EXP_UNDERFLOW unit
           Toy.init_hidden Toy.pretrain_model 2 2 Toy.x0 None (Some 0) 1 None Toy.w0);
    reflexivity.
Defined.

Lemma frozen_model_witness :
  exists e,
    train_generator Toy.VOCAB_SIZE 1 Toy.MAXINT Toy.EXP_UNDERFLOW unit
      Toy.init_hidden Toy.pretrain_model Toy.x0 None (Some 1) 1 None frozen_world
    = (Raise e, frozen_world)
    /\ forall a b, shape Toy.x0 = [a; b] -> e = ValueError.
Proof.
  apply (training_needs_a_trainable_parameter Toy.VOCAB_SIZE 1 Toy.MAXINT Toy.EXP_UNDERFLOW
           unit Toy.init_hidden Toy.pretrain_model Toy.x0 None (Some 1) 1 None frozen_world).
  reflexivity.
Defined.

Lemma toy_tokens : Forall (in_vocab Toy.VOCAB_SIZE) (data Toy.x0).
Proof.
  unfold in_vocab, Toy.VOCAB_SIZE. simpl. repeat (constructor; [lia|]). constructor.
Qed.

Lemma toy_run_returns :
  exists P O w',
    train_generator Toy.VOCAB_SIZE 1 Toy.MAXINT Toy.EXP_UNDERFLOW unit
      Toy.init_hidden Toy.pretrain_model Toy.x0 None (Some 2) 1 None Toy.w0
    = (Ok (P, O), w').
Proof.
  destruct (train_generator_returns Toy.VOCAB_SIZE Toy.MAXINT Toy.EXP_UNDERFLOW unit
              Toy.init_hidden Toy.pretrain_model 2 2 Toy.x0 None 1 1 None Toy.w0)
    as (P & O & w' & E & _); try reflexivity; try lia.
  - exact toy_tokens.
  - unfold valid_index, Toy.VOCAB_SIZE. simpl. repeat (constructor; [lia|]). constructor.
  - exact toy_vocabulary.
  - exact toy_underflow.
  - exact (toy_scores_sequences 2).
  - exact toy_uniform_draws.
  - exists P, O, w'.
    rewrite (train_generator_as_last_epoch Toy.VOCAB_SIZE 1) by lia. exact E.
Qed.

Lemma returned_run_witness :
  exists out w' xbs avgs,
    train_generator Toy.VOCAB_SIZE 1 Toy.MAXINT Toy.EXP_UNDERFLOW unit
      Toy.init_hidden Toy.pretrain_model Toy.x0 None (Some 2) 1 None Toy.w0
    = (Ok out, w')
    /\ length xbs = 2 /\ length avgs = 2
    /\ trace w' = trace Toy.w0 ++ LogHeader :: concat (imap (epoch_events 1 xbs) avgs)
                               ++ [LogClose].
Proof.
  destruct toy_run_returns as (P & O & w' & E).
  assert (H1 : 1 <= 1) by lia.
  destruct (a_run_that_returns_trained_every_full_batch Toy.VOCAB_SIZE 1 Toy.MAXINT
              Toy.EXP_UNDERFLOW unit Toy.init_hidden Toy.pretrain_model
              Toy.x0 None (Some 2) 1 None Toy.w0 (P, O) w' H1 E)
    as (x' & xbs & avgs & _ & _ & Hxl & _ & Hal & _ & Htr & _).
  exists (P, O), w', xbs, avgs.
  split; [exact E|]. split; [exact Hxl|]. split; [exact Hal|]. exact Htr.
Defined.

Lemma remainder_witness :
  exists w' evs,
    train_generator Toy.VOCAB_SIZE 1 Toy.MAXINT Toy.EXP_UNDERFLOW unit
      Toy.init_hidden Toy.pretrain_model three_sequences None (Some 1) 2 None Toy.w0
    = (Raise RuntimeError, w')
    /\ trace w' = trace Toy.w0 ++ evs ++ [LogClose]
    /\ optimizer_steps evs = 1 * (3 / 2).
Proof.
  apply (a_batch_size_that_leaves_a_remainder_fails Toy.VOCAB_SIZE 1 Toy.MAXINT
           Toy.EXP_UNDERFLOW unit Toy.init_hidden Toy.pretrain_model
           3 2 three_sequences None (Some 1) 0 2 None Toy.w0);
    try reflexivity; try lia.
  - unfold in_vocab, Toy.VOCAB_SIZE. simpl. repeat (constructor; [lia|]). constructor.
  - unfold valid_index, Toy.VOCAB_SIZE. simpl. repeat (constructor; [lia|]). constructor.
  - exact toy_vocabulary.
  - exact toy_underflow.
  - exact (toy_scores_sequences 2).
  - simpl. discriminate.
  - exact toy_uniform_draws.
Defined.

Lemma invalid_length_witness :
  exists w' x_batch,
    train_generator Toy.VOCAB_SIZE 1 Toy.MAXINT Toy.EXP_UNDERFLOW unit
      Toy.init_hidden Toy.pretrain_model Toy.x0 None (Some 1) 1 (Some [5%Z; 5%Z]) Toy.w0
    = (Raise IndexError, w')
    /\ parameters w' = parameters Toy.w0
    /\ trace w' = trace Toy.w0 ++ [LogHeader; InitHidden 1; ModelCall x_batch None].
Proof.
  apply (a_sentence_length_outside_the_vocabulary_stops_training Toy.VOCAB_SIZE 1 Toy.MAXINT
           Toy.EXP_UNDERFLOW unit Toy.init_hidden Toy.pretrain_model
           2 2 Toy.x0 None (Some 1) 1 (Some [5%Z; 5%Z]) Toy.w0);
    try reflexivity; try lia.
  - exact (toy_scores_sequences 2).
  - simpl. lia.
  - simpl. left. unfold valid_index, Toy.VOCAB_SIZE. simpl. lia.
Defined.

Lemma default_lengths_witness :
  exists w',
    train_generator Toy.VOCAB_SIZE 1 Toy.MAXINT Toy.EXP_UNDERFLOW unit
      Toy.init_hidden Toy.pretrain_model long_sequence None (Some 1) 1 None Toy.w0
    = (Raise IndexError, w')
    /\ parameters w' = parameters Toy.w0.
Proof.
  apply (default_sentence_lengths_need_a_larger_vocabulary Toy.VOCAB_SIZE 1 Toy.MAXINT
           Toy.EXP_UNDERFLOW unit Toy.init_hidden Toy.pretrain_model
           1 3 long_sequence None (Some 1) 1 Toy.w0);
    try reflexivity; try lia.
  - exact (toy_scores_sequences 3).
  - simpl. lia.
Defined.

Lemma zero_batch_size_witness :
  exists e,
    fst (train_generator Toy.VOCAB_SIZE 1 Toy.MAXINT Toy.EXP_UNDERFLOW unit
           Toy.init_hidden Toy.pretrain_model Toy.x0 None (Some 1) 0 None Toy.w0)
    = Raise e.
Proof.
  apply (a_batch_size_of_zero_never_returns Toy.VOCAB_SIZE 1 Toy.MAXINT Toy.EXP_UNDERFLOW
           unit Toy.init_hidden Toy.pretrain_model Toy.x0 None (Some 1) None Toy.w0).
  simpl. lia.
Defined.

Lemma sanity_check_witness :
  exists P O w',
    sanityCheck_generator Toy.VOCAB_SIZE 1 Toy.MAXINT Toy.EXP_UNDERFLOW unit
      Toy.init_hidden Toy.pretrain_model sample_x0 no_pretraining true [] Toy.w0
    = (Ok (P, O),
       ([TestOpen; TestGenerator; TestTrainedOutputs;
         TestOutputShape [2; 2]; TestProbShape [2; 2; Toy.VOCAB_SIZE]; TestClose],
        w'))
    /\ shape P = [2; 2; Toy.VOCAB_SIZE] /\ shape O = [2; 2].
Proof.
  destruct (sanity_check_of_the_generator_needs_short_sequences Toy.VOCAB_SIZE 1 Toy.MAXINT
              Toy.EXP_UNDERFLOW unit Toy.init_hidden Toy.pretrain_model sample_x0
              no_pretraining 2 2 Toy.x0 [] Toy.w0 Toy.w0)
    as [Hok _]; try reflexivity; try lia.
  - exact toy_tokens.
  - exact toy_vocabulary.
  - exact toy_underflow.
  - exact (toy_scores_sequences 2).
  - exact toy_uniform_draws.
  - apply Hok. unfold Toy.VOCAB_SIZE. lia.
Defined.


(** ** One turn of the training loop on the small model *)


(** ** A start token that single precision does not hold *)

(** The start token [2 ^ 24 + 1] comes back as [2 ^ 24]. *)
Lemma large_start_token_is_rounded :
  exists t w',
    generate 4 Toy.MAXINT Toy.EXP_UNDERFLOW unit Toy.init_hidden Toy.pretrain_model
             (Some 16777217%Z) None 2 Toy.w0 = (Ok t, w')
    /\ shape t = [2; 4]
    /\ nth 0 (data t) 0%Z = 16777216%Z
    /\ nth 0 (data t) 0%Z <> 16777217%Z.
Proof.
  destruct (generate_first_column 4 Toy.VOCAB_SIZE Toy.MAXINT Toy.EXP_UNDERFLOW unit
              Toy.init_hidden Toy.pretrain_model (Some 16777217%Z) None 2 Toy.w0)
    as (t & w' & E & Hs & Hfirst).
  - lia.
  - discriminate.
  - unfold Toy.EXP_UNDERFLOW. lra.
  - exact toy_scores_one_position.
  - simpl. constructor; [unfold valid_index, Toy.VOCAB_SIZE; simpl; lia | constructor].
  - exact toy_uniform_draws.
  - exists t, w'. split; [exact E|]. split; [exact Hs|].
    assert (H0 : nth 0 (data t) 0%Z = 16777216%Z).
    { change (nth (0 * 4) (data t) 0%Z = 16777216%Z). rewrite (Hfirst 0) by lia. reflexivity. }
    split; [exact H0|]. rewrite H0. discriminate.
Qed.

(** ** A batch size larger than the number of sequences, on the small model *)

(** Two sequences, a batch size of three, one epoch: the run ends with the
    division by zero, the header is the only line of the log, and the
    concatenation, which would have raised another exception on an empty
    list, is not reached. *)
Lemma oversized_batch_stops_before_the_concatenation :
  fst (train_generator Toy.VOCAB_SIZE 1 Toy.MAXINT Toy.EXP_UNDERFLOW unit
         Toy.init_hidden Toy.pretrain_model Toy.x0 None (Some 1) 3 None Toy.w0)
  = Raise ZeroDivisionError
  /\ trace (snd (train_generator Toy.VOCAB_SIZE 1 Toy.MAXINT Toy.EXP_UNDERFLOW unit
                   Toy.init_hidden Toy.pretrain_model Toy.x0 None (Some 1) 3 None Toy.w0))
     = [LogHeader]
  /\ cat ([] : list (tensor R)) = Raise RuntimeError
  /\ Raise ZeroDivisionError <> (Raise RuntimeError : result (tensor R * tensor Z)).
Proof.
  rewrite train_generator_oversized by (unfold num_sequences; simpl; lia).
  split; [reflexivity|]. split; [reflexivity|]. split; [reflexivity | discriminate].
Qed.

(** ** The loss in single precision at concrete inputs *)

Lemma clamp_half : Rmin (Rmax (/ 2) (Single.round CLAMP_MIN)) 1 = (/ 2)%R.
Proof.
  destruct clamp_floor as [_ H].
  rewrite Rmax_left by exact H. apply Rmin_left. lra.
Qed.

(** The loss of three sequences of one token, the prediction one half
    everywhere: the three rewards times the logarithm of one half, added in
    the order of the batch. *)
Lemma loss_of_three r1 r2 r3 :
  let c := Single.round (ln (/ 2)) in
  Single.GeneratorLoss_forward 2 halves first_tokens (Tensor [3; 1] [Some r1; Some r2; Some r3])
  = Ok (Some (Single.round
                (Single.round (Single.round (Single.round (c * r1)) + Single.round (c * r2))
                 + Single.round (c * r3)))).
Proof.
  intros c.
  destruct log_half as (m & Hm & Hc). fold c in Hc.
  assert (Hrep : representable c) by (exists m, (-24)%Z; split; assumption).
  pose proof (round_representable c Hrep) as Hrc.
  unfold Single.GeneratorLoss_forward, halves, first_tokens.
  cbn -[Single.round ln Rmin Rmax Rlt_dec].
  rewrite clamp_half.
  destruct (Rlt_dec 0 (/ 2)) as [_|N]; [|exfalso; apply N; lra].
  cbn -[Single.round ln]. fold c.
  rewrite !Rmult_1_l, !Rmult_0_l, !round_0, !Rplus_0_l, !Rplus_0_r.
  rewrite !Hrc. reflexivity.
Qed.

(** With the rewards [2 ^ 30; 1; - 2 ^ 30] the loss is 0: the second term is
    lost when it is added to the first.  With the last two batch entries
    exchanged it is the logarithm of one half. *)
Lemma single_loss_depends_on_the_order_of_the_batch :
  Single.GeneratorLoss_forward 2 halves first_tokens large_rewards = Ok (Some 0%R)
  /\ Single.GeneratorLoss_forward 2 (permute_batch [0; 2; 1] halves)
                                   (permute_batch [0; 2; 1] first_tokens)
                                   (permute_batch [0; 2; 1] large_rewards)
     = Ok (Some (Single.round (ln (/ 2))))
  /\ Single.round (ln (/ 2)) <> 0%R
  /\ Permutation [0; 2; 1] (seq 0 3)
  /\ Single.GeneratorLoss_forward 2 (permute_batch [0; 2; 1] halves)
                                   (permute_batch [0; 2; 1] first_tokens)
                                   (permute_batch [0; 2; 1] large_rewards)
     <> Single.GeneratorLoss_forward 2 halves first_tokens large_rewards.
Proof.
  assert (H : Single.GeneratorLoss_forward 2 halves first_tokens large_rewards = Ok (Some 0%R)
              /\ Single.GeneratorLoss_forward 2 (permute_batch [0; 2; 1] halves)
                                               (permute_batch [0; 2; 1] first_tokens)
                                               (permute_batch [0; 2; 1] large_rewards)
                 = Ok (Some (Single.round (ln (/ 2))))
              /\ Single.round (ln (/ 2)) <> 0%R
              /\ Permutation [0; 2; 1] (seq 0 3)).
  2:{ destruct H as (H1 & H2 & H3 & H4). repeat (split; [assumption|]).
      rewrite H1, H2. intros E. apply H3. now injection E. }
  destruct log_half as (m & Hm & Hc).
  set (c := Single.round (ln (/ 2))) in *.
  assert (Hrep : representable c) by (exists m, (-24)%Z; split; assumption).
  pose proof (round_representable c Hrep) as Hrc.
  assert (E30 : 1073741824%R = powerRZ 2 30) by (rewrite (pow2_IZR 30) by lia; reflexivity).
  set (T := (c * 1073741824)%R).
  assert (HT : representable T).
  { unfold T. rewrite E30. now apply representable_scale. }
  pose proof (round_representable T HT) as HrT.
  assert (Hneg : Single.round (c * - 1073741824) = (- T)%R).
  { replace (c * - 1073741824)%R with (- T)%R by (unfold T; ring).
    apply round_representable. now apply representable_opp. }
  assert (Habs : Single.round (T + c) = T).
  { unfold T. rewrite Hc, E30. apply round_absorbs. exact Hm. }
  assert (Hzero : Single.round (T + - T) = 0%R).
  { replace (T + - T)%R with 0%R by ring. apply round_0. }
  assert (Hone : Single.round (c * 1) = c) by (rewrite Rmult_1_r; exact Hrc).
  split; [|split; [|split]].
  - unfold large_rewards. rewrite loss_of_three. fold c. fold T.
    rewrite HrT, HrT, Hone, Habs, Hneg, Hzero. reflexivity.
  - change (permute_batch [0; 2; 1] halves) with halves.
    change (permute_batch [0; 2; 1] first_tokens) with first_tokens.
    change (permute_batch [0; 2; 1] large_rewards)
      with (Tensor [3; 1] [Some 1073741824%R; Some (- 1073741824)%R; Some 1%R]).
    rewrite loss_of_three. fold c. fold T.
    rewrite HrT, HrT, Hneg, Hzero, Hone, Rplus_0_l, Hrc. reflexivity.
  - rewrite Hc. pose proof (pow2_pos (-24)) as Hp.
    assert (Hm0 : IZR m <> 0%R) by (apply not_0_IZR; lia).
    intros H0. apply Rmult_integral in H0. destruct H0; [contradiction | lra].
  - simpl. apply perm_skip. apply perm_swap.
Qed.

(** A NaN beside the probability of the reference token, and a reward of
    zero: the loss is NaN. *)
Lemma nan_prediction_gives_nan_loss :
  Single.GeneratorLoss_forward 2 nan_prediction (Tensor [1; 1] [1%Z]) (Tensor [1; 1] [Some 0%R])
  = Ok Single.NaN
  /\ Ok Single.NaN <> Ok (Some 0%R).
Proof.
  split; [reflexivity | discriminate].
Qed.

